(** * Inventory reconciliation engine of tepsonic-database-sync

    A shallow embedding of the two vendor-sync route modules of
    [src/index.js]: the generic adapter ([syncVendor] and its helpers) and
    the restricted, Wholecell adapter ([syncWholecellVendor] and its
    helpers), followed by the properties of the specification that concern
    them and by further properties of the code.

    Conventions of the embedding.
    - Strings are ASCII byte strings.  A field that is missing, [null] or
      [undefined] in a document is the empty string, which is falsy like
      them, so [x || d] reads [x ||| d] below.
    - Numbers are integers ([Z]); a price that is missing or not a number is
      [0], as [Number(x) || 0] makes it.
    - An [ObjectId] is a number ([N]); a fresh one is drawn from a counter of
      the world.
    - A JavaScript [Map] is an association list in insertion order.
    - Time stamps ([createdAt], [updatedAt]) are left out.
    - A call to the store or to a vendor may fail; the world says which
      calls do, and a failure is a thrown message.
    - Pipelines that overlap in time run each to its end, one at a time, in
      an order that the world chooses; the operations of an unordered batch
      are applied in an order that the world chooses, each by itself. *)

From Stdlib Require Import String Ascii List ZArith NArith Lia Bool Arith
  Permutation.
Import ListNotations.
Local Open Scope list_scope.
Local Open Scope string_scope.

Set Implicit Arguments.

(** ** Strings as JavaScript uses them *)

Module Js.

(** [x || d] on strings: the empty string is falsy. *)
Definition or_else (x d : string) : string :=
  if String.eqb x "" then d else x.

Definition truthy (x : string) : bool := negb (String.eqb x "").

Definition is_space (c : ascii) : bool :=
  let n := nat_of_ascii c in
  (n =? 32)%nat || ((9 <=? n)%nat && (n <=? 13)%nat).

Fixpoint trimStart (s : string) : string :=
  match s with
  | String c s' => if is_space c then trimStart s' else s
  | EmptyString => EmptyString
  end.

Fixpoint rev_string (s acc : string) : string :=
  match s with
  | String c s' => rev_string s' (String c acc)
  | EmptyString => acc
  end.

(** [String.prototype.trim]. *)
Definition trim (s : string) : string :=
  rev_string (trimStart (rev_string (trimStart s) "")) "".

Definition lower_ascii (c : ascii) : ascii :=
  let n := nat_of_ascii c in
  if (65 <=? n)%nat && (n <=? 90)%nat then ascii_of_nat (n + 32) else c.

(** [String.prototype.toLowerCase]. *)
Fixpoint toLowerCase (s : string) : string :=
  match s with
  | String c s' => String (lower_ascii c) (toLowerCase s')
  | EmptyString => EmptyString
  end.

(** [s.includes(sub)]. *)
Fixpoint includes (sub s : string) : bool :=
  String.prefix sub s ||
  match s with
  | String _ s' => includes sub s'
  | EmptyString => false
  end.

(** [s.split(sep)] for a separator that is not empty.  [skip] counts the
    characters of a separator just matched that are still to be passed. *)
Fixpoint split_go (sep : string) (skip : nat) (acc s : string) : list string :=
  match s with
  | EmptyString => [acc]
  | String c s' =>
      match skip with
      | S k => split_go sep k acc s'
      | O =>
          if String.prefix sep s
          then acc :: split_go sep (String.length sep - 1) "" s'
          else split_go sep 0 (acc ++ String c "") s'
      end
  end.

Definition split (sep s : string) : list string := split_go sep 0 "" s.

(** [Math.round(n / 100)] on an integer [n]: the nearest integer, a half
    going up. *)
Definition round_div100 (n : Z) : Z := ((n + 50) / 100)%Z.

End Js.

Infix "|||" := Js.or_else (at level 50, left associativity).

(** ** The vendor feed *)

(** [item.product_variation.product] *)
Record Product := mkProduct {
  manufacturer : string;
  model : string;
  p_color : string;
  capacity : string;
  p_variant : string
}.

(** [item.product_variation] *)
Record Variation := mkVariation {
  v_product : option Product;
  grade : string;
  sku : string
}.

(** One unit of inventory as the vendor reports it; [id] is the unit's
    number as it prints in [`item_${item.id}`]. *)
Record Item := mkItem {
  product_variation : option Variation;
  status : string;
  total_price_paid : Z;
  esn : string;
  hex_id : string;
  id : string
}.

(** [{}] where the code writes [x || {}]. *)
Definition noProduct : Product := mkProduct "" "" "" "" "".
Definition noVariation : Variation := mkVariation None "" "".

(** [item.product_variation?.product || {}] *)
Definition productOf (item : Item) : Product :=
  match product_variation item with
  | Some v => match v_product v with Some p => p | None => noProduct end
  | None => noProduct
  end.

(** [item.product_variation || {}] *)
Definition variationOf (item : Item) : Variation :=
  match product_variation item with
  | Some v => v
  | None => noVariation
  end.

(** [item.esn || item.hex_id || variation.sku || `item_${item.id}`] *)
Definition unitIdentifier (item : Item) : string :=
  esn item ||| hex_id item ||| sku (variationOf item) ||| ("item_" ++ id item).

(** [`${product.manufacturer || ""} ${product.model || ""}`.trim()] *)
Definition candidateName (p : Product) : string :=
  Js.trim ((manufacturer p ||| "") ++ " " ++ (model p ||| "")).

(** ** Insertion-ordered maps with string keys *)

Section JsMap.
Variable V : Type.

Definition JsMap := list (string * V).

Fixpoint get (k : string) (m : JsMap) : option V :=
  match m with
  | [] => None
  | (k', v) :: m' => if String.eqb k k' then Some v else get k m'
  end.

Definition has (k : string) (m : JsMap) : bool :=
  match get k m with Some _ => true | None => false end.

(** [m.set(k, v)]: a key already present keeps its place. *)
Fixpoint set (k : string) (v : V) (m : JsMap) : JsMap :=
  match m with
  | [] => [(k, v)]
  | (k', v') :: m' =>
      if String.eqb k k' then (k', v) :: m' else (k', v') :: set k v m'
  end.

(** [Array.from(m.values())] *)
Definition values (m : JsMap) : list V := map snd m.

Definition keys (m : JsMap) : list string := map fst m.
End JsMap.

(** ** Grouping (both modules carry the same function) *)

Record Group := mkGroup {
  g_product : Product;
  g_variation : Variation;
  g_condition : string;
  g_items : list Item
}.

Definition groupKeyOf (item : Item) : string :=
  let product := productOf item in
  let variation := variationOf item in
  let productKey :=
    Js.trim ((manufacturer product ||| "") ++ "_" ++ (model product ||| "")) in
  let conditionKey := grade variation ||| "Unknown" in
  productKey ++ "_" ++ conditionKey.

Definition groupItem (grouped : JsMap Group) (item : Item) : JsMap Group :=
  let groupKey := groupKeyOf item in
  let grouped1 :=
    if has groupKey grouped then grouped
    else set groupKey
           (mkGroup (productOf item) (variationOf item)
                    (grade (variationOf item) ||| "Unknown") [])
           grouped in
  match get groupKey grouped1 with
  | Some g =>
      set groupKey
        (mkGroup (g_product g) (g_variation g) (g_condition g)
                 (g_items g ++ [item])%list)
        grouped1
  | None => grouped1
  end.

Definition groupItemsByProductAndCondition (items : list Item) : JsMap Group :=
  fold_left groupItem items [].

(** ** Selected options *)

Record SelectedOption := mkOption {
  color : string;
  variant : string;
  stock : Z;
  price : Z;
  discount : Z;
  uniqueNumbers : list string;
  _id : N
}.

(** [`${color}_${variant}`] *)
Definition optionKey (c v : string) : string := c ++ "_" ++ v.

Definition keyOf (o : SelectedOption) : string := optionKey (color o) (variant o).

(** [option.stock += 1; option.uniqueNumbers.push(u)] *)
Definition countUnit (u : string) (o : SelectedOption) : SelectedOption :=
  mkOption (color o) (variant o) (stock o + 1) (price o) (discount o)
           (uniqueNumbers o ++ [u])%list (_id o).

Definition update (k : string) (f : SelectedOption -> SelectedOption)
    (m : JsMap SelectedOption) : JsMap SelectedOption :=
  match get k m with
  | Some o => set k (f o) m
  | None => m
  end.

(** *** Generic adapter *)

(** The variant descriptor of [createSelectedOptions]:
    [product.variant || capacity || "Standard"] with
    [capacity = product.capacity ? `${product.capacity}GB` : ""]. *)
Definition genericVariant (product : Product) : string :=
  let capacityGB :=
    if Js.truthy (capacity product) then capacity product ++ "GB" else "" in
  p_variant product ||| capacityGB ||| "Standard".

(** One turn of the [forEach] of [createSelectedOptions]; [next] is the
    next fresh [ObjectId]. *)
Definition addGeneric (acc : JsMap SelectedOption * N) (item : Item)
  : JsMap SelectedOption * N :=
  let '(optionsMap, next) := acc in
  let product := productOf item in
  let c := p_color product ||| "Unknown" in
  let v := genericVariant product in
  let k := optionKey c v in
  let '(optionsMap1, next1) :=
    if has k optionsMap then (optionsMap, next)
    else (set k (mkOption c v 0 (total_price_paid item) 0 [] next) optionsMap,
          N.succ next) in
  if String.eqb (status item) "Sold" then (optionsMap1, next1)
  else (update k (countUnit (unitIdentifier item)) optionsMap1, next1).

Definition createSelectedOptions (items : list Item) (next : N)
  : list SelectedOption * N :=
  let '(optionsMap, next') := fold_left addGeneric items ([], next) in
  (values optionsMap, next').

(** *** Restricted adapter *)

(** Catalog entries of [tep_admin_products]; [storage] is
    [specifications.storage]. *)
Record AdminProduct := mkAdminProduct {
  ap_id : N;
  name : string;
  ap_manufacturer : string;
  ap_model : string;
  category : string;
  imagesByColor : list string;
  storage : string
}.

Definition findMatchingStorageSpec (storageSpec cap : string) : string :=
  if negb (Js.truthy storageSpec) || negb (Js.truthy cap) then "Unknown"
  else
    let storageOptions := Js.split ", " storageSpec in
    match find (Js.includes (cap ++ "GB")) storageOptions with
    | Some option => option
    | None =>
        match find (Js.includes cap) storageOptions with
        | Some option => option
        | None => "Unknown"
        end
    end.

(** The variant descriptor of [createSelectedOptionsForWholecell]
    (the [if]/[else if]/[else] on [capacity] and the matched admin product). *)
Definition wholecellVariant (cap : string) (adminProduct : option AdminProduct)
  : string :=
  let spec := match adminProduct with Some a => storage a | None => "" end in
  if Js.truthy cap && Js.truthy spec then findMatchingStorageSpec spec cap
  else if Js.truthy cap then cap ++ "GB 4GB RAM"
  else "Unknown".

(** The names asked of the catalog:
    the candidate names of the [Available] items, the empty ones dropped. *)
Definition productNames (items : list Item) : list string :=
  filter Js.truthy
    (map (fun item => candidateName (productOf item))
         (filter (fun item => String.eqb (status item) "Available") items)).

(** [adminProductMap]: the fetched entries by lower-cased name. *)
Definition adminProductMapOf (adminProducts : list AdminProduct)
  : JsMap AdminProduct :=
  fold_left (fun m a => set (Js.toLowerCase (name a)) a m) adminProducts [].

(** One turn of the [for] loop of [createSelectedOptionsForWholecell]. *)
Definition addWholecell (adminProductMap : JsMap AdminProduct)
    (acc : JsMap SelectedOption * N) (item : Item)
  : JsMap SelectedOption * N :=
  let '(optionsMap, next) := acc in
  if negb (String.eqb (status item) "Available") then (optionsMap, next)
  else
    let product := productOf item in
    let c := p_color product ||| "Unknown" in
    let cap := capacity product ||| "" in
    let adminProduct :=
      get (Js.toLowerCase (candidateName product)) adminProductMap in
    let v := wholecellVariant cap adminProduct in
    let k := optionKey c v in
    let '(optionsMap1, next1) :=
      if has k optionsMap then (optionsMap, next)
      else
        let priceInDollars := Js.round_div100 (total_price_paid item) in
        (set k (mkOption c v 0 priceInDollars priceInDollars [] next) optionsMap,
         N.succ next) in
    (update k (countUnit (unitIdentifier item)) optionsMap1, next1).

(** [createSelectedOptionsForWholecell] once the catalog has answered the
    [find({name: {$in: productNames}})] with [adminProducts]. *)
Definition aggregateWholecell (items : list Item)
    (adminProducts : list AdminProduct) (next : N)
  : list SelectedOption * N :=
  let '(optionsMap, next') :=
    fold_left (addWholecell (adminProductMapOf adminProducts)) items ([], next) in
  (values optionsMap, next').

(** [mergeSelectedOptions] *)
Definition mergeInto (existing opt : SelectedOption) : SelectedOption :=
  let p := Z.min (price existing) (price opt) in
  mkOption (color existing) (variant existing)
           (stock existing + stock opt) p p
           (uniqueNumbers existing ++ uniqueNumbers opt)%list (_id existing).

Definition mergeStep (merged : JsMap SelectedOption) (opt : SelectedOption)
  : JsMap SelectedOption :=
  match get (keyOf opt) merged with
  | Some existing => set (keyOf opt) (mergeInto existing opt) merged
  | None => set (keyOf opt) opt merged
  end.

Definition mergeSelectedOptions (existingOptions newOptions : list SelectedOption)
  : list SelectedOption :=
  let merged0 := fold_left (fun m opt => set (keyOf opt) opt m) existingOptions [] in
  values (fold_left mergeStep newOptions merged0).

(** The zero-out of the generic adapter:
    [existing.selectedOptions.map(opt => ({...opt, stock: 0, uniqueNumbers: []}))] *)
Definition zeroOut (opt : SelectedOption) : SelectedOption :=
  mkOption (color opt) (variant opt) 0 (price opt) (discount opt) [] (_id opt).

(** ** The world: catalog, vendor records, vendors and their feeds *)

(** A persisted vendor-product record of [tep_vendor_products];
    [vp_database] is empty on a record the generic adapter wrote. *)
Record VendorProduct := mkVendorProduct {
  vp_id : N;
  vp_vendorId : N;
  vp_product : N;
  vp_condition : N;
  selectedOptions : list SelectedOption;
  vp_database : string
}.

(** A vendor configuration of [tep_admin_wholesale_apis]. *)
Record VendorApi := mkVendorApi {
  api_id : N;
  vendorId : N;
  database : string
}.

(** The three name queries the code sends to the catalog, each with option
    [i]: [^escaped$], [escaped], and the name itself as the pattern. *)
Inductive NameQuery :=
| ExactI (n : string)
| ContainsI (n : string)
| RegexI (pattern : string).

(** The calls that leave the process; any of them may fail. *)
Inductive StoreCall :=
| Connect
| WholesaleApisFind
| WholesaleApisUpdateOne (api : N)
| ProductsFindOne (q : NameQuery)
| ProductsFindIn (names : list string)
| ProductsInsertOne (n : string)
| VendorProductsFindOne (vendor product condition : N)
| VendorProductsFind (vendor : N)
| VendorProductsBulkWrite.

Inductive result (A : Type) :=
| Ok (a : A)
| Throw (message : string).
Arguments Ok {A} a.
Arguments Throw {A} message.

(** - [vendor_feed v] is what [axios.get] answers for vendor [v]: the
      [data] array of the body (empty when it is no array), or a failure.
    - [regex_i pattern subject] is the store's search of [subject] for the
      regular expression [pattern], case ignored; the generic adapter sends
      names unescaped.
    - [rejects c] tells the calls that fail (their message is in [failure]).
    - [global_condition] is what the free identifier [condition] of the
      generic module is bound to: nothing in the module declares it, so it is
      [None] unless the global object carries it, and reading it then throws
      a [ReferenceError].
    - [batch_first] and [batch_reached] are the store's way with a batch
      written unordered: [batch_first i j] tells whether it takes the
      operation at place [i] of the batch before the one at place [j], and
      [batch_reached i] whether, of a batch it refuses, it has applied the
      operation at place [i] all the same.
    - [runs_first i j] tells whether, of the pipelines a route starts
      together, the one at place [i] runs before the one at place [j].
    - [console_error] keeps the group keys passed to [console.error]. *)
Record World := mkWorld {
  tep_admin_products : list AdminProduct;
  tep_vendor_products : list VendorProduct;
  tep_admin_wholesale_apis : list VendorApi;
  next_oid : N;
  vendor_feed : N -> result (list Item);
  regex_i : string -> string -> bool;
  rejects : StoreCall -> bool;
  global_condition : option N;
  batch_first : nat -> nat -> bool;
  batch_reached : nat -> bool;
  runs_first : nat -> nat -> bool;
  console_error : list string
}.

Definition setProducts (ps : list AdminProduct) (w : World) : World :=
  mkWorld ps (tep_vendor_products w) (tep_admin_wholesale_apis w) (next_oid w)
          (vendor_feed w) (regex_i w) (rejects w) (global_condition w)
          (batch_first w) (batch_reached w) (runs_first w) (console_error w).

Definition setVendorProducts (rs : list VendorProduct) (w : World) : World :=
  mkWorld (tep_admin_products w) rs (tep_admin_wholesale_apis w) (next_oid w)
          (vendor_feed w) (regex_i w) (rejects w) (global_condition w)
          (batch_first w) (batch_reached w) (runs_first w) (console_error w).

Definition setApis (apis : list VendorApi) (w : World) : World :=
  mkWorld (tep_admin_products w) (tep_vendor_products w) apis (next_oid w)
          (vendor_feed w) (regex_i w) (rejects w) (global_condition w)
          (batch_first w) (batch_reached w) (runs_first w) (console_error w).

Definition setNextOid (n : N) (w : World) : World :=
  mkWorld (tep_admin_products w) (tep_vendor_products w)
          (tep_admin_wholesale_apis w) n
          (vendor_feed w) (regex_i w) (rejects w) (global_condition w)
          (batch_first w) (batch_reached w) (runs_first w) (console_error w).

Definition logError (line : string) (w : World) : World :=
  mkWorld (tep_admin_products w) (tep_vendor_products w)
          (tep_admin_wholesale_apis w) (next_oid w)
          (vendor_feed w) (regex_i w) (rejects w) (global_condition w)
          (batch_first w) (batch_reached w) (runs_first w) (console_error w ++ [line])%list.

(** ** Computations that read and write the world and may throw *)

Definition M (A : Type) : Type := World -> result A * World.

Definition ret {A} (a : A) : M A := fun w => (Ok a, w).

Definition bind {A B} (m : M A) (k : A -> M B) : M B :=
  fun w =>
    match m w with
    | (Ok a, w') => k a w'
    | (Throw e, w') => (Throw e, w')
    end.

Definition throw {A} (e : string) : M A := fun w => (Throw e, w).

(** [try { m } catch (err) { handler(err) }]: what [m] wrote before it
    threw stays written. *)
Definition tryCatch {A} (m : M A) (handler : string -> M A) : M A :=
  fun w =>
    match m w with
    | (Ok a, w') => (Ok a, w')
    | (Throw e, w') => handler e w'
    end.

Declare Scope js_scope.
Delimit Scope js_scope with js.
Notation "x <- c ;; k" := (bind c (fun x => k))
  (at level 61, c at next level, right associativity) : js_scope.
Notation "' p <- c ;; k" := (bind c (fun x => let 'p := x in k))
  (at level 61, p pattern, c at next level, right associativity) : js_scope.
Notation "c ;;; k" := (bind c (fun _ => k))
  (at level 61, right associativity) : js_scope.
Local Open Scope js_scope.

Definition failure (c : StoreCall) : string :=
  match c with
  | Connect => "connect failed"
  | VendorProductsBulkWrite => "bulk write failed"
  | _ => "store call failed"
  end.

Definition call (c : StoreCall) : M unit :=
  fun w => if rejects w c then (Throw (failure c), w) else (Ok tt, w).

(** [new ObjectId()] *)
Definition newObjectId : M N :=
  fun w => (Ok (next_oid w), setNextOid (N.succ (next_oid w)) w).

(** Runs a function that draws its [ObjectId]s from the counter. *)
Definition drawing {A} (f : N -> A * N) : M A :=
  fun w => let '(a, n) := f (next_oid w) in (Ok a, setNextOid n w).

Definition console_error_log (line : string) : M unit :=
  fun w => (Ok tt, logError line w).

(** *** The catalog *)

Definition ieq (a b : string) : bool :=
  String.eqb (Js.toLowerCase a) (Js.toLowerCase b).

Definition icontains (n stored : string) : bool :=
  Js.includes (Js.toLowerCase n) (Js.toLowerCase stored).

Definition matchesName (w : World) (q : NameQuery) (stored : string) : bool :=
  match q with
  | ExactI n => ieq n stored
  | ContainsI n => icontains n stored
  | RegexI pattern => regex_i w pattern stored
  end.

(** [collection.findOne({name: {$regex: ..., $options: "i"}})]:
    the first entry that matches. *)
Definition productsFindOne (q : NameQuery) : M (option AdminProduct) :=
  call (ProductsFindOne q) ;;;
  fun w => (Ok (find (fun a => matchesName w q (name a)) (tep_admin_products w)), w).

(** [collection.find({name: {$in: names}}).toArray()] *)
Definition productsFindIn (names : list string) : M (list AdminProduct) :=
  call (ProductsFindIn names) ;;;
  fun w =>
    (Ok (filter (fun a => existsb (String.eqb (name a)) names)
                (tep_admin_products w)), w).

(** [collection.insertOne(doc)]: the driver gives the entry its [_id]. *)
Definition productsInsertOne (doc : AdminProduct) : M N :=
  call (ProductsInsertOne (name doc)) ;;;
  insertedId <- newObjectId ;;
  fun w =>
    (Ok insertedId,
     setProducts
       (tep_admin_products w ++
        [mkAdminProduct insertedId (name doc) (ap_manufacturer doc)
           (ap_model doc) (category doc) (imagesByColor doc) (storage doc)])%list
       w).

(** [findOrCreateProduct] of the generic module. *)
Definition findOrCreateProduct (productData : Product) : M AdminProduct :=
  let n := candidateName productData in
  product <- productsFindOne (RegexI n) ;;
  match product with
  | Some p => ret p
  | None =>
      let newProduct :=
        mkAdminProduct 0 n (manufacturer productData ||| "Unknown")
          (model productData ||| "") (manufacturer productData ||| "Unknown")
          [] "" in
      insertedId <- productsInsertOne newProduct ;;
      ret (mkAdminProduct insertedId (name newProduct)
             (ap_manufacturer newProduct) (ap_model newProduct)
             (category newProduct) (imagesByColor newProduct)
             (storage newProduct))
  end.

(** [findExistingProduct] of the restricted module. *)
Definition findExistingProduct (productData : Product) : M (option AdminProduct) :=
  let n := candidateName productData in
  product <- productsFindOne (ExactI n) ;;
  match product with
  | Some p => ret (Some p)
  | None =>
      if (3 <? String.length n)%nat
      then productsFindOne (ContainsI n)
      else ret None
  end.

(** *** Vendor records and the batch of operations *)

(** The fields [$set] by an update of loop one, and an inserted document. *)
Record VendorProductData := mkData {
  d_vendorId : N;
  d_product : N;
  d_condition : N;
  d_selectedOptions : list SelectedOption;
  d_database : string
}.

Inductive Filter :=
| ByTriple (vendor product condition : N)
| ById (i : N).

Inductive Update :=
| SetData (d : VendorProductData)
| SetSelectedOptions (opts : list SelectedOption).

Inductive BulkOp :=
| insertOne (document : VendorProductData)
| updateOne (filter : Filter) (update : Update).

Definition matchesFilter (f : Filter) (r : VendorProduct) : bool :=
  match f with
  | ByTriple v p c =>
      (vp_vendorId r =? v)%N && (vp_product r =? p)%N && (vp_condition r =? c)%N
  | ById i => (vp_id r =? i)%N
  end.

(** [$set]: a field the update does not name keeps its value. *)
Definition applyUpdate (u : Update) (r : VendorProduct) : VendorProduct :=
  match u with
  | SetData d =>
      mkVendorProduct (vp_id r) (d_vendorId d) (d_product d) (d_condition d)
        (d_selectedOptions d) (d_database d ||| vp_database r)
  | SetSelectedOptions opts =>
      mkVendorProduct (vp_id r) (vp_vendorId r) (vp_product r) (vp_condition r)
        opts (vp_database r)
  end.

(** [updateOne]: the first record the filter matches. *)
Fixpoint updateFirst (f : Filter) (u : Update) (rs : list VendorProduct)
  : list VendorProduct :=
  match rs with
  | [] => []
  | r :: rs' =>
      if matchesFilter f r then applyUpdate u r :: rs'
      else r :: updateFirst f u rs'
  end.

Definition applyOp (st : list VendorProduct * N) (op : BulkOp)
  : list VendorProduct * N :=
  let '(rs, next) := st in
  match op with
  | insertOne d =>
      ((rs ++ [mkVendorProduct next (d_vendorId d) (d_product d) (d_condition d)
                 (d_selectedOptions d) (d_database d)])%list,
       N.succ next)
  | updateOne f u => (updateFirst f u rs, next)
  end.

Definition vendorProductsFindOne (v p c : N) : M (option VendorProduct) :=
  call (VendorProductsFindOne v p c) ;;;
  fun w => (Ok (find (matchesFilter (ByTriple v p c)) (tep_vendor_products w)), w).

Definition vendorProductsFind (v : N) : M (list VendorProduct) :=
  call (VendorProductsFind v) ;;;
  fun w =>
    (Ok (filter (fun r => (vp_vendorId r =? v)%N) (tep_vendor_products w)), w).

(** The order in which the things of a list are taken when nothing in the
    code fixes it, as with the operations of an unordered batch: going
    through the list from its end, each thing, with its place in the list,
    is put before the first of those already placed that it is taken
    before, and after them all if there is none. *)
Fixpoint takenBefore {A} (first : nat -> nat -> bool) (x : nat * A)
    (placed : list (nat * A)) : list (nat * A) :=
  match placed with
  | [] => [x]
  | y :: rest =>
      if first (fst x) (fst y) then x :: placed
      else y :: takenBefore first x rest
  end.

Definition takenOrder {A} (first : nat -> nat -> bool) (l : list A)
  : list (nat * A) :=
  fold_right (takenBefore first) [] (combine (seq 0 (length l)) l).

(** [collection.bulkWrite(ops, {ordered: false})]: the store applies the
    operations in an order of its own, each by itself; when it refuses the
    batch the call throws, and the operations it had reached stay applied. *)
Definition bulkWrite (ops : list BulkOp) : M unit :=
  fun w =>
    let refused := rejects w VendorProductsBulkWrite in
    let taken := takenOrder (batch_first w) ops in
    let applied :=
      if refused then filter (fun x => batch_reached w (fst x)) taken
      else taken in
    let '(rs, n) :=
      fold_left applyOp (map snd applied) (tep_vendor_products w, next_oid w) in
    (if refused then Throw (failure VendorProductsBulkWrite) else Ok tt,
     setNextOid n (setVendorProducts rs w)).

(** [axios.get] and [Array.isArray(resp.data.data) ? resp.data.data : []] *)
Definition fetchItems (vendorApi : VendorApi) : M (list Item) :=
  fun w => (vendor_feed w (vendorId vendorApi), w).

(** [!opts.length || opts.every(opt => opt.stock === 0)] *)
Definition noStock (opts : list SelectedOption) : bool :=
  (length opts =? 0)%nat || forallb (fun opt => (stock opt =? 0)%Z) opts.

(** ** The generic adapter: [syncVendor] *)

(** Reading the identifier [condition] and then its [_id]. *)
Definition readCondition : M N :=
  fun w =>
    match global_condition w with
    | Some c => (Ok c, w)
    | None => (Throw "condition is not defined", w)
    end.

Record Tally := mkTally {
  bulkOps : list BulkOp;
  newVendorProducts : nat;
  updatedVendorProducts : nat
}.

(** The body of the [try] of the first loop. *)
Definition genericGroup (vendorApi : VendorApi) (groupData : Group) (t : Tally)
  : M Tally :=
  product <- findOrCreateProduct (g_product groupData) ;;
  opts <- drawing (createSelectedOptions (g_items groupData)) ;;
  if noStock opts then ret t
  else
    c <- readCondition ;;
    existing <- vendorProductsFindOne (vendorId vendorApi) (ap_id product) c ;;
    let vendorProductData :=
      mkData (vendorId vendorApi) (ap_id product) c opts "" in
    match existing with
    | Some _ =>
        ret (mkTally
               (bulkOps t ++
                [updateOne (ByTriple (vendorId vendorApi) (ap_id product) c)
                           (SetData vendorProductData)])%list
               (newVendorProducts t) (S (updatedVendorProducts t)))
    | None =>
        ret (mkTally (bulkOps t ++ [insertOne vendorProductData])%list
               (S (newVendorProducts t)) (updatedVendorProducts t))
    end.

(** The first loop: a group that throws is logged and passed over. *)
Fixpoint genericGroups (vendorApi : VendorApi) (groups : JsMap Group) (t : Tally)
  : M Tally :=
  match groups with
  | [] => ret t
  | (groupKey, groupData) :: rest =>
      t' <- tryCatch (genericGroup vendorApi groupData t)
                     (fun _ => console_error_log groupKey ;;; ret t) ;;
      genericGroups vendorApi rest t'
  end.

(** The second loop, which has no [try]: the set [currentCombinations] of
    keys [`${product._id}_${condition._id}`]. *)
Fixpoint currentCombinationsOf (groups : JsMap Group) (current : list (N * N))
  : M (list (N * N)) :=
  match groups with
  | [] => ret current
  | (_, groupData) :: rest =>
      product <- findOrCreateProduct (g_product groupData) ;;
      c <- readCondition ;;
      currentCombinationsOf rest (current ++ [(ap_id product, c)])%list
  end.

Definition inCombinations (current : list (N * N)) (p c : N) : bool :=
  existsb (fun k => (fst k =? p)%N && (snd k =? c)%N) current.

Definition zeroOutOp (existing : VendorProduct) : BulkOp :=
  updateOne (ById (vp_id existing))
            (SetSelectedOptions (map zeroOut (selectedOptions existing))).

(** The third loop: the operations pushed for the records whose key is not
    among the current combinations. *)
Fixpoint markOutOfStock (current : list (N * N)) (existing : list VendorProduct)
  : list BulkOp :=
  match existing with
  | [] => []
  | e :: rest =>
      if inCombinations current (vp_product e) (vp_condition e)
      then markOutOfStock current rest
      else zeroOutOp e :: markOutOfStock current rest
  end.

Record GenericReport := mkGenericReport {
  gr_vendorId : N;
  gr_totalFetched : nat;
  gr_groupsProcessed : nat;
  gr_newVendorProducts : nat;
  gr_updatedVendorProducts : nat;
  gr_markedAsOutOfStock : nat;
  gr_totalOperations : nat
}.

(** [syncVendor] up to the batch write: the batch and the report. *)
Definition syncVendorOps (vendorApi : VendorApi) : M (list BulkOp * GenericReport) :=
  vendorItems <- fetchItems vendorApi ;;
  let groupedItems := groupItemsByProductAndCondition vendorItems in
  t <- genericGroups vendorApi groupedItems (mkTally [] 0 0) ;;
  existingVendorProducts <- vendorProductsFind (vendorId vendorApi) ;;
  current <- currentCombinationsOf groupedItems [] ;;
  let zeroed := markOutOfStock current existingVendorProducts in
  let ops := (bulkOps t ++ zeroed)%list in
  ret (ops,
       mkGenericReport (vendorId vendorApi) (length vendorItems)
         (length groupedItems) (newVendorProducts t) (updatedVendorProducts t)
         (length zeroed) (length ops)).

Definition syncVendor (vendorApi : VendorApi) : M GenericReport :=
  ' (ops, report) <- syncVendorOps vendorApi ;;
  (if (length ops =? 0)%nat then ret tt else bulkWrite ops) ;;;
  ret report.

(** ** The restricted adapter: [syncWholecellVendor] *)

(** [new ObjectId("682f3e63402c8b0c279cba1e")] *)
Definition fixedConditionId : N := 0x682f3e63402c8b0c279cba1e%N.

(** Step one, which has no [try]: the groups whose product the catalog
    knows, and the count of the others. *)
Fixpoint filterValid (groups : JsMap Group)
    (validGroups : JsMap (Group * AdminProduct)) (skippedProducts : nat)
  : M (JsMap (Group * AdminProduct) * nat) :=
  match groups with
  | [] => ret (validGroups, skippedProducts)
  | (groupKey, groupData) :: rest =>
      existingProduct <- findExistingProduct (g_product groupData) ;;
      match existingProduct with
      | Some p =>
          filterValid rest (set groupKey (groupData, p) validGroups)
                      skippedProducts
      | None => filterValid rest validGroups (S skippedProducts)
      end
  end.

Definition createSelectedOptionsForWholecell (items : list Item)
  : M (list SelectedOption) :=
  adminProducts <- productsFindIn (productNames items) ;;
  drawing (aggregateWholecell items adminProducts).

Record WholecellTally := mkWTally {
  w_bulkOps : list BulkOp;
  w_newVendorProducts : nat;
  w_updatedVendorProducts : nat;
  w_totalStockProcessed : Z
}.

(** [selectedOptions.reduce((sum, opt) => sum + opt.stock, 0)] *)
Definition totalStock (opts : list SelectedOption) : Z :=
  fold_left (fun sum opt => (sum + stock opt)%Z) opts 0%Z.

(** The body of the [try] of step two. *)
Definition wholecellGroup (vendorApi : VendorApi)
    (valid : Group * AdminProduct) (t : WholecellTally) : M WholecellTally :=
  let '(groupData, existingProduct) := valid in
  opts <- createSelectedOptionsForWholecell (g_items groupData) ;;
  if noStock opts then ret t
  else
    existing <- vendorProductsFindOne (vendorId vendorApi)
                  (ap_id existingProduct) fixedConditionId ;;
    match existing with
    | Some e =>
        let mergedOptions := mergeSelectedOptions (selectedOptions e) opts in
        ret (mkWTally
               (w_bulkOps t ++
                [updateOne
                   (ByTriple (vendorId vendorApi) (ap_id existingProduct)
                             fixedConditionId)
                   (SetData (mkData (vendorId vendorApi) (ap_id existingProduct)
                               fixedConditionId mergedOptions "wholecell"))])%list
               (w_newVendorProducts t) (S (w_updatedVendorProducts t))
               (w_totalStockProcessed t + totalStock opts))
    | None =>
        ret (mkWTally
               (w_bulkOps t ++
                [insertOne (mkData (vendorId vendorApi) (ap_id existingProduct)
                              fixedConditionId opts "wholecell")])%list
               (S (w_newVendorProducts t)) (w_updatedVendorProducts t)
               (w_totalStockProcessed t + totalStock opts))
    end.

Fixpoint wholecellGroups (vendorApi : VendorApi)
    (validGroups : JsMap (Group * AdminProduct)) (t : WholecellTally)
  : M WholecellTally :=
  match validGroups with
  | [] => ret t
  | (groupKey, valid) :: rest =>
      t' <- tryCatch (wholecellGroup vendorApi valid t)
                     (fun _ => console_error_log groupKey ;;; ret t) ;;
      wholecellGroups vendorApi rest t'
  end.

Record WholecellReport := mkWholecellReport {
  wr_vendorId : N;
  wr_totalFetched : nat;
  wr_validProducts : nat;
  wr_skippedProducts : nat;
  wr_newVendorProducts : nat;
  wr_updatedVendorProducts : nat;
  wr_totalStockProcessed : Z;
  wr_totalOperations : nat
}.

(** [syncWholecellVendor] up to the batch write. *)
Definition syncWholecellVendorOps (vendorApi : VendorApi)
  : M (list BulkOp * WholecellReport) :=
  vendorItems <- fetchItems vendorApi ;;
  let groupedItems := groupItemsByProductAndCondition vendorItems in
  ' (validGroups, skippedProducts) <- filterValid groupedItems [] 0 ;;
  t <- wholecellGroups vendorApi validGroups (mkWTally [] 0 0 0) ;;
  ret (w_bulkOps t,
       mkWholecellReport (vendorId vendorApi) (length vendorItems)
         (length validGroups) skippedProducts (w_newVendorProducts t)
         (w_updatedVendorProducts t) (w_totalStockProcessed t)
         (length (w_bulkOps t))).

Definition syncWholecellVendor (vendorApi : VendorApi) : M WholecellReport :=
  ' (ops, report) <- syncWholecellVendorOps vendorApi ;;
  (if (length ops =? 0)%nat then ret tt else bulkWrite ops) ;;;
  ret report.

(** ** The routes *)

(** A slot of the summary: a vendor's report, or [{vendorId, database, error}]
    ([s_database] is empty in the generic route, whose error entries carry
    no such field). *)
Inductive SummaryEntry :=
| GenericDone (r : GenericReport)
| WholecellDone (r : WholecellReport)
| Failed (s_vendorId : N) (s_database : string) (error : string).

Inductive Response :=
| Json (message : string) (summary : list SummaryEntry)
| Status500 (error : string).

(** The pipelines a route starts together, each with its slot, run to
    their end in the order given; the outcomes, each with its slot, in that
    order. *)
Fixpoint settle {A} (turns : list (nat * M A)) (w : World)
  : list (nat * result A) * World :=
  match turns with
  | [] => ([], w)
  | (i, p) :: rest =>
      let '(r, w1) := p w in
      let '(outs, w2) := settle rest w1 in
      ((i, r) :: outs, w2)
  end.

(** The outcome kept for the slot [i]; every slot has one
    ([allSettled_slots]). *)
Definition settledAt {A} (outs : list (nat * result A)) (i : nat) : result A :=
  match find (fun x => (fst x =? i)%nat) outs with
  | Some x => snd x
  | None => Throw ""
  end.

(** [Promise.allSettled(ps)]: it never rejects, and keeps each outcome in
    its slot, in whatever order the pipelines have run. *)
Definition allSettled {A} (ps : list (M A)) : M (list (result A)) :=
  fun w =>
    let '(outs, w') := settle (takenOrder (runs_first w) ps) w in
    (Ok (map (settledAt outs) (seq 0 (length ps))), w').

(** [Promise.all(ps)]: every promise runs, in the order the list starts
    them in; it rejects with the first rejection. *)
Fixpoint all {A} (ps : list (M A)) : M (list A) :=
  match ps with
  | [] => ret []
  | p :: rest =>
      fun w =>
        let '(r, w1) := p w in
        let '(rs, w2) := all rest w1 in
        (match r, rs with
         | Ok a, Ok others => Ok (a :: others)
         | Throw e, _ => Throw e
         | Ok _, Throw e => Throw e
         end, w2)
  end.

Definition wholesaleApisFind : M (list VendorApi) :=
  call WholesaleApisFind ;;; fun w => (Ok (tep_admin_wholesale_apis w), w).

(** [results.map((r, i) => ...)] of the generic route. *)
Definition genericSlot (slot : result GenericReport * VendorApi) : SummaryEntry :=
  match slot with
  | (Ok value, _) => GenericDone value
  | (Throw message, api) => Failed (vendorId api) "" (message ||| "Failed")
  end.

(** [router.get("/")] of the generic module. *)
Definition genericRoute : M Response :=
  tryCatch
    (call Connect ;;;
     vendorApis <- wholesaleApisFind ;;
     results <- allSettled (map syncVendor vendorApis) ;;
     ret (Json "All vendor sync complete"
            (map genericSlot (combine results vendorApis))))
    (fun _ => ret (Status500 "Failed to sync vendors")).

(** The vendors without a [database] field are given ["wholecell"], in the
    store and in the list the route goes on with. *)
Definition defaultDatabase (api : VendorApi) : M VendorApi :=
  if Js.truthy (database api) then ret api
  else
    call (WholesaleApisUpdateOne (api_id api)) ;;;
    fun w =>
      (Ok (mkVendorApi (api_id api) (vendorId api) "wholecell"),
       setApis
         (map (fun a =>
                 if (api_id a =? api_id api)%N
                 then mkVendorApi (api_id a) (vendorId a) "wholecell" else a)
              (tep_admin_wholesale_apis w))
         w).

Definition wholecellPipeline (api : VendorApi) : M SummaryEntry :=
  if String.eqb (database api) "wholecell"
  then r <- syncWholecellVendor api ;; ret (WholecellDone r)
  else ret (Failed (vendorId api) (database api)
              "No sync function available for this database type").

Definition wholecellSlot (slot : result SummaryEntry * VendorApi) : SummaryEntry :=
  match slot with
  | (Ok value, _) => value
  | (Throw message, api) =>
      Failed (vendorId api) (database api ||| "default") (message ||| "Failed")
  end.

(** [router.get("/")] of the restricted module. *)
Definition wholecellRoute : M Response :=
  tryCatch
    (call Connect ;;;
     vendorApis <- wholesaleApisFind ;;
     updatedVendorApis <- all (map defaultDatabase vendorApis) ;;
     results <- allSettled (map wholecellPipeline updatedVendorApis) ;;
     ret (Json "Vendor sync complete"
            (map wholecellSlot (combine results updatedVendorApis))))
    (fun _ => ret (Status500 "Failed to sync vendors")).

(** [router.get("/wholecell")] of the restricted module: the vendors whose
    [database] is ["wholecell"] and no others; a vendor without the field is
    not given one here.  The store's answer to [find({database: "wholecell"})]
    is the filtered list; the call fails when [find] does. *)
Definition wholesaleApisFindWholecell : M (list VendorApi) :=
  call WholesaleApisFind ;;;
  fun w =>
    (Ok (filter (fun api => String.eqb (database api) "wholecell")
                (tep_admin_wholesale_apis w)), w).

Definition wholecellOnlySlot (slot : result WholecellReport * VendorApi)
  : SummaryEntry :=
  match slot with
  | (Ok value, _) => WholecellDone value
  | (Throw message, api) =>
      Failed (vendorId api) "wholecell" (message ||| "Failed")
  end.

Definition wholecellOnlyRoute : M Response :=
  tryCatch
    (call Connect ;;;
     vendorApis <- wholesaleApisFindWholecell ;;
     if (length vendorApis =? 0)%nat
     then ret (Json "No Wholecell vendors found" [])
     else
       results <- allSettled (map syncWholecellVendor vendorApis) ;;
       ret (Json "Wholecell vendor sync complete"
              (map wholecellOnlySlot (combine results vendorApis))))
    (fun _ => ret (Status500 "Failed to sync Wholecell vendors")).

(** ** Names as patterns *)

Definition backslash : ascii := ascii_of_nat 92.

(** The characters of the class of [escapeRegex]: the backslash and
    . * + ? ^ $ { } ( ) | [ ] *)
Definition isSpecial (c : ascii) : bool :=
  existsb (Ascii.eqb c) (backslash :: list_ascii_of_string ".*+?^${}()|[]").

(** [escapeRegex]: every character of the class gets a backslash before
    it. *)
Fixpoint escapeRegex (s : string) : string :=
  match s with
  | EmptyString => EmptyString
  | String c s' =>
      if isSpecial c then String backslash (String c (escapeRegex s'))
      else String c (escapeRegex s')
  end.

(** * What the properties are stated with *)

(** ** Options *)

(** The stock of an option counts its unit identifiers. *)
Definition stockMatchesUnits (o : SelectedOption) : Prop :=
  stock o = Z.of_nat (length (uniqueNumbers o)).

(** Every entry of a map of options sits under its own key. *)
Definition keyed (m : JsMap SelectedOption) : Prop :=
  Forall (fun kv => fst kv = keyOf (snd kv)) m.


(** The priority order as the specification words it, for an item with
    capacity [cap] and vendor label [label], and a matched product whose
    storage specification is [spec] (empty when there is none). *)
Definition variantAsStated (cap label spec : string) : string :=
  let tokens := Js.split ", " spec in
  let matched :=
    if Js.truthy cap && Js.truthy spec then
      match find (Js.includes (cap ++ "GB")) tokens with
      | Some t => Some t
      | None => find (Js.includes cap) tokens
      end
    else None in
  match matched with
  | Some t => t
  | None =>
      if Js.truthy cap then cap ++ "GB 4GB RAM"
      else if Js.truthy label then label
      else "Standard"
  end.

(** The catalog entry the restricted aggregation reads the storage
    specification of, for an item whose candidate name is [n]: of the
    entries it fetched, the last one that bears the name, letter case
    apart. *)
Definition specSource (fetched : list AdminProduct) (n : string)
  : option AdminProduct :=
  find (fun a => String.eqb (Js.toLowerCase n) (Js.toLowerCase (name a)))
       (rev fetched).

(** An item of the scenario: "Acme" "X1", "Black", capacity "128",
    "Available", paid 10000 cents. *)
Definition scenarioItem (i : Item) : Prop :=
  manufacturer (productOf i) = "Acme" /\ model (productOf i) = "X1" /\
  p_color (productOf i) = "Black" /\ capacity (productOf i) = "128" /\
  status i = "Available" /\ total_price_paid i = 10000%Z.

(** The resolver as the specification words it: one algorithm for both
    adapters, an exact match first, then a substring match when creation is
    not allowed, a new entry when it is. *)
Definition resolveAsStated (allowCreate : bool) (productData : Product)
  : M (option AdminProduct) :=
  let n := candidateName productData in
  exact <- productsFindOne (ExactI n) ;;
  match exact with
  | Some p => ret (Some p)
  | None =>
      if allowCreate then
        let newProduct :=
          mkAdminProduct 0 n (manufacturer productData) (model productData)
                         (manufacturer productData) [] "" in
        insertedId <- productsInsertOne newProduct ;;
        ret (Some (mkAdminProduct insertedId n (manufacturer productData)
                     (model productData) (manufacturer productData) [] ""))
      else if (3 <? String.length n)%nat then productsFindOne (ContainsI n)
      else ret None
  end.

(** ** The restricted adapter, group by group *)

(** The operation the restricted adapter pushes for a group with stock. *)
Definition wholecellPush (vendorApi : VendorApi) (existingProduct : AdminProduct)
    (opts : list SelectedOption) (existing : option VendorProduct) : BulkOp :=
  match existing with
  | Some e =>
      updateOne
        (ByTriple (vendorId vendorApi) (ap_id existingProduct) fixedConditionId)
        (SetData (mkData (vendorId vendorApi) (ap_id existingProduct)
                    fixedConditionId
                    (mergeSelectedOptions (selectedOptions e) opts) "wholecell"))
  | None =>
      insertOne (mkData (vendorId vendorApi) (ap_id existingProduct)
                   fixedConditionId opts "wholecell")
  end.

(** [item.status === "Available"] *)
Definition available (item : Item) : bool := String.eqb (status item) "Available".

(** The catalog entries the aggregation of [items] fetches. *)
Definition fetchedFor (w : World) (items : list Item) : list AdminProduct :=
  filter (fun a => existsb (String.eqb (name a)) (productNames items))
         (tep_admin_products w).

(** The record step two finds for a product of the vendor. *)
Definition persistedFor (w : World) (vendorApi : VendorApi) (p : AdminProduct)
  : option VendorProduct :=
  find (matchesFilter (ByTriple (vendorId vendorApi) (ap_id p) fixedConditionId))
       (tep_vendor_products w).

(** A valid group pushes an operation when its two calls succeed and one of
    its items is [Available]. *)
Definition pushes (w : World) (vendorApi : VendorApi) (valid : Group * AdminProduct)
  : bool :=
  negb (rejects w (ProductsFindIn (productNames (g_items (fst valid))))) &&
  existsb available (g_items (fst valid)) &&
  negb (rejects w (VendorProductsFindOne (vendorId vendorApi) (ap_id (snd valid))
                     fixedConditionId)).

(** The tally of step two after such an operation. *)
Definition tallyPush (t : WholecellTally) (opts : list SelectedOption)
    (existing : option VendorProduct) (op : BulkOp) : WholecellTally :=
  mkWTally (w_bulkOps t ++ [op])%list
    (match existing with Some _ => w_newVendorProducts t
                    | None => S (w_newVendorProducts t) end)
    (match existing with Some _ => S (w_updatedVendorProducts t)
                    | None => w_updatedVendorProducts t end)
    (w_totalStockProcessed t + totalStock opts).

(** What a valid group pushes, for some value of the counter. *)
Definition pushedBy (w : World) (vendorApi : VendorApi)
    (kv : string * (Group * AdminProduct)) (op : BulkOp) : Prop :=
  exists n,
    op = wholecellPush vendorApi (snd (snd kv))
           (fst (aggregateWholecell (g_items (fst (snd kv)))
                   (fetchedFor w (g_items (fst (snd kv)))) n))
           (persistedFor w vendorApi (snd (snd kv))).

(** An insertion, as opposed to an update. *)
Definition isInsert (op : BulkOp) : bool :=
  match op with insertOne _ => true | updateOne _ _ => false end.

(** What the catalog answers for the product of a group. *)
Definition resolution (w : World) (g : Group) : result (option AdminProduct) :=
  fst (findExistingProduct (g_product g) w).

(** A group the catalog does not know. *)
Definition unmatched (w : World) (kg : string * Group) : bool :=
  match resolution w (snd kg) with
  | Ok None => true
  | _ => false
  end.

(** The groups the catalog knows, each with its product. *)
Definition matchedGroups (w : World) (groups : JsMap Group)
  : JsMap (Group * AdminProduct) :=
  flat_map (fun kg => match resolution w (snd kg) with
                      | Ok (Some p) => [(fst kg, (snd kg, p))]
                      | _ => []
                      end) groups.

(** Step one as a function of the catalog's answers. *)
Fixpoint validOf (w : World) (groups : JsMap Group)
    (validGroups : JsMap (Group * AdminProduct)) (skippedProducts : nat)
  : result (JsMap (Group * AdminProduct) * nat) :=
  match groups with
  | [] => Ok (validGroups, skippedProducts)
  | (groupKey, groupData) :: rest =>
      match resolution w groupData with
      | Ok (Some p) =>
          validOf w rest (set groupKey (groupData, p) validGroups) skippedProducts
      | Ok None => validOf w rest validGroups (S skippedProducts)
      | Throw e => Throw e
      end
  end.

(** ** Routes and batches *)

(** The operations of a batch that the store applies, in the order it
    applies them in: all of them when it accepts the batch, those it had
    reached when it refuses it. *)
Definition appliedBy (w : World) (ops : list BulkOp) : list BulkOp :=
  map snd
    (if rejects w VendorProductsBulkWrite
     then filter (fun x => batch_reached w (fst x))
                 (takenOrder (batch_first w) ops)
     else takenOrder (batch_first w) ops).

(** [api.database] after the defaulting step of the restricted route. *)
Definition withDefaultDatabase (api : VendorApi) : VendorApi :=
  if Js.truthy (database api) then api
  else mkVendorApi (api_id api) (vendorId api) "wholecell".

(** What makes a record the record it is. *)
Definition identityOf (r : VendorProduct) : N * N * N * N :=
  (vp_id r, vp_vendorId r, vp_product r, vp_condition r).


(** ** What a computation leaves as it was *)

(** [m] takes a world to one that [R] relates to it, whether it returns or
    throws. *)
Definition keeps {A} (R : World -> World -> Prop) (m : M A) : Prop :=
  forall w, R w (snd (m w)).

(** The calls that fail, the feeds, the store's reading of patterns and the
    binding of [condition]: nothing in the code changes them. *)
Definition environment_kept (w w' : World) : Prop :=
  rejects w' = rejects w /\ vendor_feed w' = vendor_feed w /\
  regex_i w' = regex_i w /\ global_condition w' = global_condition w.

(** Everything but the counter of identifiers and the error log. *)
Definition stores_kept (w w' : World) : Prop :=
  tep_admin_products w' = tep_admin_products w /\
  tep_vendor_products w' = tep_vendor_products w /\
  tep_admin_wholesale_apis w' = tep_admin_wholesale_apis w /\
  environment_kept w w'.

(** The same, the catalog left free. *)
Definition records_kept (w w' : World) : Prop :=
  tep_vendor_products w' = tep_vendor_products w /\
  tep_admin_wholesale_apis w' = tep_admin_wholesale_apis w /\
  environment_kept w w'.

(** Everything but the vendor records, the counter and the log. *)
Definition catalog_kept (w w' : World) : Prop :=
  tep_admin_products w' = tep_admin_products w /\
  tep_admin_wholesale_apis w' = tep_admin_wholesale_apis w /\
  environment_kept w w'.


(** ** Feeds, group by group and option by option *)

(** The items of a feed that carry the group key [k], in the feed's order. *)
Definition groupOf (k : string) (items : list Item) : list Item :=
  filter (fun item => String.eqb (groupKeyOf item) k) items.

(** [item.status === "Sold"] *)
Definition isSold (item : Item) : bool := String.eqb (status item) "Sold".

(** The option key the generic adapter files an item under. *)
Definition genericKeyOf (item : Item) : string :=
  optionKey (p_color (productOf item) ||| "Unknown")
            (genericVariant (productOf item)).

(** The option key the restricted adapter files an item under, given the
    catalog entries it fetched. *)
Definition wholecellKeyOf (adminProductMap : JsMap AdminProduct) (item : Item)
  : string :=
  optionKey (p_color (productOf item) ||| "Unknown")
            (wholecellVariant (capacity (productOf item) ||| "")
               (get (Js.toLowerCase (candidateName (productOf item)))
                    adminProductMap)).

(** The items of [items] filed under the option key [k] by an adapter that
    takes the items [counted] and files them by [keyOfItem]. *)
Definition filedUnder (counted : Item -> bool) (keyOfItem : Item -> string)
    (k : string) (items : list Item) : list Item :=
  filter (fun item => counted item && String.eqb (keyOfItem item) k) items.

(** The sum of a quantity over the entries of a map. *)
Definition total {V} (f : V -> Z) (m : JsMap V) : Z :=
  fold_right (fun kv s => (f (snd kv) + s)%Z) 0%Z m.

(** What the grouping has built once it has taken the items [pre]. *)
Definition grouped_so_far (pre : list Item) (grouped : JsMap Group) : Prop :=
  NoDup (keys grouped) /\
  (forall k,
      match get k grouped with
      | Some g =>
          g_items g = groupOf k pre /\
          exists first rest,
            g_items g = first :: rest /\
            g_product g = productOf first /\
            g_variation g = variationOf first /\
            g_condition g = grade (variationOf first) ||| "Unknown"
      | None => groupOf k pre = []
      end) /\
  total (fun g => Z.of_nat (length (g_items g))) grouped = Z.of_nat (length pre).

(** The identifiers [n], [n + 1], ... given to [len] options. *)
Definition freshIds (n : N) (len : nat) : list N :=
  map (fun j => (n + N.of_nat j)%N) (seq 0 len).

(** The colour an item is filed under by either adapter. *)
Definition colorOfItem (item : Item) : string :=
  p_color (productOf item) ||| "Unknown".

(** The option key of an item, given the variant the adapter reads off it. *)
Definition keyWith (variantOfItem : Item -> string) (item : Item) : string :=
  optionKey (colorOfItem item) (variantOfItem item).

(** The shape the turns of the two aggregations share: an item that
    [creates] opens the option of its key when there is none, with the price
    and discount read off that item, and an item that is [counted] adds its
    unit to the option. *)
Definition fileItem (creates counted : Item -> bool)
    (variantOfItem : Item -> string) (priceOf discountOf : Item -> Z)
    (acc : JsMap SelectedOption * N) (item : Item) : JsMap SelectedOption * N :=
  if creates item then
    let k := keyWith variantOfItem item in
    let o0 :=
      match get k (fst acc) with
      | Some o => o
      | None =>
          mkOption (colorOfItem item) (variantOfItem item) 0 (priceOf item)
                   (discountOf item) [] (snd acc)
      end in
    (set k (if counted item then countUnit (unitIdentifier item) o0 else o0)
         (fst acc),
     if has k (fst acc) then snd acc else N.succ (snd acc))
  else acc.

(** What such an aggregation, started with the counter at [next], has built
    once it has taken the items [pre]. *)
Definition filed_so_far (creates counted : Item -> bool)
    (variantOfItem : Item -> string) (priceOf discountOf : Item -> Z)
    (next : N) (pre : list Item) (acc : JsMap SelectedOption * N) : Prop :=
  NoDup (keys (fst acc)) /\
  (forall k,
      match get k (fst acc) with
      | Some o =>
          uniqueNumbers o =
            map unitIdentifier (filedUnder counted (keyWith variantOfItem) k pre) /\
          stock o =
            Z.of_nat (length (filedUnder counted (keyWith variantOfItem) k pre)) /\
          exists first rest,
            filedUnder creates (keyWith variantOfItem) k pre = first :: rest /\
            color o = colorOfItem first /\
            variant o = variantOfItem first /\
            price o = priceOf first /\
            discount o = discountOf first
      | None => filedUnder creates (keyWith variantOfItem) k pre = []
      end) /\
  total stock (fst acc) = Z.of_nat (length (filter counted pre)) /\
  map _id (values (fst acc)) = freshIds next (length (fst acc)) /\
  snd acc = (next + N.of_nat (length (fst acc)))%N.

(** ** Patterns that are literals *)

(** The text a pattern stands for when it is a literal: a character of the
    class counts only behind a backslash, which is passed over; a pattern
    with such a character standing free, or with a backslash before anything
    else, is no literal. *)
Fixpoint literalOf (pattern : string) : option string :=
  match pattern with
  | EmptyString => Some EmptyString
  | String c rest =>
      if Ascii.eqb c backslash then
        match rest with
        | String d rest' =>
            if isSpecial d
            then option_map (String d) (literalOf rest')
            else None
        | EmptyString => None
        end
      else if isSpecial c then None
      else option_map (String c) (literalOf rest)
  end.

(** ** Batches *)

(** The document an operation writes, if it writes one whole. *)
Definition documentOf (op : BulkOp) : option VendorProductData :=
  match op with
  | insertOne d => Some d
  | updateOne _ (SetData d) => Some d
  | updateOne _ (SetSelectedOptions _) => None
  end.








(** The catalog has grown by entries the generic adapter created: no
    images, no storage specification. *)
Definition catalog_grown (w w' : World) : Prop :=
  exists created,
    tep_admin_products w' = (tep_admin_products w ++ created)%list /\
    Forall (fun p => imagesByColor p = [] /\ storage p = "") created.

(** A valid group fails in step two when the catalog refuses the lookup of
    its aggregation or, one of its items being [Available], the store
    refuses the lookup of its record. *)
Definition stepTwoFails (w : World) (vendorApi : VendorApi)
    (valid : Group * AdminProduct) : bool :=
  rejects w (ProductsFindIn (productNames (g_items (fst valid)))) ||
  (existsb available (g_items (fst valid)) &&
   rejects w (VendorProductsFindOne (vendorId vendorApi) (ap_id (snd valid))
                fixedConditionId)).

(** A document of the generic adapter as it should be: the vendor's, for an
    entry of the catalog, under the condition [c], without a database, with
    stock, and with no two options of one key; an update finds its record by
    the same triple. *)
Definition genericDocument (w : World) (vendorApi : VendorApi) (c : N)
    (op : BulkOp) : Prop :=
  exists d p,
    documentOf op = Some d /\
    In p (tep_admin_products w) /\
    d_vendorId d = vendorId vendorApi /\
    d_product d = ap_id p /\
    d_condition d = c /\
    d_database d = "" /\
    noStock (d_selectedOptions d) = false /\
    NoDup (map keyOf (d_selectedOptions d)) /\
    (forall f u,
        op = updateOne f u -> f = ByTriple (vendorId vendorApi) (ap_id p) c).

(** The catalog is as it was. *)
Definition catalog_same (w w' : World) : Prop :=
  tep_admin_products w' = tep_admin_products w.

(** The vendor configurations once the vendors with the identifiers [ids]
    have been given the database "wholecell". *)
Definition defaulted (ids : list N) (apis : list VendorApi) : list VendorApi :=
  map (fun a =>
         if existsb (N.eqb (api_id a)) ids
         then mkVendorApi (api_id a) (vendorId a) "wholecell" else a)
      apis.

(** The vendors without a [database]. *)
Definition lacking (apis : list VendorApi) : list VendorApi :=
  filter (fun a => negb (Js.truthy (database a))) apis.

(** The defaulting step of the restricted route fails on a vendor that has
    no [database] and whose update the store refuses. *)
Definition defaultingFails (w : World) (api : VendorApi) : bool :=
  negb (Js.truthy (database api)) &&
  rejects w (WholesaleApisUpdateOne (api_id api)).

(** ** Sample data: the scenarios of the specification *)

Module Sample.

(** A unit of the vendor "Acme", model "X1", colour "Black". *)
Definition unit (cap label gr st ident : string) : Item :=
  mkItem (Some (mkVariation (Some (mkProduct "Acme" "X1" "Black" cap label)) gr ""))
         st 10000 ident "" "1".

Definition vendor : VendorApi := mkVendorApi 1 7 "wholecell".

Definition acmeX1 (spec : string) : AdminProduct :=
  mkAdminProduct 1 "Acme X1" "Acme" "X1" "Acme" [] spec.

(** A world in which no call fails, the identifier [condition] is bound as
    [cond] says, a raw pattern is searched for as a plain substring, which
    is what a regular expression without special characters does, the store
    takes the operations of a batch in the order of the batch, and a route
    runs its pipelines in the order of the vendors. *)
Definition world (catalog : list AdminProduct) (records : list VendorProduct)
    (feed : list Item) (cond : option N) : World :=
  mkWorld catalog records [vendor] 100 (fun _ => Ok feed) icontains
          (fun _ => false) cond (fun _ _ => true) (fun _ => false)
          (fun _ _ => true) [].

(** The same world with the calls [bad] failing. *)
Definition failing (bad : StoreCall -> bool) (w : World) : World :=
  mkWorld (tep_admin_products w) (tep_vendor_products w)
          (tep_admin_wholesale_apis w) (next_oid w) (vendor_feed w) (regex_i w)
          bad (global_condition w) (batch_first w) (batch_reached w)
          (runs_first w) (console_error w).

Definition twoUnits : list Item :=
  [unit "128" "" "A" "Available" "esn-1"; unit "128" "" "A" "Available" "esn-2"].

End Sample.

Module Stocked.

(** An option persisted with three units, and the same option newly
    aggregated with two. *)
Definition persisted : SelectedOption :=
  mkOption "Black" "128GB 4GB RAM" 3 120 120 ["a"; "b"; "c"] 40.

Definition aggregated : SelectedOption :=
  mkOption "Black" "128GB 4GB RAM" 2 100 100 ["esn-1"; "esn-2"] 100.

(** A unit of a product the catalog does not know. *)
Definition stranger : Item :=
  mkItem (Some (mkVariation (Some (mkProduct "Nova" "Z9" "Red" "64" "")) "A" ""))
         "Available" 5000 "esn-7" "" "7".

End Stocked.

Module Faults.

(** The catalog refuses the lookups of one name: a lost connection, or, in
    the generic adapter, a name that is no regular expression, as
    "Acme (X1" with its open parenthesis. *)
Definition lookupFails (n : string) (c : StoreCall) : bool :=
  match c with
  | ProductsFindOne (ExactI m) => String.eqb m n
  | ProductsFindOne (ContainsI m) => String.eqb m n
  | ProductsFindOne (RegexI m) => String.eqb m n
  | _ => false
  end.

Definition oddUnit : Item :=
  mkItem (Some (mkVariation (Some (mkProduct "Acme" "(X1" "Black" "128" "")) "A" ""))
         "Available" 10000 "esn-9" "" "9".

End Faults.

Module Tombstone.

(** A record of vendor 7 for the catalog entry 2, "Acme X2", three units in
    stock, which the feed [Sample.twoUnits] (two units of "Acme X1") does not
    mention. *)
Definition absent : VendorProduct :=
  mkVendorProduct 50 7 2 fixedConditionId
    [mkOption "Black" "128GB 4GB RAM" 3 100 100 ["a"; "b"; "c"] 40] "wholecell".

Definition catalog : list AdminProduct :=
  [Sample.acmeX1 ""; mkAdminProduct 2 "Acme X2" "Acme" "X2" "Acme" [] ""].

Definition before : World :=
  Sample.world catalog [absent] Sample.twoUnits None.

End Tombstone.

Module TwoRuns.

(** Three units of one product and one option, two of grade "A" and one of
    grade "B": two groups, which the fixed condition of the restricted
    adapter sends to one (vendor, product, condition) triple. *)
Definition feed : list Item :=
  [Sample.unit "128" "" "A" "Available" "esn-1";
   Sample.unit "128" "" "A" "Available" "esn-2";
   Sample.unit "128" "" "B" "Available" "esn-3"].

Definition start : World := Sample.world [Sample.acmeX1 ""] [] feed None.

Definition afterFirst : World := snd (syncWholecellVendor Sample.vendor start).




End TwoRuns.

Module Cases.

(** A vendor whose feed cannot be fetched. *)
Definition noFeed : World :=
  mkWorld [Sample.acmeX1 ""] [] [Sample.vendor] 100 (fun _ => Throw "timeout")
          icontains (fun _ => false) None (fun _ _ => true) (fun _ => false) (fun _ _ => true) [].

(** A vendor configuration without a [database]. *)
Definition noDatabase : World :=
  mkWorld [Sample.acmeX1 ""] [] [mkVendorApi 1 7 ""] 100
          (fun _ => Ok Sample.twoUnits) icontains (fun _ => false) None
          (fun _ _ => true) (fun _ => false) (fun _ _ => true) [].

(** A store that refuses the batches, having applied every operation it
    was handed. *)
Definition halfWritten : World :=
  mkWorld [Sample.acmeX1 ""] [] [Sample.vendor] 100
          (fun _ => Ok Sample.twoUnits) icontains
          (fun c => match c with VendorProductsBulkWrite => true | _ => false end)
          None (fun _ _ => true) (fun _ => true) (fun _ _ => true) [].

(** A record of another vendor, 8, for the product of the feed. *)
Definition neighbour : VendorProduct :=
  mkVendorProduct 50 8 1 fixedConditionId [Stocked.persisted] "wholecell".

(** A group whose one unit is sold. *)
Definition soldOut : Group :=
  mkGroup (mkProduct "Acme" "X1" "Black" "128" "")
          (mkVariation (Some (mkProduct "Acme" "X1" "Black" "128" "")) "A" "")
          "A" [Sample.unit "128" "" "A" "Sold" "esn-1"].

(** The option the two units of [Sample.twoUnits] make in the generic
    adapter, and in the restricted one. *)
Definition genericOption : SelectedOption :=
  mkOption "Black" "128GB" 2 10000 0 ["esn-1"; "esn-2"] 100.

Definition wholecellOption : SelectedOption :=
  mkOption "Black" "128GB 4GB RAM" 2 100 100 ["esn-1"; "esn-2"] 100.

(** The group the two units of [Sample.twoUnits] make. *)
Definition twoUnitGroup : Group :=
  mkGroup (mkProduct "Acme" "X1" "Black" "128" "")
          (mkVariation (Some (mkProduct "Acme" "X1" "Black" "128" "")) "A" "")
          "A" Sample.twoUnits.

(** A record of vendor 7 for "Acme X1" as the restricted adapter keeps it,
    three units in stock, and one as the generic adapter would under the
    condition 5, nine units in stock. *)
Definition stocked : VendorProduct :=
  mkVendorProduct 50 7 1 fixedConditionId [Stocked.persisted] "wholecell".

Definition stockedGeneric : VendorProduct :=
  mkVendorProduct 50 7 1 5 [mkOption "Black" "128GB" 9 10000 0 ["a"] 40] "".


(** A unit of "Acme" "X1" that the vendor spells "ACME" "x1". *)
Definition shouted : Item :=
  mkItem (Some (mkVariation (Some (mkProduct "ACME" "x1" "Black" "128" "")) "A" ""))
         "Available" 10000 "esn-5" "" "5".








End Cases.

(** * Properties *)

(** ** Insertion-ordered maps *)

Section JsMapFacts.
Variable V : Type.
Implicit Types (m : JsMap V) (k : string) (v : V).

Lemma get_set_eq k v m : get k (set k v m) = Some v.
Proof.
  induction m as [|[k' v'] m IH]; simpl.
  - now rewrite String.eqb_refl.
  - destruct (String.eqb k k') eqn:E; simpl; rewrite E; auto.
Qed.

Lemma get_set_neq k k' v m : k <> k' -> get k' (set k v m) = get k' m.
Proof.
  intros Hne. induction m as [|[k0 v0] m IH]; simpl.
  - destruct (String.eqb k' k) eqn:E; auto.
    apply String.eqb_eq in E. congruence.
  - destruct (String.eqb k k0) eqn:E; simpl.
    + apply String.eqb_eq in E. subst k0.
      destruct (String.eqb k' k) eqn:E'; auto.
      apply String.eqb_eq in E'. congruence.
    + now rewrite IH.
Qed.

Lemma get_in m : forall k v, get k m = Some v -> In (k, v) m.
Proof.
  induction m as [|[k' v'] m IH]; simpl; intros k v H; [discriminate|].
  destruct (String.eqb k k') eqn:E.
  - apply String.eqb_eq in E. inversion H. subst. now left.
  - right. now apply IH.
Qed.

Lemma get_none_keys k m : get k m = None <-> ~ In k (keys m).
Proof.
  induction m as [|[k' v'] m IH]; simpl.
  - tauto.
  - destruct (String.eqb k k') eqn:E.
    + apply String.eqb_eq in E. subst. split; [discriminate|tauto].
    + apply String.eqb_neq in E. rewrite IH. split; intros H; [intros [?|?]|]; try tauto; congruence.
Qed.

Lemma has_true_keys k m : has k m = true <-> In k (keys m).
Proof.
  unfold has. destruct (get k m) eqn:E.
  - split; auto. intros _. apply get_in in E.
    change k with (fst (k, v)). now apply in_map.
  - apply get_none_keys in E. split; [discriminate|tauto].
Qed.

Lemma keys_set k v m :
  keys (set k v m) = if has k m then keys m else (keys m ++ [k])%list.
Proof.
  unfold has. induction m as [|[k' v'] m IH]; simpl; auto.
  destruct (String.eqb k k') eqn:E; simpl; auto.
  rewrite IH. now destruct (get k m).
Qed.

Lemma NoDup_keys_set k v m : NoDup (keys m) -> NoDup (keys (set k v m)).
Proof.
  intros H. rewrite keys_set. destruct (has k m) eqn:E; auto.
  apply NoDup_app; auto.
  - repeat constructor. simpl. tauto.
  - intros x Hx [<-|[]].
    apply has_true_keys in Hx. congruence.
Qed.

Lemma Forall_set (P : string * V -> Prop) k v m :
  P (k, v) -> Forall P m -> Forall P (set k v m).
Proof.
  intros Hv. induction 1 as [|[k' v'] m Hx Hm IH]; simpl.
  - now repeat constructor.
  - destruct (String.eqb k k') eqn:E.
    + apply String.eqb_eq in E. subst. now constructor.
    + now constructor.
Qed.

Lemma in_set k v m kv : In kv (set k v m) -> kv = (k, v) \/ In kv m.
Proof.
  induction m as [|[k' v'] m IH]; simpl.
  - intros [<-|[]]. now left.
  - destruct (String.eqb k k') eqn:E; simpl.
    + apply String.eqb_eq in E. subst. intros [<-|H]; auto.
    + intros [<-|H]; auto. destruct (IH H); auto.
Qed.

Lemma length_set k v m :
  length (set k v m) = if has k m then length m else S (length m).
Proof.
  unfold has. induction m as [|[k' v'] m IH]; simpl; auto.
  destruct (String.eqb k k') eqn:E; simpl; auto.
  rewrite IH. now destruct (get k m).
Qed.
Lemma set_set k v v' m : set k v' (set k v m) = set k v' m.
Proof.
  induction m as [|[k0 v0] m IH]; simpl.
  - now rewrite String.eqb_refl.
  - destruct (String.eqb k k0) eqn:E; simpl; rewrite E; auto.
    now rewrite IH.
Qed.

Lemma get_some_length k v m : get k m = Some v -> (1 <= length m)%nat.
Proof. destruct m; simpl; [discriminate|lia]. Qed.
End JsMapFacts.

(** ** Maps of options: every entry sits under its own key *)

Lemma keyed_set o m : keyed m -> keyed (set (keyOf o) o m).
Proof. intros H. now apply Forall_set. Qed.

Lemma keyed_update k f m :
  (forall o, keyOf (f o) = keyOf o) -> keyed m -> keyed (update k f m).
Proof.
  intros Hf H. unfold update. destruct (get k m) as [o|] eqn:E; auto.
  apply Forall_set; auto. simpl. rewrite Hf.
  apply get_in in E. unfold keyed in H. rewrite Forall_forall in H.
  now apply (H (k, o)).
Qed.

Lemma Forall_values_set (P : SelectedOption -> Prop) k o m :
  P o -> Forall P (values m) -> Forall P (values (set k o m)).
Proof.
  intros Ho H. unfold values in *. rewrite Forall_map in *.
  now apply Forall_set.
Qed.

Lemma Forall_values_update (P : SelectedOption -> Prop) k f m :
  (forall o, P o -> P (f o)) -> Forall P (values m) ->
  Forall P (values (update k f m)).
Proof.
  intros Hf H. unfold update. destruct (get k m) as [o|] eqn:E; auto.
  apply Forall_values_set; auto. apply Hf.
  apply get_in in E. unfold values in H. rewrite Forall_map, Forall_forall in H.
  now apply (H (k, o)).
Qed.

(** A fold that keeps an invariant of the accumulator. *)
Lemma fold_left_invariant {A B} (P : A -> Prop) (f : A -> B -> A) (l : list B) :
  (forall a b, P a -> P (f a b)) -> forall a, P a -> P (fold_left f l a).
Proof. intros Hf. induction l; simpl; auto. Qed.

(** ** Stock counts the unit identifiers *)

Lemma countUnit_matches u o : stockMatchesUnits o -> stockMatchesUnits (countUnit u o).
Proof.
  unfold stockMatchesUnits. simpl. intros ->. rewrite length_app. simpl. lia.
Qed.

Lemma mergeInto_matches e o :
  stockMatchesUnits e -> stockMatchesUnits o -> stockMatchesUnits (mergeInto e o).
Proof.
  unfold stockMatchesUnits. simpl. intros -> ->. rewrite length_app. lia.
Qed.

Lemma addGeneric_matches acc item :
  Forall stockMatchesUnits (values (fst acc)) ->
  Forall stockMatchesUnits (values (fst (addGeneric acc item))).
Proof.
  destruct acc as [m next]. unfold addGeneric. simpl. intros H.
  set (k := optionKey _ _).
  destruct (has k m); destruct (String.eqb (status item) "Sold"); simpl; auto;
    repeat first [ apply Forall_values_update; [apply countUnit_matches|]
                 | apply Forall_values_set; [reflexivity|] ]; auto.
Qed.

Lemma addWholecell_matches apm acc item :
  Forall stockMatchesUnits (values (fst acc)) ->
  Forall stockMatchesUnits (values (fst (addWholecell apm acc item))).
Proof.
  destruct acc as [m next]. unfold addWholecell. simpl. intros H.
  destruct (negb (String.eqb (status item) "Available")); simpl; auto.
  set (k := optionKey _ _).
  destruct (has k m); simpl;
    repeat first [ apply Forall_values_update; [apply countUnit_matches|]
                 | apply Forall_values_set; [reflexivity|] ]; auto.
Qed.

Lemma mergeStep_matches m o :
  stockMatchesUnits o ->
  Forall stockMatchesUnits (values m) ->
  Forall stockMatchesUnits (values (mergeStep m o)).
Proof.
  intros Ho H. unfold mergeStep.
  destruct (get (keyOf o) m) as [e|] eqn:E; apply Forall_values_set; auto.
  apply mergeInto_matches; auto.
  apply get_in in E. unfold values in H. rewrite Forall_map, Forall_forall in H.
  now apply (H (keyOf o, e)).
Qed.

Lemma mergeSelectedOptions_matches existing new :
  Forall stockMatchesUnits existing -> Forall stockMatchesUnits new ->
  Forall stockMatchesUnits (mergeSelectedOptions existing new).
Proof.
  intros He Hn. unfold mergeSelectedOptions.
  assert (H0 : Forall stockMatchesUnits
                 (values (fold_left (fun m opt => set (keyOf opt) opt m) existing []))).
  { clear Hn. assert (G : forall m, Forall stockMatchesUnits (values m) ->
      Forall stockMatchesUnits
        (values (fold_left (fun m opt => set (keyOf opt) opt m) existing m))).
    { induction He as [|o l Ho Hl IH]; simpl; intros m Hm; [exact Hm|].
      apply IH. now apply Forall_values_set. }
    apply G. constructor. }
  revert H0. generalize (fold_left (fun m opt => set (keyOf opt) opt m) existing []).
  induction Hn as [|o l Ho Hl IH]; simpl; intros m Hm; auto.
  apply IH. now apply mergeStep_matches.
Qed.

(** C10.  Every option that comes out of either adapter's aggregation, out of
    a merge of options that have the property, or out of a zero-out, has a
    stock equal to the number of its unit identifiers. *)
Theorem stock_counts_unit_identifiers :
  (forall items next,
      Forall stockMatchesUnits (fst (createSelectedOptions items next))) /\
  (forall items adminProducts next,
      Forall stockMatchesUnits (fst (aggregateWholecell items adminProducts next))) /\
  (forall existing new,
      Forall stockMatchesUnits existing -> Forall stockMatchesUnits new ->
      Forall stockMatchesUnits (mergeSelectedOptions existing new)) /\
  (forall opt, stockMatchesUnits (zeroOut opt)).
Proof.
  repeat split.
  - intros items next. unfold createSelectedOptions.
    assert (H : Forall stockMatchesUnits
                  (values (fst (fold_left addGeneric items ([], next))))).
    { apply (fold_left_invariant
               (fun acc => Forall stockMatchesUnits (values (fst acc)))).
      - intros a b. apply addGeneric_matches.
      - constructor. }
    destruct (fold_left addGeneric items ([], next)). exact H.
  - intros items aps next. unfold aggregateWholecell.
    assert (H : Forall stockMatchesUnits
                  (values (fst (fold_left (addWholecell (adminProductMapOf aps))
                                          items ([], next))))).
    { apply (fold_left_invariant
               (fun acc => Forall stockMatchesUnits (values (fst acc)))).
      - intros a b. apply addWholecell_matches.
      - constructor. }
    destruct (fold_left (addWholecell (adminProductMapOf aps)) items ([], next)).
    exact H.
  - apply mergeSelectedOptions_matches.
Qed.

(** ** Computations, step by step *)

Lemma bind_Ok {A B} (m : M A) (k : A -> M B) w b w' :
  bind m k w = (Ok b, w') ->
  exists a w1, m w = (Ok a, w1) /\ k a w1 = (Ok b, w').
Proof.
  unfold bind. destruct (m w) as [[a|e] w1]; intros H; [eauto|discriminate].
Qed.

Lemma call_Ok c w u w' :
  call c w = (Ok u, w') -> rejects w c = false /\ w' = w.
Proof.
  unfold call. destruct (rejects w c); intros H; inversion H; auto.
Qed.

Ltac inv H := inversion H; subst; clear H.

(** Takes a successful run apart, one [bind] at a time. *)
Ltac run_ok H :=
  let a := fresh "a" in
  let w := fresh "w" in
  let H1 := fresh "Hrun" in
  apply bind_Ok in H; destruct H as (a & w & H1 & H).

(** ** The merge, key by key *)

Lemma keyOf_mergeInto e o : keyOf (mergeInto e o) = keyOf e.
Proof. reflexivity. Qed.

Lemma keyOf_countUnit u o : keyOf (countUnit u o) = keyOf o.
Proof. reflexivity. Qed.

Lemma get_fold_set_other (l : list SelectedOption) k :
  ~ In k (map keyOf l) ->
  forall m, get k (fold_left (fun m opt => set (keyOf opt) opt m) l m) = get k m.
Proof.
  induction l as [|o l IH]; simpl; intros Hk m; auto.
  rewrite IH by tauto. apply get_set_neq. intros E. apply Hk. now left.
Qed.

Lemma get_fold_set (l : list SelectedOption) e :
  NoDup (map keyOf l) -> In e l ->
  forall m, get (keyOf e) (fold_left (fun m opt => set (keyOf opt) opt m) l m) = Some e.
Proof.
  induction l as [|o l IH]; simpl; intros Hnd Hin m; [tauto|].
  inv Hnd. destruct Hin as [->|Hin].
  - rewrite get_fold_set_other by assumption. apply get_set_eq.
  - now apply IH.
Qed.

Lemma get_mergeStep_other m o k :
  keyOf o <> k -> get k (mergeStep m o) = get k m.
Proof.
  intros Hne. unfold mergeStep.
  destruct (get (keyOf o) m); now apply get_set_neq.
Qed.

Lemma get_fold_mergeStep_other (l : list SelectedOption) k :
  ~ In k (map keyOf l) ->
  forall m, get k (fold_left mergeStep l m) = get k m.
Proof.
  induction l as [|o l IH]; simpl; intros Hk m; auto.
  rewrite IH by tauto. apply get_mergeStep_other. tauto.
Qed.

Lemma get_fold_mergeStep (l : list SelectedOption) n :
  NoDup (map keyOf l) -> In n l ->
  forall m,
    get (keyOf n) (fold_left mergeStep l m) =
    Some (match get (keyOf n) m with
          | Some e => mergeInto e n
          | None => n
          end).
Proof.
  induction l as [|o l IH]; simpl; intros Hnd Hin m; [tauto|].
  inv Hnd. destruct Hin as [->|Hin].
  - rewrite get_fold_mergeStep_other by assumption.
    unfold mergeStep. destruct (get (keyOf n) m); apply get_set_eq.
  - rewrite IH by assumption.
    rewrite get_mergeStep_other; auto.
    intros E. rewrite E in *. apply H1. now apply in_map.
Qed.

Lemma get_in_values (m : JsMap SelectedOption) k o :
  get k m = Some o -> In o (values m).
Proof.
  intros H. apply get_in in H. change o with (snd (k, o)). now apply in_map.
Qed.

(** An option found on both sides comes out merged. *)
Lemma merge_both existing new e n :
  NoDup (map keyOf existing) -> NoDup (map keyOf new) ->
  In e existing -> In n new -> keyOf e = keyOf n ->
  In (mergeInto e n) (mergeSelectedOptions existing new).
Proof.
  intros He Hn Ie In_ Hk. unfold mergeSelectedOptions.
  apply get_in_values with (k := keyOf n).
  rewrite get_fold_mergeStep by assumption.
  rewrite <- Hk, get_fold_set by assumption. reflexivity.
Qed.

(** The merged list has one option per key. *)
Lemma keyed_keys (m : JsMap SelectedOption) :
  keyed m -> map keyOf (values m) = keys m.
Proof.
  unfold keyed, values, keys. induction 1 as [|[k o] m Hk Hm IH]; simpl; auto.
  simpl in Hk. now rewrite IH, Hk.
Qed.

Lemma keyed_mergeStep m o : keyed m -> keyed (mergeStep m o).
Proof.
  intros H. unfold mergeStep. destruct (get (keyOf o) m) as [e|] eqn:E.
  - apply Forall_set; auto. simpl. rewrite keyOf_mergeInto.
    apply get_in in E. unfold keyed in H. rewrite Forall_forall in H.
    exact (H (keyOf o, e) E).
  - now apply keyed_set.
Qed.

Lemma NoDup_keys_mergeStep m o : NoDup (keys m) -> NoDup (keys (mergeStep m o)).
Proof.
  intros H. unfold mergeStep. destruct (get (keyOf o) m); now apply NoDup_keys_set.
Qed.

Lemma mergeSelectedOptions_NoDup existing new :
  NoDup (map keyOf (mergeSelectedOptions existing new)).
Proof.
  unfold mergeSelectedOptions.
  set (m0 := fold_left (fun m opt => set (keyOf opt) opt m) existing []).
  assert (H0 : keyed m0 /\ NoDup (keys m0)).
  { apply (fold_left_invariant (fun m => keyed m /\ NoDup (keys m))).
    - intros m o [H1 H2]. split; [now apply keyed_set|now apply NoDup_keys_set].
    - split; constructor. }
  assert (H : keyed (fold_left mergeStep new m0) /\
              NoDup (keys (fold_left mergeStep new m0))).
  { apply (fold_left_invariant (fun m => keyed m /\ NoDup (keys m))); auto.
    intros m o [H1 H2]. split;
      [now apply keyed_mergeStep|now apply NoDup_keys_mergeStep]. }
  destruct H as [H1 H2]. now rewrite keyed_keys.
Qed.

Lemma addWholecell_keyed apm acc item :
  keyed (fst acc) /\ NoDup (keys (fst acc)) ->
  keyed (fst (addWholecell apm acc item)) /\
  NoDup (keys (fst (addWholecell apm acc item))).
Proof.
  destruct acc as [m next]. unfold addWholecell. simpl. intros [Hk Hn].
  destruct (negb (String.eqb (status item) "Available")); simpl; auto.
  set (c := p_color (productOf item) ||| "Unknown").
  set (v := wholecellVariant _ _).
  set (o := mkOption c v 0 _ _ [] next).
  change (optionKey c v) with (keyOf o).
  assert (Hu : forall m', keyed m' /\ NoDup (keys m') ->
             keyed (update (keyOf o) (countUnit (unitIdentifier item)) m') /\
             NoDup (keys (update (keyOf o) (countUnit (unitIdentifier item)) m'))).
  { intros m' [Hk' Hn']. split.
    - apply keyed_update; auto.
    - unfold update. destruct (get (keyOf o) m'); auto. now apply NoDup_keys_set. }
  destruct (has (keyOf o) m); simpl; apply Hu; auto.
  split; [now apply keyed_set|now apply NoDup_keys_set].
Qed.

Lemma aggregateWholecell_NoDup items aps n :
  NoDup (map keyOf (fst (aggregateWholecell items aps n))).
Proof.
  unfold aggregateWholecell.
  assert (H : keyed (fst (fold_left (addWholecell (adminProductMapOf aps)) items ([], n)))
              /\ NoDup (keys (fst (fold_left (addWholecell (adminProductMapOf aps))
                                             items ([], n))))).
  { apply (fold_left_invariant
             (fun acc => keyed (fst acc) /\ NoDup (keys (fst acc)))).
    - intros a b. apply addWholecell_keyed.
    - split; constructor. }
  destruct (fold_left _ items _) as [m n']. simpl in *.
  destruct H as [Hk Hn]. now rewrite keyed_keys.
Qed.

(** ** What one group pushes *)

Lemma createSelectedOptionsForWholecell_Ok items w opts w' :
  createSelectedOptionsForWholecell items w = (Ok opts, w') ->
  rejects w (ProductsFindIn (productNames items)) = false /\
  let adminProducts :=
    filter (fun a => existsb (String.eqb (name a)) (productNames items))
           (tep_admin_products w) in
  opts = fst (aggregateWholecell items adminProducts (next_oid w)) /\
  w' = setNextOid (snd (aggregateWholecell items adminProducts (next_oid w))) w.
Proof.
  unfold createSelectedOptionsForWholecell, productsFindIn. intros H.
  run_ok H. run_ok Hrun. apply call_Ok in Hrun0. destruct Hrun0 as [Hr ->].
  inv Hrun. unfold drawing in H. simpl.
  destruct (aggregateWholecell _ _ _) as [o n]. inv H. auto.
Qed.

Lemma vendorProductsFindOne_Ok v p c w r w' :
  vendorProductsFindOne v p c w = (Ok r, w') ->
  rejects w (VendorProductsFindOne v p c) = false /\
  r = find (matchesFilter (ByTriple v p c)) (tep_vendor_products w) /\ w' = w.
Proof.
  unfold vendorProductsFindOne. intros H. run_ok H.
  apply call_Ok in Hrun. destruct Hrun as [Hr ->]. inv H. auto.
Qed.

Lemma wholecellGroup_Ok vendorApi groupData existingProduct t w t' w' :
  wholecellGroup vendorApi (groupData, existingProduct) t w = (Ok t', w') ->
  exists opts,
    createSelectedOptionsForWholecell (g_items groupData) w = (Ok opts, w') /\
    ((noStock opts = true /\ t' = t) \/
     (noStock opts = false /\
      rejects w (VendorProductsFindOne (vendorId vendorApi)
                   (ap_id existingProduct) fixedConditionId) = false /\
      w_bulkOps t' =
        (w_bulkOps t ++
         [wholecellPush vendorApi existingProduct opts
            (find (matchesFilter (ByTriple (vendorId vendorApi)
                                    (ap_id existingProduct) fixedConditionId))
                  (tep_vendor_products w))])%list /\
      w_totalStockProcessed t' = (w_totalStockProcessed t + totalStock opts)%Z)).
Proof.
  unfold wholecellGroup. intros H. run_ok H. rename a into opts.
  exists opts.
  destruct (createSelectedOptionsForWholecell_Ok _ _ Hrun) as (Hr & Ho & Hw).
  destruct (noStock opts) eqn:Hs.
  - inv H. auto.
  - run_ok H. apply vendorProductsFindOne_Ok in Hrun0.
    destruct Hrun0 as (Hr' & -> & ->).
    rewrite Hw in *. simpl in *.
    destruct (find _ _); inv H; simpl; split; auto; right; auto.
Qed.

Lemma genericGroup_Ok vendorApi groupData t w t' w' :
  genericGroup vendorApi groupData t w = (Ok t', w') ->
  exists product w1 opts,
    findOrCreateProduct (g_product groupData) w = (Ok product, w1) /\
    opts = fst (createSelectedOptions (g_items groupData) (next_oid w1)) /\
    w' = setNextOid (snd (createSelectedOptions (g_items groupData) (next_oid w1))) w1 /\
    ((noStock opts = true /\ t' = t) \/
     (noStock opts = false /\
      exists c, global_condition w1 = Some c /\
        bulkOps t' =
          (bulkOps t ++
           [match find (matchesFilter (ByTriple (vendorId vendorApi) (ap_id product) c))
                       (tep_vendor_products w1) with
            | Some _ =>
                updateOne (ByTriple (vendorId vendorApi) (ap_id product) c)
                  (SetData (mkData (vendorId vendorApi) (ap_id product) c opts ""))
            | None =>
                insertOne (mkData (vendorId vendorApi) (ap_id product) c opts "")
            end])%list)).
Proof.
  unfold genericGroup. intros H. run_ok H. rename a into product, w0 into w1.
  run_ok H. rename a into opts. unfold drawing in Hrun0.
  destruct (createSelectedOptions (g_items groupData) (next_oid w1)) as [o n] eqn:Ec.
  inv Hrun0. exists product, w1, opts. rewrite Ec. simpl.
  split; [assumption|]. split; [reflexivity|].
  destruct (noStock opts) eqn:Hs.
  - inv H. auto.
  - run_ok H. unfold readCondition in Hrun0. simpl in Hrun0.
    destruct (global_condition w1) as [c|] eqn:Eg; inv Hrun0.
    run_ok H. apply vendorProductsFindOne_Ok in Hrun0.
    destruct Hrun0 as (Hr' & -> & ->). simpl in *.
    destruct (find _ _) eqn:Ef; inv H; (split; [reflexivity|]); right;
      (split; [reflexivity|]); exists a; simpl; rewrite Ef; auto.
Qed.

(** The update of the generic adapter at work, [condition] being bound: a
    record persisted with nine units is to be set to the two units of the
    feed, not to eleven. *)
Example generic_update_replaces :
  fst (genericGroups Sample.vendor
         (groupItemsByProductAndCondition Sample.twoUnits) (mkTally [] 0 0)
         (Sample.world [Sample.acmeX1 ""]
            [mkVendorProduct 50 7 1 5
               [mkOption "Black" "128GB" 9 10000 0 ["a"] 40] ""]
            Sample.twoUnits (Some 5%N)))
  = Ok (mkTally
          [updateOne (ByTriple 7 1 5)
             (SetData (mkData 7 1 5
                [mkOption "Black" "128GB" 2 10000 0 ["esn-1"; "esn-2"] 100] ""))]
          0 1).
Proof. reflexivity. Qed.

(** ** The variant descriptor *)

Lemma fold_left_invariant_in {A B} (P : A -> Prop) (f : A -> B -> A) (l : list B) :
  (forall a b, In b l -> P a -> P (f a b)) -> forall a, P a -> P (fold_left f l a).
Proof.
  induction l as [|b l IH]; simpl; intros Hf a Ha; [assumption|].
  apply IH; auto.
Qed.

(** C7, as stated, fails: the restricted adapter gives an item without
    capacity the descriptor "Unknown" whatever label the vendor reports; the
    generic adapter puts the vendor's label before the capacity; and the
    restricted adapter does not read the specification of the product the
    group was matched to, but of an entry it fetches anew by the exact name:
    a unit of "ACME" "x1" is matched to the entry "Acme X1", whose
    specification has the token "128GB 6GB RAM", and gets the synthesized
    "128GB 4GB RAM". *)
Lemma variant_priority_counterexample :
  map variant
      (fst (aggregateWholecell [Sample.unit "" "Pro" "A" "Available" "esn-1"] [] 0))
    = ["Unknown"] /\
  variantAsStated "" "Pro" "" = "Pro" /\
  map variant
      (fst (createSelectedOptions [Sample.unit "128" "Pro" "A" "Available" "esn-1"] 0))
    = ["Pro"] /\
  variantAsStated "128" "Pro" "" = "128GB 4GB RAM" /\
  (let w := Sample.world [Sample.acmeX1 "64GB 4GB RAM, 128GB 6GB RAM"] [] [] None in
   fst (findExistingProduct (productOf Cases.shouted) w) =
     Ok (Some (Sample.acmeX1 "64GB 4GB RAM, 128GB 6GB RAM")) /\
   option_map (map variant)
     (match fst (createSelectedOptionsForWholecell [Cases.shouted] w) with
      | Ok opts => Some opts
      | Throw _ => None
      end) = Some ["128GB 4GB RAM"] /\
   variantAsStated "128" "" "64GB 4GB RAM, 128GB 6GB RAM" = "128GB 6GB RAM").
Proof. repeat split. Qed.

Lemma truthy_false s : Js.truthy s = false -> s = "".
Proof.
  unfold Js.truthy. destruct (String.eqb s "") eqn:E; [|discriminate].
  intros _. now apply String.eqb_eq.
Qed.

Lemma or_else_truthy x d : Js.truthy x = true -> x ||| d = x.
Proof.
  unfold Js.truthy, Js.or_else. now destruct (String.eqb x "").
Qed.

Lemma or_else_falsy d : "" ||| d = d.
Proof. reflexivity. Qed.

(** ** The scenario of two units of one option *)

(** C4, as stated, fails: when the catalog entry named "Acme X1" has a
    storage specification none of whose tokens contains "128", the variant is
    "Unknown", which is neither "128GB 4GB RAM" nor a token of the
    specification. *)
Lemma acme_scenario_counterexample :
  fst (createSelectedOptionsForWholecell Sample.twoUnits
         (Sample.world [Sample.acmeX1 "64GB 4GB RAM, 256GB 8GB RAM"] [] [] None))
  = Ok [mkOption "Black" "Unknown" 2 100 100 ["esn-1"; "esn-2"] 100] /\
  ~ In "Unknown" (Js.split ", " "64GB 4GB RAM, 256GB 8GB RAM") /\
  "Unknown" <> "128GB 4GB RAM".
Proof.
  split; [reflexivity|]. split; [|discriminate].
  simpl. intros [H|[H|[]]]; discriminate.
Qed.

Lemma scenarioItem_name i : scenarioItem i -> candidateName (productOf i) = "Acme X1".
Proof.
  intros (Hm & Ho & _). unfold candidateName. now rewrite Hm, Ho.
Qed.

Lemma get_adminProductMapOf aps k a :
  get k (adminProductMapOf aps) = Some a ->
  In a aps /\ Js.toLowerCase (name a) = k.
Proof.
  intros H. apply get_in in H. unfold adminProductMapOf in H.
  set (P := fun kv : string * AdminProduct =>
              In (snd kv) aps /\ Js.toLowerCase (name (snd kv)) = fst kv).
  assert (HF : Forall P (fold_left (fun m a => set (Js.toLowerCase (name a)) a m) aps [])).
  { apply (fold_left_invariant_in (Forall P)); [|constructor].
    intros m b Hb Hm. apply Forall_set; auto. split; auto. }
  rewrite Forall_forall in HF. exact (HF _ H).
Qed.

Lemma addWholecell_scenario apm m n i :
  scenarioItem i ->
  addWholecell apm (m, n) i =
  let v := wholecellVariant "128" (get "acme x1" apm) in
  let k := optionKey "Black" v in
  let '(m1, n1) :=
    if has k m then (m, n)
    else (set k (mkOption "Black" v 0 100 100 [] n) m, N.succ n) in
  (update k (countUnit (unitIdentifier i)) m1, n1).
Proof.
  intros Hi. pose proof (scenarioItem_name Hi) as Hn.
  destruct Hi as (Hm & Ho & Hc & Hcap & Hs & Hp).
  unfold addWholecell. rewrite Hs, Hn, Hc, Hcap, Hp. reflexivity.
Qed.

Lemma addWholecell_scenario_first apm n i :
  scenarioItem i ->
  addWholecell apm ([], n) i =
  ([(optionKey "Black" (wholecellVariant "128" (get "acme x1" apm)),
     mkOption "Black" (wholecellVariant "128" (get "acme x1" apm)) 1 100 100
              [unitIdentifier i] n)],
   N.succ n).
Proof.
  intros Hi. rewrite (addWholecell_scenario _ _ _ Hi).
  cbv zeta. unfold has, update. simpl get. cbv iota beta.
  simpl get. rewrite String.eqb_refl. simpl set.
  rewrite String.eqb_refl. reflexivity.
Qed.

Lemma addWholecell_scenario_next apm n o i :
  scenarioItem i ->
  addWholecell apm
    ([(optionKey "Black" (wholecellVariant "128" (get "acme x1" apm)), o)], n) i =
  ([(optionKey "Black" (wholecellVariant "128" (get "acme x1" apm)),
     countUnit (unitIdentifier i) o)],
   n).
Proof.
  intros Hi. rewrite (addWholecell_scenario _ _ _ Hi).
  cbv zeta. unfold has, update. simpl get. rewrite String.eqb_refl.
  cbv iota beta. simpl get. rewrite String.eqb_refl. simpl set.
  rewrite String.eqb_refl. reflexivity.
Qed.

Lemma find_app {A} (f : A -> bool) (l1 l2 : list A) :
  find f (l1 ++ l2) =
  match find f l1 with Some x => Some x | None => find f l2 end.
Proof.
  induction l1 as [|a l1 IH]; simpl; auto. now destruct (f a).
Qed.

(** The map of the fetched entries answers, for a name, the last entry
    that bears it, letter case apart. *)
Lemma get_fold_adminProductMap (l : list AdminProduct) k :
  forall m,
    get k (fold_left (fun m a => set (Js.toLowerCase (name a)) a m) l m) =
    match find (fun a => String.eqb k (Js.toLowerCase (name a))) (rev l) with
    | Some a => Some a
    | None => get k m
    end.
Proof.
  induction l as [|a l IH]; intros m; [reflexivity|].
  cbn [fold_left rev]. rewrite IH, find_app.
  destruct (find _ (rev l)); [reflexivity|]. cbn [find].
  destruct (String.eqb k (Js.toLowerCase (name a))) eqn:E.
  - apply String.eqb_eq in E. subst k. apply get_set_eq.
  - apply get_set_neq. intros E'. rewrite E', String.eqb_refl in E. discriminate.
Qed.

Lemma get_adminProductMapOf_last fetched n :
  get (Js.toLowerCase n) (adminProductMapOf fetched) = specSource fetched n.
Proof.
  unfold adminProductMapOf, specSource. rewrite get_fold_adminProductMap.
  now destruct (find _ (rev fetched)).
Qed.

Lemma find_all {A} (p : A -> bool) (l : list A) :
  Forall (fun a => p a = true) l -> find p l = hd_error l.
Proof. intros [|a l' Ha _]; simpl; [reflexivity|now rewrite Ha]. Qed.

(** C4, amended.  The two items of the scenario aggregate to exactly one
    option: colour "Black", stock 2, price and discount 100, the two unit
    identifiers.  Its variant is "128GB 4GB RAM" when the catalog has no
    entry named "Acme X1", or when the last such entry has no storage
    specification; otherwise it is the first token of that entry's
    specification that contains "128GB", else the first that contains "128",
    else "Unknown". *)
Theorem acme_scenario i1 i2 w :
  scenarioItem i1 -> scenarioItem i2 ->
  rejects w (ProductsFindIn ["Acme X1"; "Acme X1"]) = false ->
  let named :=
    filter (fun a => String.eqb (name a) "Acme X1") (tep_admin_products w) in
  let v :=
    match hd_error (rev named) with
    | None => "128GB 4GB RAM"
    | Some a =>
        if Js.truthy (storage a) then
          match find (Js.includes "128GB") (Js.split ", " (storage a)) with
          | Some t => t
          | None =>
              match find (Js.includes "128") (Js.split ", " (storage a)) with
              | Some t => t
              | None => "Unknown"
              end
          end
        else "128GB 4GB RAM"
    end in
  fst (createSelectedOptionsForWholecell [i1; i2] w) =
    Ok [mkOption "Black" v 2 100 100 [unitIdentifier i1; unitIdentifier i2]
                 (next_oid w)].
Proof.
  intros H1 H2 Hr named v.
  assert (Hnames : productNames [i1; i2] = ["Acme X1"; "Acme X1"]).
  { unfold productNames. simpl.
    destruct H1 as (? & ? & ? & ? & Hs1 & ?). destruct H2 as (? & ? & ? & ? & Hs2 & ?).
    rewrite Hs1, Hs2. simpl.
    rewrite !scenarioItem_name by (repeat split; assumption). reflexivity. }
  set (fetched := filter (fun a => existsb (String.eqb (name a)) ["Acme X1"; "Acme X1"])
                         (tep_admin_products w)).
  assert (Hfetched : fetched = named).
  { unfold fetched, named. apply filter_ext. intros a. simpl.
    now destruct (String.eqb (name a) "Acme X1"). }
  assert (Hv : wholecellVariant "128" (get "acme x1" (adminProductMapOf fetched)) = v).
  { change "acme x1" with (Js.toLowerCase "Acme X1").
    rewrite get_adminProductMapOf_last, Hfetched. unfold specSource.
    rewrite find_all.
    - unfold v. destruct (hd_error (rev named)) as [a|]; [|reflexivity].
      unfold wholecellVariant, findMatchingStorageSpec.
      destruct (Js.truthy (storage a)); reflexivity.
    - apply Forall_forall. intros a Ha. apply in_rev in Ha.
      apply filter_In in Ha. destruct Ha as [_ Ha].
      apply String.eqb_eq in Ha. now rewrite Ha. }
  unfold createSelectedOptionsForWholecell, productsFindIn, bind, call, drawing.
  rewrite Hnames, Hr. fold fetched.
  unfold aggregateWholecell.
  change (fold_left (addWholecell (adminProductMapOf fetched)) [i1; i2]
                    ([], next_oid w))
    with (addWholecell (adminProductMapOf fetched)
            (addWholecell (adminProductMapOf fetched) ([], next_oid w) i1) i2).
  rewrite (addWholecell_scenario_first _ _ H1).
  rewrite (addWholecell_scenario_next _ _ _ H2). rewrite Hv. reflexivity.
Qed.

(** ** Product resolution *)

(** C5, as stated, fails where creation is allowed: the generic resolver
    makes no exact match first.  With "Acme X10" before "Acme X1" in the
    catalog it answers "Acme X10" to ("Acme", "X1"), though an entry of that
    very name exists. *)
Lemma resolution_counterexample :
  let catalog :=
    [mkAdminProduct 1 "Acme X10" "Acme" "X10" "Acme" [] "";
     mkAdminProduct 2 "Acme X1" "Acme" "X1" "Acme" [] ""] in
  let w := Sample.world catalog [] [] None in
  let productData := mkProduct "Acme" "X1" "" "" "" in
  fst (findOrCreateProduct productData w) =
    Ok (mkAdminProduct 1 "Acme X10" "Acme" "X10" "Acme" [] "") /\
  fst (resolveAsStated true productData w) =
    Ok (Some (mkAdminProduct 2 "Acme X1" "Acme" "X1" "Acme" [] "")).
Proof. split; reflexivity. Qed.

(** C5, amended.  The candidate name is "{manufacturer} {model}" trimmed.
    The restricted resolver ([findExistingProduct], no creation) answers the
    first entry whose name is the candidate up to case; without one, and for
    a candidate of more than 3 characters, the first entry whose name contains
    it up to case; otherwise nothing; it writes nothing.  The generic resolver
    ([findOrCreateProduct]) makes one search, the candidate being the
    pattern, and answers the first entry it matches; when none matches it
    appends a new entry named by the candidate, whose category is the
    manufacturer ("Unknown" without one) and whose [imagesByColor] is empty,
    and answers it. *)
Theorem product_resolution productData w :
  let n := candidateName productData in
  rejects w (ProductsFindOne (ExactI n)) = false ->
  rejects w (ProductsFindOne (ContainsI n)) = false ->
  rejects w (ProductsFindOne (RegexI n)) = false ->
  rejects w (ProductsInsertOne n) = false ->
  n = Js.trim ((manufacturer productData ||| "") ++ " " ++ (model productData ||| "")) /\
  snd (findExistingProduct productData w) = w /\
  (forall a,
      find (fun a => ieq n (name a)) (tep_admin_products w) = Some a ->
      fst (findExistingProduct productData w) = Ok (Some a)) /\
  (find (fun a => ieq n (name a)) (tep_admin_products w) = None ->
   fst (findExistingProduct productData w) =
   Ok (if (3 <? String.length n)%nat
       then find (fun a => icontains n (name a)) (tep_admin_products w)
       else None)) /\
  (forall a,
      find (fun a => regex_i w n (name a)) (tep_admin_products w) = Some a ->
      findOrCreateProduct productData w = (Ok a, w)) /\
  (find (fun a => regex_i w n (name a)) (tep_admin_products w) = None ->
   exists p,
     fst (findOrCreateProduct productData w) = Ok p /\
     tep_admin_products (snd (findOrCreateProduct productData w)) =
       (tep_admin_products w ++ [p])%list /\
     name p = n /\
     category p = manufacturer productData ||| "Unknown" /\
     ap_manufacturer p = manufacturer productData ||| "Unknown" /\
     ap_model p = model productData ||| "" /\
     imagesByColor p = []).
Proof.
  intros n He Hc Hr Hi. split; [reflexivity|].
  unfold findExistingProduct, findOrCreateProduct, productsFindOne,
    productsInsertOne, newObjectId, bind, call, ret.
  fold n. simpl. rewrite He, Hr. simpl.
  repeat split.
  - destruct (find _ _); simpl; auto.
    destruct (3 <? String.length n)%nat; auto. now rewrite Hc.
  - intros a ->. reflexivity.
  - intros ->. destruct (3 <? String.length n)%nat; auto. now rewrite Hc.
  - intros a ->. reflexivity.
  - intros ->. rewrite Hi. simpl. eexists. repeat split.
Qed.

(** ** The summary of a run over all vendors *)


(** ** Failures inside a vendor's run *)

(** C6 does not hold of the code.  (1) As the generic module stands, with
    [condition] unbound, the failure of the one group of a feed is caught in
    the first loop and logged, and the second loop then throws it out of
    [syncVendor]: nothing is written.  (2) With [condition] bound, a lookup
    that fails for one group is caught in the first loop, where the other
    group gets its operation, and thrown out of [syncVendor] by the second
    loop, which resolves the same groups outside any [try].  (3) In the
    restricted adapter a lookup that fails in step one, which has no [try],
    throws out of [syncWholecellVendor] before any group is processed. *)
Theorem group_failure_escapes_the_vendor_run :
  (let w := Sample.world [Sample.acmeX1 ""] [] Sample.twoUnits None in
   fst (syncVendor Sample.vendor w) = Throw "condition is not defined" /\
   console_error (snd (syncVendor Sample.vendor w)) = ["Acme_X1_A"] /\
   tep_vendor_products (snd (syncVendor Sample.vendor w)) = []) /\
  (let w := Sample.failing (Faults.lookupFails "Acme (X1")
              (Sample.world [Sample.acmeX1 ""] []
                 (Faults.oddUnit :: Sample.twoUnits) (Some 5%N)) in
   fst (genericGroups Sample.vendor
          (groupItemsByProductAndCondition (Faults.oddUnit :: Sample.twoUnits))
          (mkTally [] 0 0) w)
     = Ok (mkTally
             [insertOne (mkData 7 1 5
                [mkOption "Black" "128GB" 2 10000 0 ["esn-1"; "esn-2"] 100] "")]
             1 0) /\
   fst (syncVendor Sample.vendor w) = Throw "store call failed" /\
   console_error (snd (syncVendor Sample.vendor w)) = ["Acme_(X1_A"] /\
   tep_vendor_products (snd (syncVendor Sample.vendor w)) = []) /\
  (let w := Sample.failing (Faults.lookupFails "Acme (X1")
              (Sample.world [Sample.acmeX1 ""] []
                 (Faults.oddUnit :: Sample.twoUnits) None) in
   fst (syncWholecellVendor Sample.vendor w) = Throw "store call failed" /\
   console_error (snd (syncWholecellVendor Sample.vendor w)) = [] /\
   tep_vendor_products (snd (syncWholecellVendor Sample.vendor w)) = []).
Proof. repeat split. Qed.

(** ** Frames: what the computations leave as it was *)

Section Keeps.
Variable R : World -> World -> Prop.
Hypothesis R_refl : forall w, R w w.
Hypothesis R_trans : forall w1 w2 w3, R w1 w2 -> R w2 w3 -> R w1 w3.

Lemma keeps_ret {A} (a : A) : keeps R (ret a).
Proof. intros w. apply R_refl. Qed.

Lemma keeps_throw {A} e : keeps R (@throw A e).
Proof. intros w. apply R_refl. Qed.

Lemma keeps_bind {A B} (m : M A) (k : A -> M B) :
  keeps R m -> (forall a, keeps R (k a)) -> keeps R (bind m k).
Proof.
  intros Hm Hk w. unfold bind. specialize (Hm w).
  destruct (m w) as [[a|e] w1]; simpl in *; auto.
  eapply R_trans; [exact Hm|apply Hk].
Qed.

Lemma keeps_tryCatch {A} (m : M A) (h : string -> M A) :
  keeps R m -> (forall e, keeps R (h e)) -> keeps R (tryCatch m h).
Proof.
  intros Hm Hh w. unfold tryCatch. specialize (Hm w).
  destruct (m w) as [[a|e] w1]; simpl in *; auto.
  eapply R_trans; [exact Hm|apply Hh].
Qed.

Lemma keeps_call c : keeps R (call c).
Proof. intros w. unfold call. destruct (rejects w c); apply R_refl. Qed.

Lemma keeps_if {A} (b : bool) (m1 m2 : M A) :
  keeps R m1 -> keeps R m2 -> keeps R (if b then m1 else m2).
Proof. now destruct b. Qed.

End Keeps.


Lemma environment_kept_trans w1 w2 w3 :
  environment_kept w1 w2 -> environment_kept w2 w3 -> environment_kept w1 w3.
Proof.
  intros (? & ? & ? & ?) (? & ? & ? & ?). repeat split; congruence.
Qed.

Lemma stores_kept_refl w : stores_kept w w.
Proof. repeat split. Qed.

Lemma stores_kept_trans w1 w2 w3 :
  stores_kept w1 w2 -> stores_kept w2 w3 -> stores_kept w1 w3.
Proof.
  intros (? & ? & ? & E1) (? & ? & ? & E2).
  repeat split; try congruence; apply (environment_kept_trans E1 E2).
Qed.

Lemma records_kept_refl w : records_kept w w.
Proof. repeat split. Qed.

Lemma records_kept_trans w1 w2 w3 :
  records_kept w1 w2 -> records_kept w2 w3 -> records_kept w1 w3.
Proof.
  intros (? & ? & E1) (? & ? & E2).
  repeat split; try congruence; apply (environment_kept_trans E1 E2).
Qed.

Lemma stores_kept_records w w' : stores_kept w w' -> records_kept w w'.
Proof. intros (? & ? & ? & ?). split; [|split]; assumption. Qed.

Create HintDb frame.

(** Composite computations keep what their parts keep: the parts already
    dealt with are in the hint database, the rest is taken apart. *)
Ltac frame R_refl R_trans :=
  repeat first
    [ solve [auto with frame]
    | apply (@keeps_ret _ R_refl)
    | apply (@keeps_call _ R_refl)
    | apply (@keeps_bind _ R_trans); [|intros ?]
    | apply (@keeps_tryCatch _ R_trans); [|intros ?]
    | apply keeps_if
    | match goal with |- keeps _ (match ?x with _ => _ end) => destruct x end
    | intros ?; apply R_refl ].

Lemma keeps_drawing {A} (f : N -> A * N) : keeps stores_kept (drawing f).
Proof.
  intros w. unfold drawing. destruct (f (next_oid w)). repeat split.
Qed.

Lemma keeps_log line : keeps stores_kept (console_error_log line).
Proof. intros w. repeat split. Qed.

Lemma keeps_fetchItems vendorApi : keeps stores_kept (fetchItems vendorApi).
Proof. intros w. apply stores_kept_refl. Qed.

#[local] Hint Resolve keeps_drawing keeps_log keeps_fetchItems : frame.

Lemma keeps_productsFindOne q : keeps stores_kept (productsFindOne q).
Proof. unfold productsFindOne. frame stores_kept_refl stores_kept_trans. Qed.

Lemma keeps_productsFindIn names : keeps stores_kept (productsFindIn names).
Proof. unfold productsFindIn. frame stores_kept_refl stores_kept_trans. Qed.

Lemma keeps_vendorProductsFindOne v p c :
  keeps stores_kept (vendorProductsFindOne v p c).
Proof. unfold vendorProductsFindOne. frame stores_kept_refl stores_kept_trans. Qed.

Lemma keeps_vendorProductsFind v : keeps stores_kept (vendorProductsFind v).
Proof. unfold vendorProductsFind. frame stores_kept_refl stores_kept_trans. Qed.

#[local] Hint Resolve keeps_productsFindOne keeps_productsFindIn
  keeps_vendorProductsFindOne keeps_vendorProductsFind : frame.

Lemma keeps_findExistingProduct productData :
  keeps stores_kept (findExistingProduct productData).
Proof. unfold findExistingProduct. frame stores_kept_refl stores_kept_trans. Qed.

Lemma keeps_createSelectedOptionsForWholecell items :
  keeps stores_kept (createSelectedOptionsForWholecell items).
Proof.
  unfold createSelectedOptionsForWholecell.
  frame stores_kept_refl stores_kept_trans.
Qed.

#[local] Hint Resolve keeps_findExistingProduct
  keeps_createSelectedOptionsForWholecell : frame.

Lemma keeps_wholecellGroup vendorApi valid t :
  keeps stores_kept (wholecellGroup vendorApi valid t).
Proof.
  unfold wholecellGroup. destruct valid as [groupData existingProduct].
  frame stores_kept_refl stores_kept_trans.
Qed.

#[local] Hint Resolve keeps_wholecellGroup : frame.

Lemma keeps_wholecellGroups vendorApi validGroups :
  forall t, keeps stores_kept (wholecellGroups vendorApi validGroups t).
Proof.
  induction validGroups as [|[k valid] rest IH]; intros t; simpl;
    frame stores_kept_refl stores_kept_trans.
Qed.

Lemma keeps_filterValid groups :
  forall valid skipped, keeps stores_kept (filterValid groups valid skipped).
Proof.
  induction groups as [|[k g] rest IH]; intros valid skipped; simpl;
    frame stores_kept_refl stores_kept_trans.
Qed.

#[local] Hint Resolve keeps_wholecellGroups keeps_filterValid : frame.

Lemma keeps_syncWholecellVendorOps vendorApi :
  keeps stores_kept (syncWholecellVendorOps vendorApi).
Proof.
  unfold syncWholecellVendorOps. frame stores_kept_refl stores_kept_trans.
Qed.

(** ** The restricted adapter, group by group *)

Lemma addWholecell_stock apm acc item :
  Forall (fun o => (1 <= stock o)%Z) (values (fst acc)) ->
  Forall (fun o => (1 <= stock o)%Z) (values (fst (addWholecell apm acc item))).
Proof.
  destruct acc as [m next]. unfold addWholecell. simpl. intros H.
  destruct (negb (String.eqb (status item) "Available")); simpl; auto.
  set (k := optionKey _ _).
  destruct (has k m) eqn:Hk; simpl.
  - apply Forall_values_update; auto. intros o Ho. simpl. lia.
  - unfold update. rewrite get_set_eq, set_set.
    apply Forall_values_set; [simpl; lia|assumption].
Qed.


Lemma addWholecell_length apm acc item :
  (length (fst acc) <= length (fst (addWholecell apm acc item)))%nat /\
  (available item = true -> (1 <= length (fst (addWholecell apm acc item)))%nat) /\
  (available item = false -> addWholecell apm acc item = acc).
Proof.
  destruct acc as [m next]. unfold addWholecell, available. simpl.
  destruct (String.eqb (status item) "Available"); simpl.
  - set (k := optionKey _ _). set (o := mkOption _ _ _ _ _ _ _).
    assert (H : (length m <=
                 length (fst (let '(m1, n1) :=
                                if has k m then (m, next)
                                else (set k o m, N.succ next) in
                              (update k (countUnit (unitIdentifier item)) m1, n1)))
                 /\ 1 <= length (fst (let '(m1, n1) :=
                                if has k m then (m, next)
                                else (set k o m, N.succ next) in
                              (update k (countUnit (unitIdentifier item)) m1, n1))))%nat).
    { destruct (has k m) eqn:Hk; simpl; unfold update.
      - unfold has in Hk. destruct (get k m) as [e|] eqn:Eg; [|discriminate].
        rewrite length_set. unfold has. rewrite Eg.
        apply get_some_length in Eg. lia.
      - rewrite get_set_eq, set_set, length_set, Hk. lia. }
    destruct H as [H1 H2]. repeat split; auto. discriminate.
  - repeat split; auto. discriminate.
Qed.

(** Whether the restricted aggregation comes out without stock depends on
    the items alone: it does when none of them is [Available]. *)
Lemma noStock_aggregateWholecell items aps n :
  noStock (fst (aggregateWholecell items aps n)) = negb (existsb available items).
Proof.
  unfold aggregateWholecell.
  set (f := addWholecell (adminProductMapOf aps)).
  assert (Hs : forall acc,
             Forall (fun o => (1 <= stock o)%Z) (values (fst acc)) ->
             Forall (fun o => (1 <= stock o)%Z) (values (fst (fold_left f items acc)))).
  { intros acc. apply (fold_left_invariant
      (fun acc => Forall (fun o => (1 <= stock o)%Z) (values (fst acc)))).
    intros a b. apply addWholecell_stock. }
  assert (Hl : forall acc,
             (length (fst acc) <= length (fst (fold_left f items acc)))%nat /\
             (existsb available items = true ->
              (1 <= length (fst (fold_left f items acc)))%nat) /\
             (existsb available items = false -> fold_left f items acc = acc)).
  { clear Hs. induction items as [|item items IH]; intros acc; simpl.
    - repeat split; auto. discriminate.
    - destruct (addWholecell_length (adminProductMapOf aps) acc item) as (L1 & L2 & L3).
      destruct (IH (f acc item)) as (I1 & I2 & I3). unfold f in *.
      repeat split.
      + eapply Nat.le_trans; [exact L1|exact I1].
      + intros H. apply orb_true_iff in H. destruct H as [H|H].
        * specialize (L2 H). eapply Nat.le_trans; [exact L2|exact I1].
        * now apply I2.
      + intros H. apply orb_false_iff in H. destruct H as [Ha Hi].
        rewrite (I3 Hi). now apply L3. }
  specialize (Hs ([], n) (Forall_nil _)). specialize (Hl ([], n)).
  destruct Hl as (_ & L2 & L3).
  destruct (existsb available items) eqn:E.
  - specialize (L2 eq_refl).
    destruct (fold_left f items ([], n)) as [m n']. simpl in *.
    unfold noStock, values. rewrite length_map.
    destruct m as [|[k o] m]; simpl in *; [lia|].
    inv Hs. destruct (stock o =? 0)%Z eqn:E0; auto. apply Z.eqb_eq in E0. lia.
  - rewrite (L3 eq_refl). reflexivity.
Qed.

Lemma keeps_wholecellTry vendorApi k valid t :
  keeps stores_kept
    (tryCatch (wholecellGroup vendorApi valid t)
              (fun _ => console_error_log k ;;; ret t)).
Proof. frame stores_kept_refl stores_kept_trans. Qed.

(** One turn of step two, [try] and [catch] together: it never throws. *)
Lemma wholecellTry_step vendorApi k g p t w :
  fst (tryCatch (wholecellGroup vendorApi (g, p) t)
                (fun _ => console_error_log k ;;; ret t) w) =
  Ok (if pushes w vendorApi (g, p)
      then
        let opts := fst (aggregateWholecell (g_items g) (fetchedFor w (g_items g))
                                            (next_oid w)) in
        tallyPush t opts (persistedFor w vendorApi p)
                  (wholecellPush vendorApi p opts (persistedFor w vendorApi p))
      else t).
Proof.
  unfold tryCatch, wholecellGroup, createSelectedOptionsForWholecell,
    productsFindIn, pushes, persistedFor, fetchedFor. simpl fst. simpl snd.
  unfold bind at 1. unfold bind at 1. unfold bind at 1. unfold call at 1.
  destruct (rejects w (ProductsFindIn (productNames (g_items g)))) eqn:Er;
    [reflexivity|].
  cbv beta iota. unfold drawing.
  pose proof (noStock_aggregateWholecell (g_items g)
                (filter (fun a => existsb (String.eqb (name a))
                                          (productNames (g_items g)))
                        (tep_admin_products w)) (next_oid w)) as Hn.
  destruct (aggregateWholecell _ _ _) as [opts n]. simpl in Hn.
  cbv beta iota. rewrite Hn.
  destruct (existsb available (g_items g)); [|reflexivity].
  simpl negb. cbv iota.
  unfold vendorProductsFindOne, bind, call. simpl.
  destruct (rejects w (VendorProductsFindOne _ _ _)); [reflexivity|].
  simpl. unfold tallyPush, wholecellPush.
  destruct (find _ (tep_vendor_products w)); reflexivity.
Qed.

Lemma pushes_kept w w' vendorApi valid :
  stores_kept w w' -> pushes w' vendorApi valid = pushes w vendorApi valid.
Proof.
  intros (_ & _ & _ & Hr & _). unfold pushes. now rewrite Hr.
Qed.

Lemma fetchedFor_kept w w' items :
  stores_kept w w' -> fetchedFor w' items = fetchedFor w items.
Proof. intros (Hc & _). unfold fetchedFor. now rewrite Hc. Qed.

Lemma persistedFor_kept w w' vendorApi p :
  stores_kept w w' -> persistedFor w' vendorApi p = persistedFor w vendorApi p.
Proof. intros (_ & Hr & _). unfold persistedFor. now rewrite Hr. Qed.

Lemma pushedBy_kept w w' vendorApi kv op :
  stores_kept w w' -> pushedBy w' vendorApi kv op -> pushedBy w vendorApi kv op.
Proof.
  intros Hk [n Hn]. exists n.
  now rewrite (fetchedFor_kept _ Hk), (persistedFor_kept _ _ Hk) in Hn.
Qed.

(** Step two never throws, and pushes one operation for each valid group
    that [pushes], in the groups' order. *)
Lemma wholecellGroups_spec vendorApi validGroups :
  forall t w,
  exists t' ops,
    fst (wholecellGroups vendorApi validGroups t w) = Ok t' /\
    w_bulkOps t' = (w_bulkOps t ++ ops)%list /\
    Forall2 (pushedBy w vendorApi)
            (filter (fun kv => pushes w vendorApi (snd kv)) validGroups) ops /\
    w_newVendorProducts t' =
      (w_newVendorProducts t + length (filter isInsert ops))%nat /\
    w_updatedVendorProducts t' =
      (w_updatedVendorProducts t + length (filter (fun op => negb (isInsert op)) ops))%nat.
Proof.
  induction validGroups as [|[k [g p]] rest IH]; intros t w.
  - exists t, []. simpl. rewrite app_nil_r. repeat split; auto.
  - pose proof (wholecellTry_step vendorApi k g p t w) as Hstep.
    pose proof (keeps_wholecellTry vendorApi k (g, p) t w) as Hkept.
    simpl wholecellGroups. unfold bind at 1.
    destruct (tryCatch _ _ w) as [[t1|e] w1]; simpl in Hstep, Hkept; inv Hstep.
    destruct (IH (if pushes w vendorApi (g, p)
                  then
                    let opts := fst (aggregateWholecell (g_items g)
                                       (fetchedFor w (g_items g)) (next_oid w)) in
                    tallyPush t opts (persistedFor w vendorApi p)
                      (wholecellPush vendorApi p opts (persistedFor w vendorApi p))
                  else t) w1)
      as (t' & ops & Hrun & Hops & Hall & Hnew & Hupd).
    assert (Hall' : Forall2 (pushedBy w vendorApi)
                      (filter (fun kv => pushes w vendorApi (snd kv)) rest) ops).
    { rewrite (filter_ext _ (fun kv => pushes w vendorApi (snd kv))) in Hall
        by (intros kv; now apply pushes_kept).
      eapply Forall2_impl; [|exact Hall].
      intros kv op. now apply pushedBy_kept. }
    simpl filter. simpl snd.
    destruct (pushes w vendorApi (g, p)) eqn:Hp.
    + eexists t', (_ :: ops). split; [exact Hrun|].
      rewrite Hops, Hnew, Hupd. simpl. rewrite <- app_assoc. simpl.
      split; [reflexivity|]. split.
      * constructor; auto. eexists. reflexivity.
      * unfold wholecellPush. destruct (persistedFor w vendorApi p); simpl; lia.
    + exists t', ops. auto.
Qed.

(** ** Step one of the restricted adapter *)

Lemma findExistingProduct_world productData w :
  snd (findExistingProduct productData w) = w.
Proof.
  unfold findExistingProduct, productsFindOne, bind, call, ret.
  destruct (rejects w (ProductsFindOne (ExactI _))); simpl; auto.
  destruct (find _ _); simpl; auto.
  destruct (3 <? _)%nat; simpl; auto.
  destruct (rejects w (ProductsFindOne (ContainsI _))); reflexivity.
Qed.

Lemma resolution_kept w w' g :
  stores_kept w w' -> resolution w' g = resolution w g.
Proof.
  intros (Hc & _ & _ & Hr & _). unfold resolution, findExistingProduct,
    productsFindOne, bind, call, ret. simpl. rewrite Hr.
  destruct (rejects w (ProductsFindOne (ExactI _))); simpl; auto.
  rewrite Hc.
  destruct (find _ _); simpl; auto.
  destruct (3 <? _)%nat; simpl; auto.
  rewrite Hr.
  destruct (rejects w (ProductsFindOne (ContainsI _))); simpl; auto.
  now rewrite Hc.
Qed.

Lemma filterValid_pure groups :
  forall validGroups skipped w,
    filterValid groups validGroups skipped w =
    (validOf w groups validGroups skipped, w).
Proof.
  induction groups as [|[k g] rest IH]; intros valid skipped w; simpl; auto.
  unfold bind, resolution.
  pose proof (findExistingProduct_world (g_product g) w) as Hw.
  destruct (findExistingProduct (g_product g) w) as [[[p|]|e] w1];
    simpl in *; subst; auto.
Qed.

Lemma validOf_kept w w' groups :
  stores_kept w w' ->
  forall valid skipped, validOf w' groups valid skipped = validOf w groups valid skipped.
Proof.
  intros Hk. induction groups as [|[k g] rest IH]; intros valid skipped; simpl; auto.
  rewrite (resolution_kept g Hk).
  destruct (resolution w g) as [[p|]|e]; auto.
Qed.

Lemma set_fresh {V} k (v : V) m : ~ In k (keys m) -> set k v m = (m ++ [(k, v)])%list.
Proof.
  induction m as [|[k' v'] m IH]; simpl; intros H; auto.
  destruct (String.eqb k k') eqn:E.
  - apply String.eqb_eq in E. subst. tauto.
  - rewrite IH; tauto.
Qed.

Lemma validOf_Ok w groups :
  (forall kg, In kg groups -> exists r, resolution w (snd kg) = Ok r) ->
  forall valid skipped,
    NoDup (keys valid ++ keys groups) ->
    validOf w groups valid skipped =
    Ok ((valid ++ matchedGroups w groups)%list,
        (skipped + length (filter (unmatched w) groups))%nat).
Proof.
  induction groups as [|[k g] rest IH]; intros Hres valid skipped Hnd; simpl.
  - now rewrite app_nil_r, Nat.add_0_r.
  - destruct (Hres (k, g) (or_introl eq_refl)) as [r Hr]. simpl in Hr.
    unfold unmatched at 1. simpl. rewrite Hr.
    assert (Hres' : forall kg, In kg rest -> exists r, resolution w (snd kg) = Ok r).
    { intros kg H. apply Hres. now right. }
    destruct r as [p|].
    + rewrite set_fresh.
      * rewrite IH; auto.
        -- now rewrite <- app_assoc.
        -- unfold keys in *. rewrite map_app, <- app_assoc. exact Hnd.
      * apply NoDup_remove_2 in Hnd. intros H. apply Hnd.
        apply in_or_app. now left.
    + rewrite IH; auto.
      * f_equal. f_equal. simpl. lia.
      * apply NoDup_remove_1 in Hnd. exact Hnd.
Qed.

Lemma in_matchedGroups w groups k g p :
  In (k, (g, p)) (matchedGroups w groups) <->
  In (k, g) groups /\ resolution w g = Ok (Some p).
Proof.
  unfold matchedGroups. rewrite in_flat_map. split.
  - intros ([k' g'] & Hin & H). simpl in H.
    destruct (resolution w g') as [[p'|]|e] eqn:E; simpl in H; try tauto.
    destruct H as [H|[]]. inv H. auto.
  - intros [Hin Hr]. exists (k, g). split; auto. simpl. rewrite Hr. now left.
Qed.

Lemma length_matchedGroups w groups :
  (forall kg, In kg groups -> exists r, resolution w (snd kg) = Ok r) ->
  (length (matchedGroups w groups) + length (filter (unmatched w) groups)
   = length groups)%nat.
Proof.
  induction groups as [|[k g] rest IH]; intros Hres; simpl; auto.
  destruct (Hres (k, g) (or_introl eq_refl)) as [r Hr]. simpl in Hr.
  unfold unmatched at 1. simpl. rewrite Hr.
  assert (H : (length (matchedGroups w rest) + length (filter (unmatched w) rest)
               = length rest)%nat) by (apply IH; intros kg ?; apply Hres; now right).
  destruct r; simpl; lia.
Qed.

(** The groups have distinct keys. *)
Lemma groupItems_NoDup items :
  NoDup (keys (groupItemsByProductAndCondition items)).
Proof.
  unfold groupItemsByProductAndCondition.
  apply (fold_left_invariant (fun m => NoDup (keys m))); [|constructor].
  intros m item Hm. unfold groupItem.
  set (m1 := if has _ m then m else _).
  assert (H1 : NoDup (keys m1)).
  { unfold m1. destruct (has _ m); auto. now apply NoDup_keys_set. }
  destruct (get _ m1); auto. now apply NoDup_keys_set.
Qed.

(** ** The restricted adapter as a whole *)

Lemma syncWholecellVendorOps_spec vendorApi w items validGroups skipped :
  vendor_feed w (vendorId vendorApi) = Ok items ->
  validOf w (groupItemsByProductAndCondition items) [] 0 = Ok (validGroups, skipped) ->
  exists ops report,
    fst (syncWholecellVendorOps vendorApi w) = Ok (ops, report) /\
    Forall2 (pushedBy w vendorApi)
            (filter (fun kv => pushes w vendorApi (snd kv)) validGroups) ops /\
    wr_vendorId report = vendorId vendorApi /\
    wr_totalFetched report = length items /\
    wr_validProducts report = length validGroups /\
    wr_skippedProducts report = skipped /\
    wr_newVendorProducts report = length (filter isInsert ops) /\
    wr_updatedVendorProducts report =
      length (filter (fun op => negb (isInsert op)) ops) /\
    wr_totalOperations report = length ops.
Proof.
  intros Hfeed Hvalid. unfold syncWholecellVendorOps.
  unfold bind at 1. unfold fetchItems. rewrite Hfeed.
  unfold bind at 1. rewrite filterValid_pure, Hvalid.
  destruct (wholecellGroups_spec vendorApi validGroups (mkWTally [] 0 0 0) w)
    as (t' & ops & Hrun & Hops & Hall & Hnew & Hupd).
  unfold bind. destruct (wholecellGroups vendorApi validGroups _ w) as [[t1|e] w1];
    simpl in Hrun; inv Hrun.
  simpl in Hops, Hnew, Hupd. rewrite Hops, Hnew, Hupd.
  exists ops. eexists. split; [reflexivity|]. simpl. auto 10.
Qed.

Lemma catalog_kept_refl w : catalog_kept w w.
Proof. repeat split. Qed.

Lemma catalog_kept_trans w1 w2 w3 :
  catalog_kept w1 w2 -> catalog_kept w2 w3 -> catalog_kept w1 w3.
Proof.
  intros (? & ? & E1) (? & ? & E2).
  repeat split; try congruence; apply (environment_kept_trans E1 E2).
Qed.

Lemma keeps_weaken {A} (R R' : World -> World -> Prop) (m : M A) :
  (forall w w', R w w' -> R' w w') -> keeps R m -> keeps R' m.
Proof. intros H Hm w. apply H, Hm. Qed.

Lemma stores_kept_catalog w w' : stores_kept w w' -> catalog_kept w w'.
Proof. intros (? & ? & ? & ?). split; [|split]; assumption. Qed.

Lemma keeps_bulkWrite ops : keeps catalog_kept (bulkWrite ops).
Proof.
  intros w. unfold bulkWrite. destruct (fold_left applyOp _ _). repeat split.
Qed.

Lemma keeps_syncWholecellVendor vendorApi :
  keeps catalog_kept (syncWholecellVendor vendorApi).
Proof.
  unfold syncWholecellVendor.
  apply (@keeps_bind _ catalog_kept_trans).
  - apply (@keeps_weaken _ stores_kept catalog_kept _ stores_kept_catalog),
      keeps_syncWholecellVendorOps.
  - intros [ops report]. apply (@keeps_bind _ catalog_kept_trans).
    + destruct (length ops =? 0)%nat;
        [apply (@keeps_ret _ catalog_kept_refl)|apply keeps_bulkWrite].
    + intros _. apply (@keeps_ret _ catalog_kept_refl).
Qed.

Lemma Forall2_in_r {A B} (R : A -> B -> Prop) l1 l2 :
  Forall2 R l1 l2 -> forall b, In b l2 -> exists a, In a l1 /\ R a b.
Proof.
  induction 1 as [|a b l1 l2 Hab Hl IH]; simpl; intros x Hx; [tauto|].
  destruct Hx as [<-|Hx]; [eauto|].
  destruct (IH x Hx) as (a' & ? & ?). eauto.
Qed.

Lemma Forall2_in_l {A B} (R : A -> B -> Prop) l1 l2 :
  Forall2 R l1 l2 -> forall a, In a l1 -> exists b, In b l2 /\ R a b.
Proof.
  induction 1 as [|a b l1 l2 Hab Hl IH]; simpl; intros x Hx; [tauto|].
  destruct Hx as [<-|Hx]; [eauto|].
  destruct (IH x Hx) as (b' & ? & ?). eauto.
Qed.

(** C8.  In a run of the restricted adapter whose fetch and catalog lookups
    succeed, the groups the catalog does not know are counted under
    [skippedProducts] and the others under [validProducts]; the run returns
    its batch; the catalog is after the run, batch written, what it was; each
    operation of the batch belongs to a group the catalog knows, and each
    such group that pushes (its calls succeed and it has an available item)
    has its operation in the batch. *)
Theorem unmatched_groups_are_skipped vendorApi w items :
  let groups := groupItemsByProductAndCondition items in
  vendor_feed w (vendorId vendorApi) = Ok items ->
  (forall kg, In kg groups -> exists r, resolution w (snd kg) = Ok r) ->
  exists ops report,
    fst (syncWholecellVendorOps vendorApi w) = Ok (ops, report) /\
    wr_skippedProducts report = length (filter (unmatched w) groups) /\
    (wr_validProducts report + wr_skippedProducts report = length groups)%nat /\
    tep_admin_products (snd (syncWholecellVendor vendorApi w)) = tep_admin_products w /\
    (forall op, In op ops ->
       exists k g p,
         In (k, g) groups /\ resolution w g = Ok (Some p) /\
         pushedBy w vendorApi (k, (g, p)) op) /\
    (forall k g p,
       In (k, g) groups -> resolution w g = Ok (Some p) ->
       pushes w vendorApi (g, p) = true ->
       exists op, In op ops /\ pushedBy w vendorApi (k, (g, p)) op).
Proof.
  intros groups Hfeed Hres.
  assert (Hvalid : validOf w groups [] 0 =
                   Ok (matchedGroups w groups,
                       length (filter (unmatched w) groups))).
  { rewrite (@validOf_Ok w groups Hres); auto. apply groupItems_NoDup. }
  destruct (@syncWholecellVendorOps_spec vendorApi w items _ _ Hfeed Hvalid)
    as (ops & report & Hrun & Hall & _ & _ & Hv & Hs & _).
  exists ops, report. split; [exact Hrun|]. split; [exact Hs|].
  split; [rewrite Hv, Hs; now apply length_matchedGroups|].
  split; [apply keeps_syncWholecellVendor|].
  split.
  - intros op Hop.
    destruct (@Forall2_in_r _ _ _ _ _ Hall op Hop) as ([k [g p]] & Hin & Hpushed).
    apply filter_In in Hin. destruct Hin as [Hin _].
    apply in_matchedGroups in Hin. destruct Hin. exists k, g, p. auto.
  - intros k g p Hin Hr Hp.
    assert (Hf : In (k, (g, p))
                    (filter (fun kv => pushes w vendorApi (snd kv))
                            (matchedGroups w groups))).
    { apply filter_In. split; auto. now apply in_matchedGroups. }
    destruct (@Forall2_in_l _ _ _ _ _ Hall _ Hf) as (op & Hop & Hpushed). eauto.
Qed.

(** ** The generic adapter as a whole *)

Lemma keeps_stores_records {A} (m : M A) : keeps stores_kept m -> keeps records_kept m.
Proof. apply keeps_weaken. exact stores_kept_records. Qed.

Lemma keeps_productsInsertOne doc : keeps records_kept (productsInsertOne doc).
Proof.
  unfold productsInsertOne, newObjectId.
  apply (@keeps_bind _ records_kept_trans);
    [apply (@keeps_call _ records_kept_refl)|intros _].
  apply (@keeps_bind _ records_kept_trans); [|intros ?]; intros w; repeat split.
Qed.

Lemma keeps_findOrCreateProduct productData :
  keeps records_kept (findOrCreateProduct productData).
Proof.
  unfold findOrCreateProduct.
  apply (@keeps_bind _ records_kept_trans).
  - apply keeps_stores_records, keeps_productsFindOne.
  - intros [p|]; [apply (@keeps_ret _ records_kept_refl)|].
    apply (@keeps_bind _ records_kept_trans);
      [apply keeps_productsInsertOne|intros ?; apply (@keeps_ret _ records_kept_refl)].
Qed.

Lemma keeps_readCondition : keeps records_kept readCondition.
Proof.
  intros w. unfold readCondition. destruct (global_condition w); repeat split.
Qed.

Lemma keeps_genericGroup vendorApi groupData t :
  keeps records_kept (genericGroup vendorApi groupData t).
Proof.
  unfold genericGroup.
  apply (@keeps_bind _ records_kept_trans); [apply keeps_findOrCreateProduct|intros ?].
  apply (@keeps_bind _ records_kept_trans);
    [apply keeps_stores_records, keeps_drawing|intros opts].
  destruct (noStock opts); [apply (@keeps_ret _ records_kept_refl)|].
  apply (@keeps_bind _ records_kept_trans); [apply keeps_readCondition|intros ?].
  apply (@keeps_bind _ records_kept_trans);
    [apply keeps_stores_records, keeps_vendorProductsFindOne|intros [e|]];
    apply (@keeps_ret _ records_kept_refl).
Qed.

Lemma keeps_genericGroups vendorApi groups :
  forall t, keeps records_kept (genericGroups vendorApi groups t).
Proof.
  induction groups as [|[k g] rest IH]; intros t; simpl.
  - apply (@keeps_ret _ records_kept_refl).
  - apply (@keeps_bind _ records_kept_trans); [|intros ?; apply IH].
    apply (@keeps_tryCatch _ records_kept_trans); [apply keeps_genericGroup|].
    intros _. apply (@keeps_bind _ records_kept_trans);
      [apply keeps_stores_records, keeps_log
      |intros _; apply (@keeps_ret _ records_kept_refl)].
Qed.

Lemma keeps_currentCombinationsOf groups :
  forall current, keeps records_kept (currentCombinationsOf groups current).
Proof.
  induction groups as [|[k g] rest IH]; intros current; simpl.
  - apply (@keeps_ret _ records_kept_refl).
  - apply (@keeps_bind _ records_kept_trans); [apply keeps_findOrCreateProduct|intros ?].
    apply (@keeps_bind _ records_kept_trans); [apply keeps_readCondition|intros ?].
    apply IH.
Qed.

Lemma keeps_syncVendorOps vendorApi : keeps records_kept (syncVendorOps vendorApi).
Proof.
  unfold syncVendorOps.
  apply (@keeps_bind _ records_kept_trans);
    [apply keeps_stores_records, keeps_fetchItems|intros ?].
  apply (@keeps_bind _ records_kept_trans); [apply keeps_genericGroups|intros ?].
  apply (@keeps_bind _ records_kept_trans);
    [apply keeps_stores_records, keeps_vendorProductsFind|intros ?].
  apply (@keeps_bind _ records_kept_trans);
    [apply keeps_currentCombinationsOf|intros ?].
  apply (@keeps_ret _ records_kept_refl).
Qed.

(** A successful first loop keeps what every successful group keeps. *)
Lemma genericGroups_invariant vendorApi (P : Tally -> Prop) groups :
  (forall g t w t' w', genericGroup vendorApi g t w = (Ok t', w') -> P t -> P t') ->
  forall t w t' w',
    genericGroups vendorApi groups t w = (Ok t', w') -> P t -> P t'.
Proof.
  intros Hstep. induction groups as [|[k g] rest IH]; simpl; intros t w t' w' H Ht.
  - now inv H.
  - run_ok H. apply (IH _ _ _ _ H). unfold tryCatch in Hrun.
    destruct (genericGroup vendorApi g t w) as [[t1|e] w1] eqn:Eg.
    + inv Hrun. exact (Hstep _ _ _ _ _ Eg Ht).
    + unfold bind, console_error_log, ret in Hrun. now inv Hrun.
Qed.

Lemma syncVendorOps_Ok vendorApi w ops report w' :
  syncVendorOps vendorApi w = (Ok (ops, report), w') ->
  exists items t w1 current,
    vendor_feed w (vendorId vendorApi) = Ok items /\
    genericGroups vendorApi (groupItemsByProductAndCondition items)
                  (mkTally [] 0 0) w = (Ok t, w1) /\
    rejects w1 (VendorProductsFind (vendorId vendorApi)) = false /\
    currentCombinationsOf (groupItemsByProductAndCondition items) [] w1
      = (Ok current, w') /\
    let zeroed :=
      markOutOfStock current
        (filter (fun r => (vp_vendorId r =? vendorId vendorApi)%N)
                (tep_vendor_products w)) in
    ops = (bulkOps t ++ zeroed)%list /\
    gr_markedAsOutOfStock report = length zeroed /\
    gr_totalOperations report = length ops.
Proof.
  unfold syncVendorOps. intros H. run_ok H. rename a into items.
  unfold fetchItems in Hrun. injection Hrun as Hfeed Hw. subst w0.
  run_ok H. rename a into t, w0 into w1, Hrun into Hloop.
  run_ok H. unfold vendorProductsFind in Hrun. run_ok Hrun.
  apply call_Ok in Hrun0. destruct Hrun0 as [Hrej ->].
  injection Hrun as Ha Hw. subst a w0.
  run_ok H. rename a into current. injection H as Hops Hrep Hw. subst w0.
  pose proof (keeps_genericGroups vendorApi
                (groupItemsByProductAndCondition items) (mkTally [] 0 0) w) as Hk.
  rewrite Hloop in Hk. destruct Hk as (Hrec & _). simpl in Hrec.
  exists items, t, w1, current. rewrite <- Hrec, <- Hops, <- Hrep.
  repeat split; auto.
Qed.

(** ** Writing a batch *)

Lemma matchesFilter_triple v p c r :
  matchesFilter (ByTriple v p c) r = true ->
  vp_vendorId r = v /\ vp_product r = p /\ vp_condition r = c.
Proof.
  simpl. rewrite !andb_true_iff, !N.eqb_eq. tauto.
Qed.



Lemma updateFirst_other f u rs e :
  matchesFilter f e = false -> In e rs -> In e (updateFirst f u rs).
Proof.
  intros Hm. induction rs as [|r rs IH]; simpl; auto.
  intros [->|Hin].
  - rewrite Hm. now left.
  - destruct (matchesFilter f r); simpl; auto.
Qed.

Lemma fold_applyOp_untouched ops e :
  (forall f u, In (updateOne f u) ops -> matchesFilter f e = false) ->
  forall rs n, In e rs -> In e (fst (fold_left applyOp ops (rs, n))).
Proof.
  induction ops as [|op ops IH]; intros Hops rs n Hin; simpl; auto.
  destruct op as [d|f u].
  - apply IH; [intros f u ?; apply (Hops f u); now right|].
    apply in_or_app. now left.
  - apply IH; [intros f' u' ?; apply (Hops f' u'); now right|].
    apply updateFirst_other; auto. apply (Hops f u). now left.
Qed.

(** The store takes every operation of a batch, each once. *)
Lemma takenBefore_perm {A} first (x : nat * A) placed :
  Permutation (takenBefore first x placed) (x :: placed).
Proof.
  induction placed as [|y rest IH]; simpl; auto.
  destruct (first (fst x) (fst y)); auto.
  eapply perm_trans; [apply perm_skip, IH|apply perm_swap].
Qed.

Lemma map_snd_combine {A B} (l1 : list A) (l2 : list B) :
  length l1 = length l2 -> map snd (combine l1 l2) = l2.
Proof.
  revert l2. induction l1 as [|a l1 IH]; intros [|b l2] H; simpl in *;
    try discriminate; auto.
  now rewrite IH by lia.
Qed.

Lemma takenOrder_places {A} first (l : list A) :
  Permutation (takenOrder first l) (combine (seq 0 (length l)) l).
Proof.
  unfold takenOrder.
  induction (combine (seq 0 (length l)) l) as [|x placed IH]; simpl; auto.
  eapply perm_trans; [apply takenBefore_perm|now apply perm_skip].
Qed.

Lemma takenOrder_perm {A} first (ops : list A) :
  Permutation (map snd (takenOrder first ops)) ops.
Proof.
  pose proof (Permutation_map snd (takenOrder_places first ops)) as H.
  now rewrite map_snd_combine in H by (now rewrite length_seq).
Qed.


Lemma appliedBy_in w ops op : In op (appliedBy w ops) -> In op ops.
Proof.
  unfold appliedBy. intros H.
  apply (Permutation_in _ (takenOrder_perm (batch_first w) ops)).
  destruct (rejects w VendorProductsBulkWrite); auto.
  apply in_map_iff in H. destruct H as (x & <- & Hx).
  apply filter_In in Hx. now apply in_map.
Qed.

Lemma appliedBy_Forall (P : BulkOp -> Prop) w ops :
  Forall P ops -> Forall P (appliedBy w ops).
Proof.
  rewrite !Forall_forall. intros H op Hop. now apply H, (appliedBy_in w).
Qed.

(** [bulkWrite], call by call. *)
Lemma bulkWrite_run ops w :
  bulkWrite ops w =
  (if rejects w VendorProductsBulkWrite
   then Throw (failure VendorProductsBulkWrite) else Ok tt,
   setNextOid
     (snd (fold_left applyOp (appliedBy w ops)
             (tep_vendor_products w, next_oid w)))
     (setVendorProducts
        (fst (fold_left applyOp (appliedBy w ops)
                (tep_vendor_products w, next_oid w)))
        w)).
Proof.
  unfold bulkWrite, appliedBy.
  now destruct (fold_left applyOp _ _).
Qed.

(** The records once [syncVendor] or [syncWholecellVendor] is through,
    given the batch it had computed: some of its operations have been
    applied, in some order. *)
Lemma written_records {A} (a : A) (ops : list BulkOp) w :
  exists applied,
    (forall op, In op applied -> In op ops) /\
    tep_vendor_products
      (snd (bind (if (length ops =? 0)%nat then ret tt else bulkWrite ops)
                 (fun _ => ret a) w)) =
    fst (fold_left applyOp applied (tep_vendor_products w, next_oid w)).
Proof.
  destruct (length ops =? 0)%nat.
  - exists []. split; [intros op []|reflexivity].
  - exists (appliedBy w ops). split; [apply appliedBy_in|].
    unfold bind. rewrite bulkWrite_run.
    now destruct (rejects w VendorProductsBulkWrite).
Qed.


Lemma markOutOfStock_in current existing e :
  In e existing ->
  inCombinations current (vp_product e) (vp_condition e) = false ->
  In (zeroOutOp e) (markOutOfStock current existing).
Proof.
  intros Hin Hc. induction existing as [|x rest IH]; simpl in *; [tauto|].
  destruct Hin as [->|Hin].
  - rewrite Hc. now left.
  - destruct (inCombinations current (vp_product x) (vp_condition x)); simpl; auto.
Qed.




Lemma validOf_Ok_inv w groups :
  forall valid skipped x,
    validOf w groups valid skipped = Ok x ->
    forall kg, In kg groups -> exists r, resolution w (snd kg) = Ok r.
Proof.
  induction groups as [|[k g] rest IH]; simpl; intros valid skipped x H kg Hin;
    [tauto|].
  destruct (resolution w g) as [[p|]|e] eqn:Er; [| |discriminate];
    (destruct Hin as [<-|Hin]; [simpl; eauto|eapply IH; eauto]).
Qed.

Lemma syncWholecellVendorOps_Ok vendorApi w ops report w' :
  syncWholecellVendorOps vendorApi w = (Ok (ops, report), w') ->
  exists items,
    vendor_feed w (vendorId vendorApi) = Ok items /\
    let groups := groupItemsByProductAndCondition items in
    (forall kg, In kg groups -> exists r, resolution w (snd kg) = Ok r) /\
    Forall2 (pushedBy w vendorApi)
            (filter (fun kv => pushes w vendorApi (snd kv)) (matchedGroups w groups))
            ops /\
    wr_newVendorProducts report = length (filter isInsert ops) /\
    wr_updatedVendorProducts report =
      length (filter (fun op => negb (isInsert op)) ops).
Proof.
  intros H. pose proof H as H0. unfold syncWholecellVendorOps in H.
  run_ok H. rename a into items. unfold fetchItems in Hrun.
  injection Hrun as Hfeed Hw. subst w0.
  run_ok H. rewrite filterValid_pure in Hrun. injection Hrun as Hvalid Hw. subst w0.
  destruct a as [valid skipped].
  exists items. split; auto. cbv zeta.
  pose proof (validOf_Ok_inv _ _ _ _ Hvalid) as Hres. split; auto.
  assert (Hvalid' : validOf w (groupItemsByProductAndCondition items) [] 0 =
                    Ok (matchedGroups w (groupItemsByProductAndCondition items),
                        length (filter (unmatched w)
                                  (groupItemsByProductAndCondition items)))).
  { rewrite (@validOf_Ok w _ Hres); auto. apply groupItems_NoDup. }
  destruct (@syncWholecellVendorOps_spec vendorApi w items _ _ Hfeed Hvalid')
    as (ops' & report' & Hrun' & Hall & _ & _ & _ & _ & Hn & Hu & _).
  rewrite H0 in Hrun'. simpl in Hrun'. inv Hrun'. auto.
Qed.

(** ** Updates: merged or replaced *)

(** C2, as stated, fails where two options differ in colour and variant
    and yet make the same string colour_variant, which is what the merge
    goes by: a persisted option of colour "Blue_X" and variant
    "128GB 4GB RAM", three units, and a newly aggregated one of colour "Blue"
    and variant "X_128GB 4GB RAM", two units, are merged into one option of
    five units that keeps the persisted colour and variant; the newly
    aggregated option is not in the merged list. *)
Lemma merge_key_counterexample :
  let persisted := mkOption "Blue_X" "128GB 4GB RAM" 3 120 120 ["a"; "b"; "c"] 40 in
  let aggregated :=
    mkOption "Blue" "X_128GB 4GB RAM" 2 100 100 ["esn-1"; "esn-2"] 100 in
  (color persisted, variant persisted) <> (color aggregated, variant aggregated) /\
  mergeSelectedOptions [persisted] [aggregated] =
    [mkOption "Blue_X" "128GB 4GB RAM" 5 100 100
              ["a"; "b"; "c"; "esn-1"; "esn-2"] 40] /\
  ~ In aggregated (mergeSelectedOptions [persisted] [aggregated]) /\
  ~ In persisted (mergeSelectedOptions [persisted] [aggregated]).
Proof.
  split; [discriminate|]. split; [reflexivity|].
  split; intros [H|[]]; discriminate.
Qed.

(** C2, amended.  A valid group of the restricted adapter that has an
    [Available] item and a persisted record pushes an update of that record,
    and every update the adapter pushes is such a one: it carries the merge
    of the record's options with the newly aggregated ones and leaves the
    record its identity.  In the merge, the options go by their key, the string
    colour_variant: an option key present on both sides gets the sum of the
    stocks, the two identifier lists one after the other, the lower price,
    and that price as its discount, the colour and the variant staying those
    of the persisted option; an option present on one side only is taken as
    it is.  The generic adapter pushes, [condition] being bound, an update
    that carries the newly aggregated options alone, which replace the
    persisted ones, and every update it pushes is such a one; as the module
    stands, with [condition] unbound, it pushes none. *)
Theorem update_merges_or_replaces :
  (forall vendorApi g p t w e,
      pushes w vendorApi (g, p) = true ->
      persistedFor w vendorApi p = Some e ->
      let opts :=
        fst (aggregateWholecell (g_items g) (fetchedFor w (g_items g))
                                (next_oid w)) in
      let merged := mergeSelectedOptions (selectedOptions e) opts in
      let u :=
        SetData (mkData (vendorId vendorApi) (ap_id p) fixedConditionId merged
                        "wholecell") in
      fst (wholecellGroup vendorApi (g, p) t w) =
        Ok (mkWTally
              (w_bulkOps t ++
               [updateOne
                  (ByTriple (vendorId vendorApi) (ap_id p) fixedConditionId) u])%list
              (w_newVendorProducts t) (S (w_updatedVendorProducts t))
              (w_totalStockProcessed t + totalStock opts)) /\
      selectedOptions (applyUpdate u e) = merged /\
      identityOf (applyUpdate u e) = identityOf e) /\
  (forall vendorApi groupData existingProduct t w t' w' f u,
      wholecellGroup vendorApi (groupData, existingProduct) t w = (Ok t', w') ->
      w_bulkOps t' = (w_bulkOps t ++ [updateOne f u])%list ->
      exists e opts,
        find (matchesFilter f) (tep_vendor_products w) = Some e /\
        createSelectedOptionsForWholecell (g_items groupData) w = (Ok opts, w') /\
        NoDup (map keyOf opts) /\
        forall r,
          selectedOptions (applyUpdate u r) =
          mergeSelectedOptions (selectedOptions e) opts) /\
  (forall existing new e n,
      NoDup (map keyOf existing) -> NoDup (map keyOf new) ->
      In e existing -> In n new ->
      keyOf e = keyOf n ->
      exists m,
        In m (mergeSelectedOptions existing new) /\
        (forall m', In m' (mergeSelectedOptions existing new) ->
                    keyOf m' = keyOf m -> m' = m) /\
        color m = color e /\ variant m = variant e /\
        stock m = (stock e + stock n)%Z /\
        uniqueNumbers m = (uniqueNumbers e ++ uniqueNumbers n)%list /\
        price m = Z.min (price e) (price n) /\
        discount m = price m) /\
  (forall existing new o,
      NoDup (map keyOf existing) -> NoDup (map keyOf new) ->
      (In o existing /\ ~ In (keyOf o) (map keyOf new)) \/
      (In o new /\ ~ In (keyOf o) (map keyOf existing)) ->
      In o (mergeSelectedOptions existing new)) /\
  (forall vendorApi g t w product w1 c e,
      findOrCreateProduct (g_product g) w = (Ok product, w1) ->
      global_condition w = Some c ->
      let opts := fst (createSelectedOptions (g_items g) (next_oid w1)) in
      let u := SetData (mkData (vendorId vendorApi) (ap_id product) c opts "") in
      noStock opts = false ->
      rejects w (VendorProductsFindOne (vendorId vendorApi) (ap_id product) c)
        = false ->
      find (matchesFilter (ByTriple (vendorId vendorApi) (ap_id product) c))
           (tep_vendor_products w) = Some e ->
      fst (genericGroup vendorApi g t w) =
        Ok (mkTally
              (bulkOps t ++
               [updateOne (ByTriple (vendorId vendorApi) (ap_id product) c) u])%list
              (newVendorProducts t) (S (updatedVendorProducts t))) /\
      selectedOptions (applyUpdate u e) = opts /\
      identityOf (applyUpdate u e) = identityOf e) /\
  (forall vendorApi groupData t w t' w' f u,
      genericGroup vendorApi groupData t w = (Ok t', w') ->
      bulkOps t' = (bulkOps t ++ [updateOne f u])%list ->
      exists product w1,
        findOrCreateProduct (g_product groupData) w = (Ok product, w1) /\
        forall r,
          selectedOptions (applyUpdate u r) =
          fst (createSelectedOptions (g_items groupData) (next_oid w1))) /\
  (forall vendorApi groupData t w t' w',
      global_condition w = None ->
      genericGroup vendorApi groupData t w = (Ok t', w') -> t' = t).
Proof.
  split; [|split; [|split; [|split; [|split; [|split]]]]].
  - intros vendorApi g p t w e Hp He opts merged u.
    pose proof (wholecellTry_step vendorApi "" g p t w) as Hstep.
    rewrite Hp, He in Hstep. unfold tryCatch in Hstep.
    destruct (wholecellGroup vendorApi (g, p) t w) as [[t1|err] w1] eqn:Eg.
    + simpl in Hstep. injection Hstep as ->. split; [reflexivity|].
      split; [reflexivity|].
      unfold persistedFor in He. apply find_some in He. destruct He as [_ Hm].
      apply matchesFilter_triple in Hm. destruct Hm as (E1 & E2 & E3).
      unfold identityOf. simpl. congruence.
    + exfalso. unfold bind, console_error_log, ret in Hstep. simpl in Hstep.
      injection Hstep as Hstep. apply (f_equal w_updatedVendorProducts) in Hstep.
      simpl in Hstep. lia.
  - intros vendorApi groupData existingProduct t w t' w' f u H Hops.
    apply wholecellGroup_Ok in H. destruct H as (opts & Hc & [[_ ->]|(_ & _ & Hb & _)]).
    + exfalso. apply (f_equal (@length _)) in Hops.
      rewrite length_app in Hops. simpl in Hops. lia.
    + rewrite Hb in Hops. apply app_inv_head in Hops.
      destruct (find _ (tep_vendor_products w)) as [e|] eqn:Ef;
        simpl in Hops; inv Hops.
      exists e, opts. repeat split; auto.
      apply createSelectedOptionsForWholecell_Ok in Hc.
      destruct Hc as (_ & -> & _). apply aggregateWholecell_NoDup.
  - intros existing new e n He Hn Ie In_ Hk.
    exists (mergeInto e n). split; [now apply merge_both|].
    split; [|simpl; auto 10].
    intros m' Hm' Hk'.
    pose proof (mergeSelectedOptions_NoDup existing new) as Hnd.
    pose proof (@merge_both existing new e n He Hn Ie In_ Hk) as Hm.
    revert Hnd Hm Hm' Hk'. generalize (mergeSelectedOptions existing new).
    induction l as [|x l IH]; simpl; intros Hnd Hm Hm' Hk'; [tauto|].
    inv Hnd. destruct Hm as [->|Hm]; destruct Hm' as [->|Hm']; auto.
    + exfalso. apply H1. rewrite <- Hk'. now apply in_map.
    + exfalso. apply H1. rewrite Hk'. now apply in_map.
  - intros existing new o He Hn [[Hin Hnot]|[Hin Hnot]];
      unfold mergeSelectedOptions; apply (@get_in_values _ (keyOf o)).
    + rewrite get_fold_mergeStep_other by assumption. now apply get_fold_set.
    + rewrite get_fold_mergeStep by assumption.
      now rewrite get_fold_set_other.
  - intros vendorApi g t w product w1 c e Hf Hc opts u Hs Hr He.
    pose proof (keeps_findOrCreateProduct (g_product g) w) as Hk.
    rewrite Hf in Hk. destruct Hk as (Hrec & _ & Hrej & _ & _ & Hcond).
    simpl in Hrec, Hrej, Hcond.
    unfold genericGroup. unfold bind at 1. rewrite Hf.
    unfold bind at 1. unfold drawing at 1.
    subst opts u.
    destruct (createSelectedOptions (g_items g) (next_oid w1)) as [o n].
    simpl fst in *. rewrite Hs.
    unfold bind at 1. unfold readCondition.
    cbn [global_condition setNextOid]. rewrite Hcond, Hc.
    unfold vendorProductsFindOne, bind, call.
    cbn [rejects setNextOid]. rewrite Hrej, Hr. cbv beta iota zeta.
    cbn [tep_vendor_products setNextOid]. rewrite Hrec, He.
    split; [reflexivity|]. split; [reflexivity|].
    apply find_some in He. destruct He as [_ Hm].
    apply matchesFilter_triple in Hm. destruct Hm as (E1 & E2 & E3).
    unfold identityOf. simpl. congruence.
  - intros vendorApi groupData t w t' w' f u H Hops.
    apply genericGroup_Ok in H.
    destruct H as (product & w1 & opts & Hf & Ho & _ & [[_ ->]|(_ & c & _ & Hb)]).
    + exfalso. apply (f_equal (@length _)) in Hops.
      rewrite length_app in Hops. simpl in Hops. lia.
    + rewrite Hb in Hops. apply app_inv_head in Hops.
      exists product, w1. split; auto.
      destruct (find _ (tep_vendor_products w1)); inv Hops.
      intros r. reflexivity.
  - intros vendorApi groupData t w t' w' Hc H.
    apply genericGroup_Ok in H.
    destruct H as (product & w1 & opts & Hf & _ & _ & [[_ ->]|(_ & c & Hc1 & _)]);
      [reflexivity|].
    pose proof (keeps_findOrCreateProduct (g_product groupData) w) as Hk.
    rewrite Hf in Hk. destruct Hk as (_ & _ & _ & _ & _ & Hcond).
    simpl in Hcond. congruence.
Qed.

(** The two adapters at a record of three, and of nine, units in stock and
    a feed of two: the restricted adapter sets five, the generic one two. *)
Lemma update_merges_or_replaces_witness :
  fst (wholecellGroup Sample.vendor (Cases.twoUnitGroup, Sample.acmeX1 "")
         (mkWTally [] 0 0 0)
         (Sample.world [Sample.acmeX1 ""] [Cases.stocked] Sample.twoUnits None))
  = Ok (mkWTally
          [updateOne (ByTriple 7 1 fixedConditionId)
             (SetData (mkData 7 1 fixedConditionId
                [mkOption "Black" "128GB 4GB RAM" 5 100 100
                          ["a"; "b"; "c"; "esn-1"; "esn-2"] 40]
                "wholecell"))]
          0 1 2) /\
  fst (genericGroup Sample.vendor Cases.twoUnitGroup (mkTally [] 0 0)
         (Sample.world [Sample.acmeX1 ""] [Cases.stockedGeneric] Sample.twoUnits
            (Some 5%N)))
  = Ok (mkTally
          [updateOne (ByTriple 7 1 5)
             (SetData (mkData 7 1 5
                [mkOption "Black" "128GB" 2 10000 0 ["esn-1"; "esn-2"] 100] ""))]
          0 1).
Proof.
  split.
  - exact (proj1 (proj1 update_merges_or_replaces Sample.vendor Cases.twoUnitGroup
                    (Sample.acmeX1 "") (mkWTally [] 0 0 0)
                    (Sample.world [Sample.acmeX1 ""] [Cases.stocked]
                       Sample.twoUnits None)
                    Cases.stocked eq_refl eq_refl)).
  - exact (proj1 (proj1 (proj2 (proj2 (proj2 (proj2 update_merges_or_replaces))))
                    Sample.vendor Cases.twoUnitGroup (mkTally [] 0 0)
                    (Sample.world [Sample.acmeX1 ""] [Cases.stockedGeneric]
                       Sample.twoUnits (Some 5%N))
                    (Sample.acmeX1 "")
                    (Sample.world [Sample.acmeX1 ""] [Cases.stockedGeneric]
                       Sample.twoUnits (Some 5%N))
                    5%N Cases.stockedGeneric eq_refl eq_refl eq_refl eq_refl
                    eq_refl)).
Defined.

(** ** Records are zeroed, never deleted *)






(** ** Two runs over one feed *)









Lemma length_updateFirst f u rs : length (updateFirst f u rs) = length rs.
Proof.
  induction rs as [|r rs IH]; simpl; auto.
  destruct (matchesFilter f r); simpl; auto.
Qed.

Lemma fold_applyOp_updates ops :
  Forall (fun op => isInsert op = false) ops ->
  forall rs n, length (fst (fold_left applyOp ops (rs, n))) = length rs.
Proof.
  induction 1 as [|op ops Hop Hops IH]; intros rs n; simpl; auto.
  destruct op as [d|f u]; [discriminate|].
  now rewrite IH, length_updateFirst.
Qed.





(** ** The theorems at the scenarios of the specification *)

Lemma stock_counts_unit_identifiers_witness :
  Forall stockMatchesUnits
    (mergeSelectedOptions [Stocked.persisted] [Stocked.aggregated]).
Proof.
  apply (proj1 (proj2 (proj2 stock_counts_unit_identifiers))).
  - repeat constructor.
  - repeat constructor.
Defined.

Lemma acme_scenario_witness :
  fst (createSelectedOptionsForWholecell Sample.twoUnits
         (Sample.world [Sample.acmeX1 "64GB 4GB RAM, 128GB 6GB RAM"] [] [] None))
  = Ok [mkOption "Black" "128GB 6GB RAM" 2 100 100 ["esn-1"; "esn-2"] 100] /\
  fst (createSelectedOptionsForWholecell Sample.twoUnits
         (Sample.world [Sample.acmeX1 "64GB 4GB RAM, 128GB 6GB RAM";
                        Sample.acmeX1 ""] [] [] None))
  = Ok [mkOption "Black" "128GB 4GB RAM" 2 100 100 ["esn-1"; "esn-2"] 100] /\
  fst (createSelectedOptionsForWholecell Sample.twoUnits
         (Sample.world [] [] [] None))
  = Ok [mkOption "Black" "128GB 4GB RAM" 2 100 100 ["esn-1"; "esn-2"] 100].
Proof.
  assert (H1 : scenarioItem (Sample.unit "128" "" "A" "Available" "esn-1"))
    by (repeat split).
  assert (H2 : scenarioItem (Sample.unit "128" "" "A" "Available" "esn-2"))
    by (repeat split).
  split; [|split].
  - exact (@acme_scenario _ _
             (Sample.world [Sample.acmeX1 "64GB 4GB RAM, 128GB 6GB RAM"] [] [] None)
             H1 H2 eq_refl).
  - exact (@acme_scenario _ _
             (Sample.world [Sample.acmeX1 "64GB 4GB RAM, 128GB 6GB RAM";
                            Sample.acmeX1 ""] [] [] None)
             H1 H2 eq_refl).
  - exact (@acme_scenario _ _ (Sample.world [] [] [] None) H1 H2 eq_refl).
Defined.

Lemma product_resolution_witness :
  fst (findExistingProduct (mkProduct "Acme" "X1" "" "" "")
         (Sample.world [Sample.acmeX1 ""] [] [] None))
  = Ok (Some (Sample.acmeX1 "")).
Proof.
  destruct (@product_resolution (mkProduct "Acme" "X1" "" "" "")
              (Sample.world [Sample.acmeX1 ""] [] [] None)
              eq_refl eq_refl eq_refl eq_refl)
    as (_ & _ & Hexact & _).
  apply Hexact. reflexivity.
Defined.

Lemma unmatched_groups_are_skipped_witness :
  exists ops report,
    fst (syncWholecellVendorOps Sample.vendor
           (Sample.world [Sample.acmeX1 ""] []
              (Stocked.stranger :: Sample.twoUnits) None))
    = Ok (ops, report) /\
    wr_skippedProducts report = 1%nat.
Proof.
  destruct (@unmatched_groups_are_skipped Sample.vendor
              (Sample.world [Sample.acmeX1 ""] []
                 (Stocked.stranger :: Sample.twoUnits) None)
              (Stocked.stranger :: Sample.twoUnits))
    as (ops & report & Hrun & Hskip & _).
  - reflexivity.
  - intros kg Hin. vm_compute in Hin.
    destruct Hin as [<-|[<-|[]]]; eexists; reflexivity.
  - exists ops, report. split; [exact Hrun|]. rewrite Hskip. reflexivity.
Defined.

(** * Further properties of the code *)

(** ** More on insertion-ordered maps *)

Section JsMapMore.
Variable V : Type.
Implicit Types (m : JsMap V) (k : string) (v : V).

Lemma in_get_NoDup m :
  forall k v, NoDup (keys m) -> In (k, v) m -> get k m = Some v.
Proof.
  induction m as [|[k' v'] m IH]; simpl; intros k v Hnd Hin; [tauto|].
  inversion Hnd as [|? ? Hnotin Hnd']; subst.
  destruct Hin as [E|Hin].
  - inversion E; subst. now rewrite String.eqb_refl.
  - destruct (String.eqb k k') eqn:E.
    + apply String.eqb_eq in E. subst k'. exfalso. apply Hnotin.
      change k with (fst (k, v)). now apply in_map.
    + now apply IH.
Qed.

Lemma set_get_same k v m : get k m = Some v -> set k v m = m.
Proof.
  induction m as [|[k' v'] m IH]; simpl; [discriminate|].
  destruct (String.eqb k k') eqn:E.
  - intros H. now inversion H.
  - intros H. now rewrite IH.
Qed.

Lemma total_set (f : V -> Z) k v m :
  total f (set k v m) =
  (total f m - match get k m with Some o => f o | None => 0 end + f v)%Z.
Proof.
  induction m as [|[k' v'] m IH]; simpl.
  - lia.
  - destruct (String.eqb k k') eqn:E; simpl.
    + lia.
    + rewrite IH. lia.
Qed.

Lemma total_values (f : V -> Z) m :
  total f m = fold_right (fun o s => (f o + s)%Z) 0%Z (values m).
Proof. induction m as [|[k v] m IH]; simpl; [|rewrite IH]; reflexivity. Qed.

End JsMapMore.

(** A fold that keeps an invariant between the accumulator and the part of
    the list it has taken. *)
Lemma fold_left_prefix {A B} (P : list B -> A -> Prop) (f : A -> B -> A) :
  (forall pre b a, P pre a -> P (pre ++ [b])%list (f a b)) ->
  forall l pre a, P pre a -> P (pre ++ l)%list (fold_left f l a).
Proof.
  intros Hstep. induction l as [|b l IH]; intros pre a Ha; simpl.
  - now rewrite app_nil_r.
  - replace (pre ++ b :: l)%list with ((pre ++ [b]) ++ l)%list
      by (now rewrite <- app_assoc).
    apply IH. now apply Hstep.
Qed.

(** ** Grouping *)

(** One turn of the grouping: the item goes to the end of the group of its
    key, which is created with the item's product, variation and grade when
    the key is new. *)
Lemma groupItem_eq (grouped : JsMap Group) (item : Item) :
  groupItem grouped item =
  set (groupKeyOf item)
      (match get (groupKeyOf item) grouped with
       | Some g =>
           mkGroup (g_product g) (g_variation g) (g_condition g)
                   (g_items g ++ [item])%list
       | None =>
           mkGroup (productOf item) (variationOf item)
                   (grade (variationOf item) ||| "Unknown") [item]
       end)
      grouped.
Proof.
  unfold groupItem, has.
  destruct (get (groupKeyOf item) grouped) as [g|] eqn:E.
  - now rewrite E.
  - rewrite get_set_eq. simpl. now rewrite set_set.
Qed.

Lemma groupOf_app k pre item :
  groupOf k (pre ++ [item]) =
  (groupOf k pre ++ if String.eqb (groupKeyOf item) k then [item] else [])%list.
Proof. unfold groupOf. rewrite filter_app. simpl. now destruct (String.eqb _ _). Qed.

Lemma grouped_so_far_step pre item grouped :
  grouped_so_far pre grouped ->
  grouped_so_far (pre ++ [item]) (groupItem grouped item).
Proof.
  intros (Hnd & Hget & Htot). rewrite groupItem_eq.
  set (k0 := groupKeyOf item). split; [|split].
  - now apply NoDup_keys_set.
  - intros k. rewrite groupOf_app. fold k0.
    destruct (String.eqb k0 k) eqn:E.
    + apply String.eqb_eq in E. subst k. rewrite get_set_eq.
      specialize (Hget k0).
      destruct (get k0 grouped) as [g|]; simpl.
      * destruct Hget as (Hitems & first & rest & Hfirst & Hp & Hv & Hc).
        split; [now rewrite Hitems|].
        exists first, (rest ++ [item])%list. rewrite Hfirst. simpl. auto.
      * rewrite Hget. split; [reflexivity|]. exists item, []. auto.
    + apply String.eqb_neq in E. rewrite get_set_neq by assumption.
      rewrite app_nil_r. apply Hget.
  - rewrite total_set, Htot, length_app. simpl.
    specialize (Hget k0). destruct (get k0 grouped) as [g|]; simpl.
    + rewrite length_app. simpl. lia.
    + lia.
Qed.

Lemma grouped_so_far_all items :
  grouped_so_far items (groupItemsByProductAndCondition items).
Proof.
  unfold groupItemsByProductAndCondition.
  apply (@fold_left_prefix _ _ grouped_so_far groupItem grouped_so_far_step
           items [] []).
  split; [constructor|split]; [intros k|]; reflexivity.
Qed.

Lemma length_flat_map_total {V A} (f : V -> list A) (m : JsMap V) :
  Z.of_nat (length (flat_map f (values m))) =
  total (fun v => Z.of_nat (length (f v))) m.
Proof.
  induction m as [|[k v] m IH]; [reflexivity|].
  change (values ((k, v) :: m)) with (v :: values m). cbn [flat_map].
  rewrite length_app, Nat2Z.inj_add, IH. reflexivity.
Qed.

(** X1.  The grouping splits the feed: the group keys are distinct; the
    items of a group are the items of the feed with the group's key, in the
    feed's order, and there is at least one; the product, variation and
    condition of a group are those of its first item; every item of the feed
    is in the group of its key; and the groups together hold as many items
    as the feed. *)
Theorem grouping_partitions_the_feed (items : list Item) :
  let groups := groupItemsByProductAndCondition items in
  NoDup (keys groups) /\
  (forall k g,
      In (k, g) groups ->
      g_items g = groupOf k items /\
      exists first rest,
        g_items g = first :: rest /\
        g_product g = productOf first /\
        g_variation g = variationOf first /\
        g_condition g = grade (variationOf first) ||| "Unknown") /\
  (forall item,
      In item items ->
      exists g, In (groupKeyOf item, g) groups /\ In item (g_items g)) /\
  length (flat_map g_items (values groups)) = length items.
Proof.
  intros groups. destruct (grouped_so_far_all items) as (Hnd & Hget & Htot).
  fold groups in Hnd, Hget, Htot. split; [exact Hnd|]. split; [|split].
  - intros k g Hin. apply in_get_NoDup in Hin; auto.
    specialize (Hget k). now rewrite Hin in Hget.
  - intros item Hin. specialize (Hget (groupKeyOf item)).
    assert (Hmine : In item (groupOf (groupKeyOf item) items)).
    { apply filter_In. split; auto. apply String.eqb_refl. }
    destruct (get (groupKeyOf item) groups) as [g|] eqn:E.
    + exists g. split; [now apply get_in|]. destruct Hget as [-> _]. exact Hmine.
    + rewrite Hget in Hmine. destruct Hmine.
  - apply Nat2Z.inj. now rewrite length_flat_map_total.
Qed.

(** ** Aggregation, option by option *)

Lemma filedUnder_app (P : Item -> bool) (key : Item -> string) k pre item :
  filedUnder P key k (pre ++ [item]) =
  (filedUnder P key k pre ++
   if P item && String.eqb (key item) k then [item] else [])%list.
Proof.
  unfold filedUnder. rewrite filter_app. simpl.
  now destruct (P item && String.eqb (key item) k).
Qed.

Lemma map_values_set_same {A} (proj : SelectedOption -> A) k o o'
    (m : JsMap SelectedOption) :
  get k m = Some o -> proj o' = proj o ->
  map proj (values (set k o' m)) = map proj (values m).
Proof.
  intros Hget Hproj. induction m as [|[k' v'] m IH]; simpl in *; [discriminate|].
  destruct (String.eqb k k') eqn:E; simpl.
  - inversion Hget; subst. now rewrite Hproj.
  - f_equal. now apply IH.
Qed.

Lemma freshIds_S next len :
  freshIds next (S len) = (freshIds next len ++ [(next + N.of_nat len)%N])%list.
Proof. unfold freshIds. now rewrite seq_S, map_app. Qed.

Section Filing.
Variables (creates counted : Item -> bool) (variantOfItem : Item -> string).
Variables (priceOf discountOf : Item -> Z).
Hypothesis counted_creates :
  forall item, counted item = true -> creates item = true.

Lemma filedUnder_none k pre :
  filedUnder creates (keyWith variantOfItem) k pre = [] ->
  filedUnder counted (keyWith variantOfItem) k pre = [].
Proof.
  intros H. destruct (filedUnder counted (keyWith variantOfItem) k pre)
    as [|item rest] eqn:E; auto.
  assert (Hin : In item (filedUnder counted (keyWith variantOfItem) k pre))
    by (rewrite E; now left).
  apply filter_In in Hin. destruct Hin as [Hin Hc].
  apply andb_true_iff in Hc. destruct Hc as [Hc Hk].
  assert (Hin' : In item (filedUnder creates (keyWith variantOfItem) k pre)).
  { apply filter_In. split; auto. now rewrite (@counted_creates _ Hc), Hk. }
  rewrite H in Hin'. destruct Hin'.
Qed.

Lemma filed_so_far_step next pre item acc :
  filed_so_far creates counted variantOfItem priceOf discountOf next pre acc ->
  filed_so_far creates counted variantOfItem priceOf discountOf next
    (pre ++ [item])
    (fileItem creates counted variantOfItem priceOf discountOf acc item).
Proof.
  destruct acc as [m n]. intros (Hnd & Hget & Htot & Hids & Hn).
  simpl in Hnd, Hget, Htot, Hids, Hn. unfold fileItem. simpl fst. simpl snd.
  destruct (creates item) eqn:Ec.
  - set (k0 := keyWith variantOfItem item).
    set (o0 := match get k0 m with
               | Some o => o
               | None => mkOption (colorOfItem item) (variantOfItem item) 0
                           (priceOf item) (discountOf item) [] n
               end).
    set (o1 := if counted item then countUnit (unitIdentifier item) o0 else o0).
    assert (Hfields : color o1 = color o0 /\ variant o1 = variant o0 /\
                      price o1 = price o0 /\ discount o1 = discount o0 /\
                      _id o1 = _id o0 /\
                      uniqueNumbers o1 =
                        (uniqueNumbers o0 ++
                         if counted item then [unitIdentifier item] else [])%list /\
                      stock o1 = (stock o0 + if counted item then 1 else 0)%Z).
    { unfold o1. destruct (counted item); simpl; repeat split; auto.
      - now rewrite app_nil_r.
      - lia. }
    destruct Hfields as (Hcol & Hvar & Hpr & Hdi & Hid & Hun & Hst).
    split; [|split; [|split; [|split]]]; simpl fst; simpl snd.
    + now apply NoDup_keys_set.
    + intros k. rewrite !filedUnder_app, Ec. fold k0.
      destruct (String.eqb k0 k) eqn:E.
      * apply String.eqb_eq in E. subst k. rewrite get_set_eq.
        rewrite Hun, Hst, Hcol, Hvar, Hpr, Hdi. specialize (Hget k0).
        unfold o0. destruct (get k0 m) as [o|] eqn:Eg.
        -- destruct Hget as (Hu & Hs & first & rest & Hf & Hrest).
           rewrite Hu, Hs, Hf, !andb_true_r. simpl andb.
           cbv iota.
           destruct (counted item).
           ++ rewrite map_app, length_app, Nat2Z.inj_add.
              split; [reflexivity|]. split; [reflexivity|].
              exists first, (rest ++ [item])%list. auto.
           ++ rewrite !app_nil_r, Z.add_0_r.
              split; [reflexivity|]. split; [reflexivity|].
              exists first, (rest ++ [item])%list. auto.
        -- rewrite Hget, (@filedUnder_none k0 pre Hget), !andb_true_r.
           simpl andb. cbv iota.
           destruct (counted item); (split; [reflexivity|]);
             (split; [reflexivity|]); exists item, []; auto.
      * apply String.eqb_neq in E. rewrite get_set_neq by assumption.
        rewrite !andb_false_r, !app_nil_r. apply Hget.
    + rewrite total_set, Htot, Hst, filter_app, length_app. simpl.
      specialize (Hget k0). unfold o0.
      destruct (get k0 m) as [o|]; destruct (counted item); simpl; lia.
    + rewrite length_set. unfold has. destruct (get k0 m) as [o|] eqn:Eg.
      * rewrite (@map_values_set_same _ _id k0 o o1 m Eg); auto.
      * rewrite set_fresh by (now apply get_none_keys).
        unfold values. rewrite map_app, map_app. fold (values m).
        rewrite Hids, freshIds_S. simpl. rewrite Hid. unfold o0.
        simpl. now rewrite Hn.
    + rewrite length_set. destruct (has k0 m); auto.
      rewrite Hn, Nat2N.inj_succ. lia.
  - assert (Hc : counted item = false).
    { destruct (counted item) eqn:E; auto.
      rewrite (@counted_creates _ E) in Ec. discriminate. }
    split; [|split; [|split; [|split]]]; simpl; auto.
    + intros k. rewrite !filedUnder_app, Ec, Hc. simpl. rewrite !app_nil_r.
      apply Hget.
    + rewrite filter_app. simpl. rewrite Hc, app_nil_r. exact Htot.
Qed.

Lemma filed_so_far_all next items :
  filed_so_far creates counted variantOfItem priceOf discountOf next items
    (fold_left (fileItem creates counted variantOfItem priceOf discountOf)
               items ([], next)).
Proof.
  apply (@fold_left_prefix _ _
           (filed_so_far creates counted variantOfItem priceOf discountOf next)
           (fileItem creates counted variantOfItem priceOf discountOf)
           (fun pre b a => @filed_so_far_step next pre b a) items [] ([], next)).
  split; [constructor|]. split; [intros k; reflexivity|].
  split; [reflexivity|]. split; [reflexivity|]. simpl. lia.
Qed.

End Filing.

Section FilingFacts.
Variables (creates counted : Item -> bool) (variantOfItem : Item -> string).
Variables (priceOf discountOf : Item -> Z).

Lemma filed_so_far_keyed next pre acc :
  filed_so_far creates counted variantOfItem priceOf discountOf next pre acc ->
  keyed (fst acc).
Proof.
  intros (Hnd & Hget & _). unfold keyed. apply Forall_forall.
  intros [k o] Hin. simpl. apply in_get_NoDup in Hin; auto.
  specialize (Hget k). rewrite Hin in Hget.
  destruct Hget as (_ & _ & first & rest & Hf & Hc & Hv & _).
  assert (Hfirst : In first (filedUnder creates (keyWith variantOfItem) k pre))
    by (rewrite Hf; now left).
  apply filter_In in Hfirst. destruct Hfirst as [_ Hk].
  apply andb_true_iff in Hk. destruct Hk as [_ Hk].
  apply String.eqb_eq in Hk. rewrite <- Hk.
  unfold keyOf, keyWith. now rewrite Hc, Hv.
Qed.

Lemma filed_so_far_option next pre acc o :
  filed_so_far creates counted variantOfItem priceOf discountOf next pre acc ->
  In o (values (fst acc)) -> get (keyOf o) (fst acc) = Some o.
Proof.
  intros H Hin. pose proof (filed_so_far_keyed H) as Hk.
  destruct H as (Hnd & _). unfold values in Hin. apply in_map_iff in Hin.
  destruct Hin as ([k o'] & Ho & Hin). simpl in Ho. subst o'.
  unfold keyed in Hk. rewrite Forall_forall in Hk.
  pose proof (Hk _ Hin) as E. simpl in E. subst k.
  now apply in_get_NoDup.
Qed.

Lemma filed_so_far_has next pre acc item :
  filed_so_far creates counted variantOfItem priceOf discountOf next pre acc ->
  In item pre -> creates item = true ->
  exists o, In o (values (fst acc)) /\ keyOf o = keyWith variantOfItem item.
Proof.
  intros H Hin Hc. pose proof (filed_so_far_keyed H) as Hk.
  destruct H as (_ & Hget & _). specialize (Hget (keyWith variantOfItem item)).
  assert (Hmine : In item (filedUnder creates (keyWith variantOfItem)
                             (keyWith variantOfItem item) pre)).
  { apply filter_In. split; auto. now rewrite Hc, String.eqb_refl. }
  destruct (get (keyWith variantOfItem item) (fst acc)) as [o|] eqn:E.
  - exists o. apply get_in in E. split.
    + unfold values. change o with (snd (keyWith variantOfItem item, o)).
      now apply in_map.
    + unfold keyed in Hk. rewrite Forall_forall in Hk.
      symmetry. exact (Hk _ E).
  - rewrite Hget in Hmine. destruct Hmine.
Qed.

End FilingFacts.

Lemma fold_left_ext {A B} (f g : A -> B -> A) :
  (forall a b, f a b = g a b) ->
  forall l a, fold_left f l a = fold_left g l a.
Proof.
  intros H. induction l as [|b l IH]; intros a; simpl; auto.
  now rewrite H, IH.
Qed.

(** A turn of the generic aggregation has the shared shape: every item
    opens its option, the items not [Sold] are counted, the price is the
    item's and the discount 0. *)
Lemma addGeneric_fileItem acc item :
  addGeneric acc item =
  fileItem (fun _ => true) (fun item => negb (isSold item))
           (fun item => genericVariant (productOf item))
           total_price_paid (fun _ => 0%Z) acc item.
Proof.
  destruct acc as [m n].
  unfold addGeneric, fileItem, keyWith, colorOfItem, isSold, update, has.
  simpl fst. simpl snd.
  set (k := optionKey (p_color (productOf item) ||| "Unknown")
                      (genericVariant (productOf item))).
  destruct (get k m) as [o|] eqn:Eg.
  - destruct (String.eqb (status item) "Sold"); simpl.
    + now rewrite set_get_same.
    + now rewrite Eg.
  - destruct (String.eqb (status item) "Sold"); simpl.
    + reflexivity.
    + now rewrite get_set_eq, set_set.
Qed.

(** A turn of the restricted aggregation has it too: the [Available] items
    open an option and are counted, price and discount are the item's price
    in dollars. *)
Lemma addWholecell_fileItem adminProductMap acc item :
  addWholecell adminProductMap acc item =
  fileItem available available
           (fun item =>
              wholecellVariant (capacity (productOf item) ||| "")
                (get (Js.toLowerCase (candidateName (productOf item)))
                     adminProductMap))
           (fun item => Js.round_div100 (total_price_paid item))
           (fun item => Js.round_div100 (total_price_paid item)) acc item.
Proof.
  destruct acc as [m n].
  unfold addWholecell, fileItem, keyWith, colorOfItem, available, update, has.
  simpl fst. simpl snd.
  destruct (String.eqb (status item) "Available"); simpl; [|reflexivity].
  set (k := optionKey (p_color (productOf item) ||| "Unknown") _).
  destruct (get k m) as [o|] eqn:Eg.
  - now rewrite Eg.
  - now rewrite get_set_eq, set_set.
Qed.

Lemma generic_filed items next :
  filed_so_far (fun _ => true) (fun item => negb (isSold item))
    (fun item => genericVariant (productOf item)) total_price_paid
    (fun _ => 0%Z) next items (fold_left addGeneric items ([], next)).
Proof.
  rewrite (fold_left_ext _ _ addGeneric_fileItem).
  now apply filed_so_far_all.
Qed.

Lemma wholecell_filed items adminProductMap next :
  filed_so_far available available
    (fun item =>
       wholecellVariant (capacity (productOf item) ||| "")
         (get (Js.toLowerCase (candidateName (productOf item))) adminProductMap))
    (fun item => Js.round_div100 (total_price_paid item))
    (fun item => Js.round_div100 (total_price_paid item)) next items
    (fold_left (addWholecell adminProductMap) items ([], next)).
Proof.
  rewrite (fold_left_ext _ _ (addWholecell_fileItem adminProductMap)).
  now apply filed_so_far_all.
Qed.

Lemma createSelectedOptions_fold items next :
  createSelectedOptions items next =
  (values (fst (fold_left addGeneric items ([], next))),
   snd (fold_left addGeneric items ([], next))).
Proof.
  unfold createSelectedOptions. now destruct (fold_left addGeneric items _).
Qed.

Lemma aggregateWholecell_fold items adminProducts next :
  aggregateWholecell items adminProducts next =
  (values (fst (fold_left (addWholecell (adminProductMapOf adminProducts))
                          items ([], next))),
   snd (fold_left (addWholecell (adminProductMapOf adminProducts))
                  items ([], next))).
Proof.
  unfold aggregateWholecell.
  now destruct (fold_left (addWholecell _) items _).
Qed.

(** X2.  The options the generic adapter builds from the items of a group:
    no two share a key, every item has the option of its key, and an option
    lists the unit identifiers of the items of its key that are not [Sold],
    in the feed's order, its stock being their number.  Its colour, variant
    and price are read off the first item of its key, [Sold] or not, and its
    discount is 0. *)
Theorem generic_option_holds_the_units_of_its_key (items : list Item) (next : N) :
  let options := fst (createSelectedOptions items next) in
  NoDup (map keyOf options) /\
  (forall item,
      In item items ->
      exists o, In o options /\ keyOf o = genericKeyOf item) /\
  (forall o,
      In o options ->
      let counted :=
        filedUnder (fun item => negb (isSold item)) genericKeyOf (keyOf o) items in
      uniqueNumbers o = map unitIdentifier counted /\
      stock o = Z.of_nat (length counted) /\
      discount o = 0%Z /\
      exists first rest,
        filedUnder (fun _ => true) genericKeyOf (keyOf o) items = first :: rest /\
        color o = p_color (productOf first) ||| "Unknown" /\
        variant o = genericVariant (productOf first) /\
        price o = total_price_paid first).
Proof.
  intros options. unfold options. rewrite createSelectedOptions_fold. simpl fst.
  pose proof (generic_filed items next) as H.
  split; [|split].
  - rewrite (keyed_keys (filed_so_far_keyed H)). now destruct H.
  - intros item Hin.
    exact (@filed_so_far_has _ _ _ _ _ _ _ _ item H Hin eq_refl).
  - intros o Hin. pose proof (@filed_so_far_option _ _ _ _ _ _ _ _ o H Hin) as Hget.
    destruct H as (_ & Hall & _). specialize (Hall (keyOf o)).
    rewrite Hget in Hall.
    destruct Hall as (Hu & Hs & first & rest & Hf & Hc & Hv & Hp & Hd).
    cbv zeta. repeat (split; [assumption|]). exists first, rest. auto.
Qed.

(** X3.  The options the restricted adapter builds: no two share a key,
    every [Available] item has the option of its key, and an option lists
    the unit identifiers of the [Available] items of its key, in the feed's
    order, of which there is at least one, its stock being their number.  Its
    colour, variant and price are read off the first of them, the price being
    that item's price in dollars, and the discount equals the price. *)
Theorem wholecell_option_holds_the_units_of_its_key
    (items : list Item) (adminProducts : list AdminProduct) (next : N) :
  let adminProductMap := adminProductMapOf adminProducts in
  let options := fst (aggregateWholecell items adminProducts next) in
  NoDup (map keyOf options) /\
  (forall item,
      In item items -> available item = true ->
      exists o, In o options /\ keyOf o = wholecellKeyOf adminProductMap item) /\
  (forall o,
      In o options ->
      let counted :=
        filedUnder available (wholecellKeyOf adminProductMap) (keyOf o) items in
      uniqueNumbers o = map unitIdentifier counted /\
      stock o = Z.of_nat (length counted) /\
      exists first rest,
        counted = first :: rest /\
        color o = p_color (productOf first) ||| "Unknown" /\
        variant o =
          wholecellVariant (capacity (productOf first) ||| "")
            (get (Js.toLowerCase (candidateName (productOf first)))
                 adminProductMap) /\
        price o = Js.round_div100 (total_price_paid first) /\
        discount o = price o).
Proof.
  intros adminProductMap options. unfold options.
  rewrite aggregateWholecell_fold. simpl fst. fold adminProductMap.
  pose proof (wholecell_filed items adminProductMap next) as H.
  split; [|split].
  - rewrite (keyed_keys (filed_so_far_keyed H)). now destruct H.
  - intros item Hin Ha.
    exact (@filed_so_far_has _ _ _ _ _ _ _ _ item H Hin Ha).
  - intros o Hin. pose proof (@filed_so_far_option _ _ _ _ _ _ _ _ o H Hin) as Hget.
    destruct H as (_ & Hall & _). specialize (Hall (keyOf o)).
    rewrite Hget in Hall.
    destruct Hall as (Hu & Hs & first & rest & Hf & Hc & Hv & Hp & Hd).
    cbv zeta. repeat (split; [assumption|]). exists first, rest.
    repeat (split; [assumption|]). congruence.
Qed.

(** ** The variant descriptor, adapter by adapter *)

Lemma or_else_empty x : x ||| "" = x.
Proof.
  unfold Js.or_else. destruct (String.eqb x "") eqn:E; [|reflexivity].
  apply String.eqb_eq in E. now subst x.
Qed.

Lemma available_status item : available item = true <-> status item = "Available".
Proof. unfold available. apply String.eqb_eq. Qed.

Lemma in_productNames n items :
  In n (productNames items) <->
  n <> "" /\
  exists item,
    In item items /\ status item = "Available" /\
    candidateName (productOf item) = n.
Proof.
  unfold productNames. rewrite filter_In, in_map_iff. split.
  - intros [(item & <- & Hin) Ht]. apply filter_In in Hin.
    destruct Hin as [Hin Ha]. apply String.eqb_eq in Ha. split; [|eauto].
    intros E. rewrite E in Ht. discriminate.
  - intros (Hn & item & Hin & Ha & <-). split.
    + exists item. split; [reflexivity|]. apply filter_In. split; auto.
      now apply String.eqb_eq.
    + unfold Js.truthy. destruct (String.eqb _ "") eqn:E; [|reflexivity].
      apply String.eqb_eq in E. contradiction.
Qed.

(** C7, amended.  Each adapter has its own order.  Restricted: the
    descriptor of an item is read off its capacity and the storage
    specification of a catalog entry fetched anew for the aggregation: of
    the entries whose name is exactly the candidate name of an [Available]
    item of the group, the last one that bears the item's own candidate
    name, letter case apart; this need not be the product the group was
    matched to.  It is "Unknown" when the item has no capacity; with a
    capacity and no such entry, or one without a specification, the capacity
    followed by "GB 4GB RAM"; with both, the first token of the
    specification that contains the capacity followed by "GB", else the
    first that contains the capacity, else "Unknown".  Every [Available]
    item is counted in the option whose key is its colour and its descriptor
    joined by "_", and every option bears the colour and the descriptor of
    one of the items counted in it.  Generic: the descriptor is the vendor's
    label, else the capacity followed by "GB", else "Standard"; every item
    has the option of its colour and descriptor, which counts it unless it
    is [Sold]. *)
Theorem variant_descriptor_by_adapter :
  (forall items w opts w',
      createSelectedOptionsForWholecell items w = (Ok opts, w') ->
      let descriptor item :=
        wholecellVariant (capacity (productOf item))
          (specSource (fetchedFor w items) (candidateName (productOf item))) in
      (forall item,
          In item items -> status item = "Available" ->
          exists o,
            In o opts /\ In (unitIdentifier item) (uniqueNumbers o) /\
            keyOf o = optionKey (colorOfItem item) (descriptor item)) /\
      (forall o,
          In o opts ->
          exists item,
            In item items /\ status item = "Available" /\
            In (unitIdentifier item) (uniqueNumbers o) /\
            color o = colorOfItem item /\ variant o = descriptor item)) /\
  (forall items w a,
      In a (fetchedFor w items) <->
      In a (tep_admin_products w) /\ name a <> "" /\
      exists item,
        In item items /\ status item = "Available" /\
        candidateName (productOf item) = name a) /\
  (forall adminProduct, wholecellVariant "" adminProduct = "Unknown") /\
  (forall cap, cap <> "" -> wholecellVariant cap None = cap ++ "GB 4GB RAM") /\
  (forall cap a,
      cap <> "" -> storage a = "" ->
      wholecellVariant cap (Some a) = cap ++ "GB 4GB RAM") /\
  (forall cap a,
      cap <> "" -> storage a <> "" ->
      wholecellVariant cap (Some a) =
      match find (Js.includes (cap ++ "GB")) (Js.split ", " (storage a)) with
      | Some t => t
      | None =>
          match find (Js.includes cap) (Js.split ", " (storage a)) with
          | Some t => t
          | None => "Unknown"
          end
      end) /\
  (forall items next,
      let opts := fst (createSelectedOptions items next) in
      (forall item,
          In item items ->
          exists o,
            In o opts /\
            keyOf o = optionKey (colorOfItem item) (genericVariant (productOf item)) /\
            (status item <> "Sold" -> In (unitIdentifier item) (uniqueNumbers o))) /\
      (forall o,
          In o opts ->
          exists item,
            In item items /\ color o = colorOfItem item /\
            variant o = genericVariant (productOf item))) /\
  (forall product,
      genericVariant product =
      if Js.truthy (p_variant product) then p_variant product
      else if Js.truthy (capacity product) then capacity product ++ "GB"
      else "Standard").
Proof.
  assert (Hcap : forall cap, cap <> "" -> Js.truthy cap = true).
  { intros cap Hc. unfold Js.truthy. destruct (String.eqb cap "") eqn:E; auto.
    apply String.eqb_eq in E. contradiction. }
  split; [|split; [|split; [|split; [|split; [|split; [|split]]]]]].
  - intros items w opts w' Hrun descriptor.
    apply createSelectedOptionsForWholecell_Ok in Hrun.
    destruct Hrun as (_ & -> & _). fold (fetchedFor w items).
    rewrite aggregateWholecell_fold. simpl fst.
    pose proof (wholecell_filed items (adminProductMapOf (fetchedFor w items))
                  (next_oid w)) as H.
    assert (Hd : forall item,
               wholecellVariant (capacity (productOf item) ||| "")
                 (get (Js.toLowerCase (candidateName (productOf item)))
                      (adminProductMapOf (fetchedFor w items))) = descriptor item).
    { intros item. unfold descriptor.
      now rewrite or_else_empty, get_adminProductMapOf_last. }
    split.
    + intros item Hin Hs. apply available_status in Hs.
      destruct (@filed_so_far_has _ _ _ _ _ _ _ _ item H Hin Hs) as (o & Ho & Hk).
      exists o. split; [exact Ho|].
      pose proof (@filed_so_far_option _ _ _ _ _ _ _ _ o H Ho) as Hget.
      destruct H as (_ & Hall & _). specialize (Hall (keyOf o)).
      rewrite Hget in Hall. destruct Hall as (Hu & _).
      split.
      * rewrite Hu. apply in_map. apply filter_In. split; [exact Hin|].
        now rewrite Hs, Hk, String.eqb_refl.
      * rewrite Hk. unfold keyWith. now rewrite Hd.
    + intros o Ho.
      pose proof (@filed_so_far_option _ _ _ _ _ _ _ _ o H Ho) as Hget.
      destruct H as (_ & Hall & _). specialize (Hall (keyOf o)).
      rewrite Hget in Hall.
      destruct Hall as (Hu & _ & first & rest & Hf & Hc & Hv & _).
      assert (Hfirst : In first (filedUnder available
                (keyWith (fun item =>
                   wholecellVariant (capacity (productOf item) ||| "")
                     (get (Js.toLowerCase (candidateName (productOf item)))
                          (adminProductMapOf (fetchedFor w items)))))
                (keyOf o) items)) by (rewrite Hf; now left).
      exists first. pose proof Hfirst as Hfirst'.
      apply filter_In in Hfirst'. destruct Hfirst' as [Hin Ha].
      apply andb_true_iff in Ha. destruct Ha as [Ha _].
      split; [exact Hin|]. split; [now apply available_status|].
      split; [rewrite Hu; now apply in_map|].
      split; [exact Hc|]. now rewrite Hv, Hd.
  - intros items w a. unfold fetchedFor. rewrite filter_In, existsb_exists.
    split.
    + intros (Hin & n & Hn & E). apply String.eqb_eq in E. subst n.
      apply in_productNames in Hn. tauto.
    + intros (Hin & Hne & Hitem). split; [exact Hin|].
      exists (name a). split; [|apply String.eqb_refl].
      apply in_productNames. auto.
  - intros [a|]; reflexivity.
  - intros cap Hc. unfold wholecellVariant. rewrite (Hcap cap Hc). reflexivity.
  - intros cap a Hc Hs. unfold wholecellVariant. rewrite (Hcap cap Hc), Hs.
    reflexivity.
  - intros cap a Hc Hs. unfold wholecellVariant, findMatchingStorageSpec.
    rewrite (Hcap cap Hc), (Hcap _ Hs). reflexivity.
  - intros items next opts. unfold opts. rewrite createSelectedOptions_fold.
    simpl fst. pose proof (generic_filed items next) as H. split.
    + intros item Hin.
      destruct (@filed_so_far_has _ _ _ _ _ _ _ _ item H Hin eq_refl)
        as (o & Ho & Hk).
      exists o. split; [exact Ho|]. split; [exact Hk|].
      intros Hs.
      pose proof (@filed_so_far_option _ _ _ _ _ _ _ _ o H Ho) as Hget.
      destruct H as (_ & Hall & _). specialize (Hall (keyOf o)).
      rewrite Hget in Hall. destruct Hall as (Hu & _).
      rewrite Hu. apply in_map. apply filter_In. split; [exact Hin|].
      rewrite Hk, String.eqb_refl, andb_true_r. unfold isSold.
      destruct (String.eqb (status item) "Sold") eqn:E; [|reflexivity].
      apply String.eqb_eq in E. contradiction.
    + intros o Ho.
      pose proof (@filed_so_far_option _ _ _ _ _ _ _ _ o H Ho) as Hget.
      destruct H as (_ & Hall & _). specialize (Hall (keyOf o)).
      rewrite Hget in Hall.
      destruct Hall as (_ & _ & first & rest & Hf & Hc & Hv & _).
      exists first. split; [|split; assumption].
      assert (Hfirst : In first (filedUnder (fun _ => true)
                (keyWith (fun item => genericVariant (productOf item)))
                (keyOf o) items)) by (rewrite Hf; now left).
      apply filter_In in Hfirst. tauto.
  - intros product. unfold genericVariant.
    destruct (Js.truthy (p_variant product)) eqn:E1.
    + rewrite (or_else_truthy (p_variant product) _ E1).
      now rewrite or_else_truthy.
    + apply truthy_false in E1. rewrite E1, or_else_falsy.
      destruct (Js.truthy (capacity product)) eqn:E2.
      * rewrite or_else_truthy; auto.
        unfold Js.truthy. destruct (capacity product); reflexivity.
      * reflexivity.
Qed.

(** The unit spelled "ACME" "x1" is counted in "Black_128GB 4GB RAM",
    the entry "Acme X1" not being fetched for it; the units spelled as the
    catalog spells them are counted under the token of its specification. *)
Lemma variant_descriptor_by_adapter_witness :
  (exists o,
      In o [mkOption "Black" "128GB 4GB RAM" 1 100 100 ["esn-5"] 100] /\
      In "esn-5" (uniqueNumbers o) /\ keyOf o = "Black_128GB 4GB RAM") /\
  (exists o,
      In o [mkOption "Black" "128GB 6GB RAM" 2 100 100 ["esn-1"; "esn-2"] 100] /\
      In "esn-2" (uniqueNumbers o) /\ keyOf o = "Black_128GB 6GB RAM").
Proof.
  split.
  - destruct (proj1 variant_descriptor_by_adapter [Cases.shouted]
                (Sample.world [Sample.acmeX1 "64GB 4GB RAM, 128GB 6GB RAM"] [] []
                   None)
                [mkOption "Black" "128GB 4GB RAM" 1 100 100 ["esn-5"] 100]
                (snd (createSelectedOptionsForWholecell [Cases.shouted]
                        (Sample.world
                           [Sample.acmeX1 "64GB 4GB RAM, 128GB 6GB RAM"] [] []
                           None)))
                eq_refl) as [Hitem _].
    apply (Hitem Cases.shouted); [now left|reflexivity].
  - destruct (proj1 variant_descriptor_by_adapter Sample.twoUnits
                (Sample.world [Sample.acmeX1 "64GB 4GB RAM, 128GB 6GB RAM"] [] []
                   None)
                [mkOption "Black" "128GB 6GB RAM" 2 100 100 ["esn-1"; "esn-2"]
                          100]
                (snd (createSelectedOptionsForWholecell Sample.twoUnits
                        (Sample.world
                           [Sample.acmeX1 "64GB 4GB RAM, 128GB 6GB RAM"] [] []
                           None)))
                eq_refl) as [Hitem _].
    apply (Hitem (Sample.unit "128" "" "A" "Available" "esn-2"));
      [right; now left|reflexivity].
Defined.

(** ** Aggregation, in total *)

Lemma totalStock_sum opts :
  totalStock opts = fold_right (fun o s => (stock o + s)%Z) 0%Z opts.
Proof.
  unfold totalStock.
  assert (H : forall l a,
             fold_left (fun sum opt => (sum + stock opt)%Z) l a =
             (a + fold_right (fun o s => (stock o + s)%Z) 0%Z l)%Z).
  { induction l as [|o l IH]; intros a; simpl; [lia|]. rewrite IH. lia. }
  now rewrite H.
Qed.

Lemma totalStock_values (m : JsMap SelectedOption) :
  totalStock (values m) = total stock m.
Proof. now rewrite totalStock_sum, total_values. Qed.

Lemma totalStock_nonneg opts :
  Forall (fun o => (0 <= stock o)%Z) opts -> (0 <= totalStock opts)%Z.
Proof.
  rewrite totalStock_sum. induction 1 as [|o l Ho Hl IH]; simpl; lia.
Qed.

(** With no stock below zero, [noStock] says that the stocks add up to 0. *)
Lemma noStock_total opts :
  Forall (fun o => (0 <= stock o)%Z) opts ->
  noStock opts = (totalStock opts =? 0)%Z.
Proof.
  intros H. unfold noStock. destruct opts as [|o0 l0]; [reflexivity|].
  change (length (o0 :: l0) =? 0)%nat with false. rewrite orb_false_l.
  induction H as [|o l Ho Hl IH]; [reflexivity|].
  pose proof (totalStock_nonneg Hl) as Hn.
  rewrite totalStock_sum in *. simpl. rewrite IH.
  destruct (Z.eqb_spec (stock o) 0) as [E|E]; simpl.
  - now rewrite E.
  - symmetry. apply Z.eqb_neq. lia.
Qed.

Lemma none_counted_all_sold items :
  (Z.of_nat (length (filter (fun item => negb (isSold item)) items)) =? 0)%Z =
  forallb isSold items.
Proof.
  induction items as [|item items IH]; [reflexivity|]. simpl.
  destruct (isSold item); simpl; auto.
Qed.

Lemma generic_stock_nonneg items next :
  Forall (fun o => (0 <= stock o)%Z) (fst (createSelectedOptions items next)).
Proof.
  apply Forall_forall. intros o Hin.
  rewrite createSelectedOptions_fold in Hin. simpl fst in Hin.
  pose proof (generic_filed items next) as H.
  pose proof (@filed_so_far_option _ _ _ _ _ _ _ _ o H Hin) as Hget.
  destruct H as (_ & Hall & _). specialize (Hall (keyOf o)).
  rewrite Hget in Hall. destruct Hall as (_ & -> & _). lia.
Qed.

Lemma createSelectedOptions_total items next :
  totalStock (fst (createSelectedOptions items next)) =
  Z.of_nat (length (filter (fun item => negb (isSold item)) items)).
Proof.
  rewrite createSelectedOptions_fold. simpl fst. rewrite totalStock_values.
  now destruct (generic_filed items next) as (_ & _ & H & _).
Qed.

Lemma aggregateWholecell_total items adminProducts next :
  totalStock (fst (aggregateWholecell items adminProducts next)) =
  Z.of_nat (length (filter available items)).
Proof.
  rewrite aggregateWholecell_fold. simpl fst. rewrite totalStock_values.
  now destruct (wholecell_filed items (adminProductMapOf adminProducts) next)
    as (_ & _ & H & _).
Qed.

(** X4.  Both aggregations count every unit once: the stocks of the options
    of the generic adapter add up to the number of items that are not
    [Sold], those of the restricted adapter to the number of items that are
    [Available]. *)
Theorem aggregations_count_every_unit_once (items : list Item) (next : N) :
  totalStock (fst (createSelectedOptions items next)) =
    Z.of_nat (length (filter (fun item => negb (isSold item)) items)) /\
  forall adminProducts,
    totalStock (fst (aggregateWholecell items adminProducts next)) =
    Z.of_nat (length (filter available items)).
Proof.
  split.
  - apply createSelectedOptions_total.
  - intros adminProducts. apply aggregateWholecell_total.
Qed.

Lemma freshIds_below next len i :
  In i (freshIds next len) -> (i < next + N.of_nat len)%N.
Proof.
  unfold freshIds. intros H. apply in_map_iff in H.
  destruct H as (j & <- & Hj). apply in_seq in Hj. lia.
Qed.

Lemma NoDup_freshIds next len : NoDup (freshIds next len).
Proof.
  induction len as [|len IH]; [constructor|].
  rewrite freshIds_S. apply NoDup_app; auto.
  - repeat constructor. simpl. tauto.
  - intros i Hi [<-|[]]. apply freshIds_below in Hi. lia.
Qed.

(** X5.  The options of an aggregation get the identifiers [next],
    [next + 1], ... in the order in which their keys first appear, so no two
    options of a group share an identifier, and the counter is left one past
    the last identifier given. *)
Theorem options_get_fresh_identifiers (items : list Item) (next : N) :
  (let r := createSelectedOptions items next in
   map _id (fst r) = freshIds next (length (fst r)) /\
   NoDup (map _id (fst r)) /\
   snd r = (next + N.of_nat (length (fst r)))%N) /\
  (forall adminProducts,
      let r := aggregateWholecell items adminProducts next in
      map _id (fst r) = freshIds next (length (fst r)) /\
      NoDup (map _id (fst r)) /\
      snd r = (next + N.of_nat (length (fst r)))%N).
Proof.
  split.
  - cbv zeta. rewrite createSelectedOptions_fold. simpl fst. simpl snd.
    destruct (generic_filed items next) as (_ & _ & _ & Hids & Hn).
    unfold values at 2 4. rewrite length_map.
    split; [exact Hids|]. split; [|exact Hn].
    rewrite Hids. apply NoDup_freshIds.
  - intros adminProducts. cbv zeta. rewrite aggregateWholecell_fold.
    simpl fst. simpl snd.
    destruct (wholecell_filed items (adminProductMapOf adminProducts) next)
      as (_ & _ & _ & Hids & Hn).
    unfold values at 2 4. rewrite length_map.
    split; [exact Hids|]. split; [|exact Hn].
    rewrite Hids. apply NoDup_freshIds.
Qed.

(** X6.  A group of the generic adapter has no stock exactly when every
    item of it is [Sold] (an empty group included).  Such a group adds no
    operation and does not come to read [condition]: once its product is
    resolved, the body of the first loop returns the tally it was given,
    having changed nothing in the stores but what the resolution did. *)
Theorem sold_out_group_pushes_nothing :
  (forall items next,
      noStock (fst (createSelectedOptions items next)) = forallb isSold items) /\
  (forall vendorApi groupData t w product w1,
      forallb isSold (g_items groupData) = true ->
      findOrCreateProduct (g_product groupData) w = (Ok product, w1) ->
      fst (genericGroup vendorApi groupData t w) = Ok t /\
      stores_kept w1 (snd (genericGroup vendorApi groupData t w))).
Proof.
  assert (Hno : forall items next,
             noStock (fst (createSelectedOptions items next)) =
             forallb isSold items).
  { intros items next. rewrite noStock_total by apply generic_stock_nonneg.
    rewrite createSelectedOptions_total.
    apply none_counted_all_sold. }
  split; [exact Hno|].
  intros vendorApi groupData t w product w1 Hsold Hfind.
  unfold genericGroup, bind. rewrite Hfind. unfold drawing.
  pose proof (Hno (g_items groupData) (next_oid w1)) as Hn.
  destruct (createSelectedOptions (g_items groupData) (next_oid w1))
    as [opts n] eqn:E.
  simpl in Hn. rewrite Hn, Hsold. simpl. repeat split.
Qed.

(** ** The merge, as a whole *)

(** Options with distinct keys go into a map one after the other. *)
Lemma fold_set_fresh (l : list SelectedOption) :
  NoDup (map keyOf l) ->
  forall m,
    (forall o, In o l -> ~ In (keyOf o) (keys m)) ->
    fold_left (fun m opt => set (keyOf opt) opt m) l m =
    (m ++ map (fun o => (keyOf o, o)) l)%list.
Proof.
  induction l as [|o l IH]; simpl; intros Hnd m Hm.
  - now rewrite app_nil_r.
  - inversion Hnd as [|? ? Hnotin Hnd']; subst.
    rewrite set_fresh by (apply Hm; now left).
    rewrite IH; auto.
    + now rewrite <- app_assoc.
    + intros o' Hin. unfold keys. rewrite map_app, in_app_iff. simpl.
      intros [H|[H|[]]].
      * apply (Hm o'); auto.
      * apply Hnotin. rewrite H. now apply in_map.
Qed.

Lemma values_of_options (l : list SelectedOption) :
  values (map (fun o => (keyOf o, o)) l) = l.
Proof. unfold values. rewrite map_map. simpl. apply map_id. Qed.

Lemma existing_as_map (existing : list SelectedOption) :
  NoDup (map keyOf existing) ->
  fold_left (fun m opt => set (keyOf opt) opt m) existing [] =
  map (fun o => (keyOf o, o)) existing.
Proof.
  intros Hnd. rewrite fold_set_fresh; auto.
Qed.

(** A turn of the merge puts one value under the key of the new option. *)
Lemma mergeStep_set m o :
  mergeStep m o =
  set (keyOf o)
      (match get (keyOf o) m with Some e => mergeInto e o | None => o end) m.
Proof. unfold mergeStep. now destruct (get (keyOf o) m). Qed.

Lemma total_mergeStep (f : SelectedOption -> Z) m o :
  (forall e, f (mergeInto e o) = f e + f o)%Z ->
  total f (mergeStep m o) = (total f m + f o)%Z.
Proof.
  intros Hf. rewrite mergeStep_set, total_set.
  destruct (get (keyOf o) m) as [e|]; [rewrite Hf|]; lia.
Qed.

Lemma total_fold_mergeStep (f : SelectedOption -> Z) (new : list SelectedOption) :
  (forall e o, f (mergeInto e o) = f e + f o)%Z ->
  forall m,
    total f (fold_left mergeStep new m) =
    (total f m + fold_right (fun o s => f o + s) 0 new)%Z.
Proof.
  intros Hf. induction new as [|o new IH]; intros m; simpl; [lia|].
  rewrite IH, total_mergeStep by (intros e; apply Hf). lia.
Qed.

Lemma total_of_options (f : SelectedOption -> Z) (l : list SelectedOption) :
  total f (map (fun o => (keyOf o, o)) l) =
  fold_right (fun o s => (f o + s)%Z) 0%Z l.
Proof. induction l as [|o l IH]; simpl; [|rewrite IH]; reflexivity. Qed.

Lemma length_flat_map_sum {A B} (f : A -> list B) (l : list A) :
  Z.of_nat (length (flat_map f l)) =
  fold_right (fun a s => (Z.of_nat (length (f a)) + s)%Z) 0%Z l.
Proof.
  induction l as [|a l IH]; simpl; [reflexivity|].
  now rewrite length_app, Nat2Z.inj_add, IH.
Qed.

Lemma keys_fold_set (l : list SelectedOption) k :
  forall m,
    In k (keys (fold_left (fun m opt => set (keyOf opt) opt m) l m)) <->
    In k (keys m) \/ In k (map keyOf l).
Proof.
  induction l as [|o l IH]; intros m; simpl; [tauto|].
  rewrite IH, keys_set. destruct (has (keyOf o) m) eqn:E.
  - apply has_true_keys in E. split; [tauto|].
    intros [H|[<-|H]]; auto.
  - rewrite in_app_iff. simpl. tauto.
Qed.

Lemma keys_fold_mergeStep (l : list SelectedOption) k :
  forall m,
    In k (keys (fold_left mergeStep l m)) <->
    In k (keys m) \/ In k (map keyOf l).
Proof.
  induction l as [|o l IH]; intros m; simpl; [tauto|].
  rewrite IH, mergeStep_set, keys_set. destruct (has (keyOf o) m) eqn:E.
  - apply has_true_keys in E. split; [tauto|].
    intros [H|[<-|H]]; auto.
  - rewrite in_app_iff. simpl. tauto.
Qed.

Lemma merged_keyed existing new :
  keyed (fold_left mergeStep new
           (fold_left (fun m opt => set (keyOf opt) opt m) existing [])).
Proof.
  apply fold_left_invariant; [intros m o; apply keyed_mergeStep|].
  apply (fold_left_invariant keyed); [intros m o; apply keyed_set|].
  constructor.
Qed.

(** X7.  Merging into a list of persisted options with distinct keys loses
    nothing and invents nothing: the stocks of the merged list add up to
    those of the two lists together, so do the numbers of unit identifiers
    listed (a unit seen again is listed again), and the keys of the merged
    list are the keys of the one list or the other. *)
Theorem merge_adds_up (existing new : list SelectedOption) :
  NoDup (map keyOf existing) ->
  let merged := mergeSelectedOptions existing new in
  totalStock merged = (totalStock existing + totalStock new)%Z /\
  length (flat_map uniqueNumbers merged) =
    (length (flat_map uniqueNumbers existing) +
     length (flat_map uniqueNumbers new))%nat /\
  (forall k,
      In k (map keyOf merged) <->
      In k (map keyOf existing) \/ In k (map keyOf new)).
Proof.
  intros Hnd merged. unfold merged, mergeSelectedOptions. split; [|split].
  - rewrite totalStock_values, total_fold_mergeStep by reflexivity.
    rewrite existing_as_map, total_of_options, !totalStock_sum by assumption.
    reflexivity.
  - apply Nat2Z.inj. rewrite Nat2Z.inj_add, length_flat_map_total.
    rewrite total_fold_mergeStep.
    + rewrite existing_as_map, total_of_options by assumption.
      now rewrite !length_flat_map_sum.
    + intros e o. simpl. now rewrite length_app, Nat2Z.inj_add.
  - intros k. rewrite (keyed_keys (merged_keyed existing new)).
    rewrite keys_fold_mergeStep, keys_fold_set. simpl. tauto.
Qed.

Lemma map_values_mergeStep {A} (proj : SelectedOption -> A) m o :
  (forall e, proj (mergeInto e o) = proj e) ->
  map proj (values (mergeStep m o)) =
  (map proj (values m) ++ if has (keyOf o) m then [] else [proj o])%list.
Proof.
  intros Hp. rewrite mergeStep_set. unfold has.
  destruct (get (keyOf o) m) as [e|] eqn:E.
  - rewrite (@map_values_set_same _ proj (keyOf o) e _ m E (Hp e)).
    now rewrite app_nil_r.
  - rewrite set_fresh by (now apply get_none_keys).
    unfold values. now rewrite !map_app.
Qed.

Lemma map_values_fold_mergeStep {A} (proj : SelectedOption -> A)
    (new : list SelectedOption) :
  (forall e o, proj (mergeInto e o) = proj e) ->
  forall m,
  exists added,
    map proj (values (fold_left mergeStep new m)) =
    (map proj (values m) ++ added)%list.
Proof.
  intros Hp. induction new as [|o new IH]; intros m; simpl.
  - exists []. now rewrite app_nil_r.
  - destruct (IH (mergeStep m o)) as [added Ha].
    rewrite Ha, map_values_mergeStep by (intros e; apply Hp).
    rewrite <- app_assoc. eauto.
Qed.

Lemma fold_mergeStep_fresh (l : list SelectedOption) :
  NoDup (map keyOf l) ->
  forall m,
    (forall o, In o l -> ~ In (keyOf o) (keys m)) ->
    fold_left mergeStep l m = (m ++ map (fun o => (keyOf o, o)) l)%list.
Proof.
  induction l as [|o l IH]; simpl; intros Hnd m Hm.
  - now rewrite app_nil_r.
  - inversion Hnd as [|? ? Hnotin Hnd']; subst.
    assert (Hget : get (keyOf o) m = None)
      by (apply get_none_keys, Hm; now left).
    rewrite mergeStep_set, Hget, set_fresh by (apply Hm; now left).
    rewrite IH; auto.
    + now rewrite <- app_assoc.
    + intros o' Hin. unfold keys. rewrite map_app, in_app_iff. simpl.
      intros [H|[H|[]]].
      * apply (Hm o'); auto.
      * apply Hnotin. rewrite H. now apply in_map.
Qed.

(** X8.  What the merge leaves alone.  The merged list never holds a key
    twice.  Merging nothing into a list with distinct keys, or such a list
    into nothing, gives the list back.  A persisted option whose key no new
    option has is in the merged list as it was, and so is a new option whose
    key no persisted option has.  The persisted options keep their places,
    colours, variants and identifiers; the options with new keys come after
    them. *)
Theorem merge_keeps_what_it_does_not_meet :
  (forall existing new, NoDup (map keyOf (mergeSelectedOptions existing new))) /\
  (forall existing,
      NoDup (map keyOf existing) -> mergeSelectedOptions existing [] = existing) /\
  (forall new,
      NoDup (map keyOf new) -> mergeSelectedOptions [] new = new) /\
  (forall existing new e,
      NoDup (map keyOf existing) -> In e existing ->
      ~ In (keyOf e) (map keyOf new) ->
      In e (mergeSelectedOptions existing new)) /\
  (forall existing new n,
      NoDup (map keyOf new) -> In n new ->
      ~ In (keyOf n) (map keyOf existing) ->
      In n (mergeSelectedOptions existing new)) /\
  (forall existing new,
      NoDup (map keyOf existing) ->
      exists added,
        map (fun o => (color o, variant o, _id o))
            (mergeSelectedOptions existing new) =
        (map (fun o => (color o, variant o, _id o)) existing ++ added)%list).
Proof.
  split; [exact mergeSelectedOptions_NoDup|].
  split; [|split; [|split; [|split]]].
  - intros existing Hnd. unfold mergeSelectedOptions. simpl.
    now rewrite existing_as_map, values_of_options.
  - intros new Hnd. unfold mergeSelectedOptions. simpl.
    rewrite fold_mergeStep_fresh; auto. simpl. apply values_of_options.
  - intros existing new e Hnd Hin Hnew. unfold mergeSelectedOptions.
    apply (@get_in_values _ (keyOf e)).
    rewrite get_fold_mergeStep_other by assumption.
    now apply get_fold_set.
  - intros existing new n Hnd Hin Hex. unfold mergeSelectedOptions.
    apply (@get_in_values _ (keyOf n)).
    rewrite get_fold_mergeStep by assumption.
    now rewrite get_fold_set_other.
  - intros existing new Hnd. unfold mergeSelectedOptions.
    destruct (@map_values_fold_mergeStep _
                (fun o => (color o, variant o, _id o)) new
                (fun e o => eq_refl)
                (fold_left (fun m opt => set (keyOf opt) opt m) existing []))
      as [added Ha].
    exists added. rewrite Ha.
    now rewrite existing_as_map, values_of_options.
Qed.

(** ** A vendor's run and the records of the other vendors *)

Lemma markOutOfStock_inv current existing f u :
  In (updateOne f u) (markOutOfStock current existing) ->
  exists x,
    In x existing /\ f = ById (vp_id x) /\
    u = SetSelectedOptions (map zeroOut (selectedOptions x)) /\
    inCombinations current (vp_product x) (vp_condition x) = false.
Proof.
  induction existing as [|x rest IH]; simpl; [tauto|].
  destruct (inCombinations current (vp_product x) (vp_condition x)) eqn:E.
  - intros H. destruct (IH H) as (y & Hy & Hrest). exists y. auto.
  - intros [H|H].
    + inversion H; subst. exists x. auto.
    + destruct (IH H) as (y & Hy & Hrest). exists y. auto.
Qed.

(** The first loop of the generic adapter finds the records it updates by
    the vendor's own triples. *)
Lemma genericGroups_filters vendorApi groups t w t' w' :
  genericGroups vendorApi groups t w = (Ok t', w') ->
  (forall f u, In (updateOne f u) (bulkOps t) ->
               exists p c, f = ByTriple (vendorId vendorApi) p c) ->
  forall f u, In (updateOne f u) (bulkOps t') ->
              exists p c, f = ByTriple (vendorId vendorApi) p c.
Proof.
  apply (genericGroups_invariant vendorApi
           (fun t => forall f u, In (updateOne f u) (bulkOps t) ->
                                 exists p c, f = ByTriple (vendorId vendorApi) p c)).
  intros g t0 w0 t1 w1 Hg Ht0. apply genericGroup_Ok in Hg.
  destruct Hg as (product & w2 & opts & _ & _ & _ & [[_ ->]|(_ & c & _ & Hb)]); auto.
  intros f u. rewrite Hb, in_app_iff. intros [H|[H|[]]]; [now apply (Ht0 f u)|].
  destruct (find _ _); inversion H; subst. eauto.
Qed.

Lemma NoDup_map_eq {A B} (f : A -> B) (l : list A) x y :
  NoDup (map f l) -> In x l -> In y l -> f x = f y -> x = y.
Proof.
  induction l as [|a l IH]; simpl; [tauto|].
  intros Hnd Hx Hy E. inversion Hnd as [|? ? Hnotin Hnd']; subst.
  destruct Hx as [->|Hx], Hy as [->|Hy]; auto.
  - exfalso. apply Hnotin. rewrite E. now apply in_map.
  - exfalso. apply Hnotin. rewrite <- E. now apply in_map.
Qed.

(** X9.  A vendor's run leaves the records of the other vendors as they
    are.  The restricted adapter finds every record it writes by a triple of
    the vendor's own.  So does the first loop of the generic adapter; its
    zero-outs find their records by identifier, and reach no other vendor's
    record as long as the identifiers of the persisted records are
    distinct. *)
Theorem other_vendors_records_untouched :
  (forall vendorApi w e,
      In e (tep_vendor_products w) ->
      vp_vendorId e <> vendorId vendorApi ->
      In e (tep_vendor_products (snd (syncWholecellVendor vendorApi w)))) /\
  (forall vendorApi w e,
      NoDup (map vp_id (tep_vendor_products w)) ->
      In e (tep_vendor_products w) ->
      vp_vendorId e <> vendorId vendorApi ->
      In e (tep_vendor_products (snd (syncVendor vendorApi w)))).
Proof.
  split.
  - intros vendorApi w e Hin Hv.
    pose proof (keeps_syncWholecellVendorOps vendorApi w) as Hk.
    unfold syncWholecellVendor. unfold bind at 1.
    destruct (syncWholecellVendorOps vendorApi w) as [[[ops report]|err] w1] eqn:E;
      destruct Hk as (_ & Hrec & _); simpl in Hrec.
    + destruct (written_records report ops w1) as (applied & Hsub & H).
      rewrite H, Hrec.
      apply fold_applyOp_untouched; auto.
      intros f u Hop. apply Hsub in Hop. apply syncWholecellVendorOps_Ok in E.
      destruct E as (items & _ & _ & Hall & _).
      destruct (@Forall2_in_r _ _ _ _ _ Hall _ Hop) as ([k [g p]] & _ & n & Hpush).
      simpl in Hpush. unfold wholecellPush in Hpush.
      destruct (persistedFor w vendorApi p); inversion Hpush; subst. simpl.
      destruct (vp_vendorId e =? vendorId vendorApi)%N eqn:Ev; [|reflexivity].
      apply N.eqb_eq in Ev. contradiction.
    + simpl. now rewrite Hrec.
  - intros vendorApi w e Hnd Hin Hv.
    pose proof (keeps_syncVendorOps vendorApi w) as Hk.
    unfold syncVendor. unfold bind at 1.
    destruct (syncVendorOps vendorApi w) as [[[ops report]|err] w1] eqn:E;
      destruct Hk as (Hrec & _); simpl in Hrec.
    + destruct (written_records report ops w1) as (applied & Hsub & H).
      rewrite H, Hrec.
      apply fold_applyOp_untouched; auto.
      intros f u Hop. apply Hsub in Hop. apply syncVendorOps_Ok in E.
      destruct E as (items & t & w2 & current & _ & Hloop & _ & _ & Hops & _).
      rewrite Hops in Hop. apply in_app_iff in Hop. destruct Hop as [Hop|Hop].
      * destruct (genericGroups_filters _ _ _ _ Hloop) with (f := f) (u := u)
          as (p & c & ->); auto.
        { intros f' u' []. }
        simpl.
        destruct (vp_vendorId e =? vendorId vendorApi)%N eqn:Ev; [|reflexivity].
        apply N.eqb_eq in Ev. contradiction.
      * apply markOutOfStock_inv in Hop.
        destruct Hop as (x & Hx & -> & _). apply filter_In in Hx.
        destruct Hx as [Hx Hxv]. apply N.eqb_eq in Hxv. simpl.
        apply N.eqb_neq. intros Eid.
        assert (e = x) by (eapply NoDup_map_eq; eauto).
        subst x. contradiction.
    + simpl. now rewrite Hrec.
Qed.

(** ** The generic adapter as the module stands *)

(** The first loop returns, whatever its groups do. *)
Lemma genericGroups_returns vendorApi groups :
  forall t w, exists t', fst (genericGroups vendorApi groups t w) = Ok t'.
Proof.
  induction groups as [|[k g] rest IH]; intros t w; simpl.
  - now exists t.
  - unfold bind at 1, tryCatch.
    destruct (genericGroup vendorApi g t w) as [[t1|e] w1].
    + apply IH.
    + unfold bind, console_error_log, ret. apply IH.
Qed.

Lemma groups_of_a_feed item items :
  groupItemsByProductAndCondition (item :: items) <> [].
Proof.
  destruct (grouped_so_far_all (item :: items)) as (_ & Hget & _).
  specialize (Hget (groupKeyOf item)). intros E. rewrite E in Hget.
  simpl in Hget. unfold groupOf in Hget. simpl in Hget.
  rewrite String.eqb_refl in Hget. discriminate.
Qed.

Lemma findOrCreateProduct_throws productData w e :
  fst (findOrCreateProduct productData w) = Throw e ->
  exists c, rejects w c = true /\ e = failure c.
Proof.
  unfold findOrCreateProduct, productsFindOne, productsInsertOne, bind, call,
    newObjectId, ret.
  destruct (rejects w (ProductsFindOne _)) eqn:E1; simpl;
    [intros [= <-]; eauto|].
  destruct (find _ _); simpl; [discriminate|].
  destruct (rejects w (ProductsInsertOne _)) eqn:E2; simpl;
    [intros [= <-]; eauto|].
  discriminate.
Qed.

(** X10.  As the module stands, nothing binds the identifier [condition]:
    a pass of the generic adapter over a feed that holds an item then never
    completes.  The first loop logs the groups that come to read it and goes
    on; the second loop, which has no [try], throws, either for the
    identifier or for a lookup the store refused; no vendor record is
    written, zeroed or inserted. *)
Theorem unbound_condition_stops_every_pass vendorApi w item items :
  global_condition w = None ->
  vendor_feed w (vendorId vendorApi) = Ok (item :: items) ->
  exists e,
    fst (syncVendor vendorApi w) = Throw e /\
    (e = "condition is not defined" \/
     exists c, rejects w c = true /\ e = failure c) /\
    tep_vendor_products (snd (syncVendor vendorApi w)) = tep_vendor_products w.
Proof.
  intros Hcond Hfeed.
  assert (Hops : exists e,
             fst (syncVendorOps vendorApi w) = Throw e /\
             (e = "condition is not defined" \/
              exists c, rejects w c = true /\ e = failure c)).
  { unfold syncVendorOps, fetchItems. unfold bind at 1. rewrite Hfeed.
    set (groups := groupItemsByProductAndCondition (item :: items)).
    pose proof (keeps_genericGroups vendorApi groups (mkTally [] 0 0) w) as Hk.
    destruct (genericGroups_returns vendorApi groups (mkTally [] 0 0) w)
      as [t Ht].
    unfold bind at 1.
    destruct (genericGroups vendorApi groups (mkTally [] 0 0) w)
      as [[t1|e1] w1]; simpl in Ht; [|discriminate].
    destruct Hk as (_ & _ & Hr1 & _ & _ & Hc1). simpl in Hr1, Hc1.
    unfold vendorProductsFind. unfold bind at 1. unfold bind at 1.
    unfold call at 1.
    destruct (rejects w1 (VendorProductsFind (vendorId vendorApi))) eqn:Ef.
    { eexists. simpl. split; [reflexivity|]. right.
      exists (VendorProductsFind (vendorId vendorApi)).
      rewrite <- Hr1. auto. }
    cbv beta iota.
    pose proof (@groups_of_a_feed item items) as Hne. fold groups in Hne.
    destruct groups as [|[k g] rest]; [congruence|].
    unfold bind at 1. simpl currentCombinationsOf. unfold bind at 1.
    pose proof (keeps_findOrCreateProduct (g_product g) w1) as Hk2.
    pose proof (@findOrCreateProduct_throws (g_product g) w1) as Hthrow.
    destruct (findOrCreateProduct (g_product g) w1) as [[p|e2] w2].
    - destruct Hk2 as (_ & _ & _ & _ & _ & Hc2). simpl in Hc2.
      unfold bind at 1. unfold readCondition.
      rewrite Hc2, Hc1, Hcond. exists "condition is not defined". simpl. auto.
    - exists e2. simpl. split; auto. right.
      destruct (Hthrow e2 eq_refl) as (c & Hc & He). exists c.
      rewrite <- Hr1. auto. }
  destruct Hops as (e & He & Hmsg). exists e.
  pose proof (keeps_syncVendorOps vendorApi w) as Hk.
  destruct (syncVendorOps vendorApi w) as [[r|e'] w'] eqn:E; simpl in He;
    [discriminate|].
  inversion He; subst e'. destruct Hk as (Hrec & _). simpl in Hrec.
  assert (Hs : syncVendor vendorApi w = (Throw e, w'))
    by (unfold syncVendor, bind; now rewrite E).
  rewrite Hs. simpl. auto.
Qed.

(** ** The counts of a report *)

Lemma genericGroup_counts vendorApi groupData t w t' w' :
  genericGroup vendorApi groupData t w = (Ok t', w') ->
  t' = t \/
  (length (bulkOps t') = S (length (bulkOps t)) /\
   (newVendorProducts t' + updatedVendorProducts t' =
    S (newVendorProducts t + updatedVendorProducts t))%nat).
Proof.
  unfold genericGroup. intros H. run_ok H. run_ok H. unfold drawing in Hrun0.
  destruct (createSelectedOptions (g_items groupData) (next_oid w0)) as [o n].
  inv Hrun0. destruct (noStock a0).
  - inv H. now left.
  - run_ok H. run_ok H.
    destruct a2; inv H; right; simpl; rewrite length_app; simpl; lia.
Qed.

Lemma genericGroups_counts vendorApi groups :
  forall t w t' w',
    genericGroups vendorApi groups t w = (Ok t', w') ->
    length (bulkOps t) = (newVendorProducts t + updatedVendorProducts t)%nat ->
    length (bulkOps t') = (newVendorProducts t' + updatedVendorProducts t')%nat /\
    (newVendorProducts t' + updatedVendorProducts t' <=
     newVendorProducts t + updatedVendorProducts t + length groups)%nat.
Proof.
  induction groups as [|[k g] rest IH]; simpl; intros t w t' w' H Ht.
  - inv H. split; auto. lia.
  - run_ok H. unfold tryCatch in Hrun.
    destruct (genericGroup vendorApi g t w) as [[t1|e] w1] eqn:Eg.
    + inv Hrun. apply genericGroup_counts in Eg.
      destruct Eg as [->|[E1 E2]].
      * destruct (IH _ _ _ _ H Ht). split; auto. lia.
      * destruct (IH _ _ _ _ H) as [H1 H2]; [lia|]. split; auto. lia.
    + unfold bind, console_error_log, ret in Hrun. inv Hrun.
      destruct (IH _ _ _ _ H Ht). split; auto. lia.
Qed.

Lemma total_ge_length {V} (f : V -> Z) (m : JsMap V) :
  (forall kv, In kv m -> (1 <= f (snd kv))%Z) ->
  (Z.of_nat (length m) <= total f m)%Z.
Proof.
  induction m as [|kv m IH]; intros H; [simpl; lia|].
  change (total f (kv :: m)) with (f (snd kv) + total f m)%Z.
  change (length (kv :: m)) with (S (length m)).
  pose proof (H kv (or_introl eq_refl)).
  assert (Z.of_nat (length m) <= total f m)%Z
    by (apply IH; intros kv' Hin; apply H; now right).
  lia.
Qed.

(** There are no more groups than items. *)
Lemma length_groups_le items :
  (length (groupItemsByProductAndCondition items) <= length items)%nat.
Proof.
  destruct (grouped_so_far_all items) as (Hnd & Hget & Htot).
  apply Nat2Z.inj_le. rewrite <- Htot. apply total_ge_length.
  intros [k g] Hin. simpl. apply in_get_NoDup in Hin; auto.
  specialize (Hget k). rewrite Hin in Hget.
  destruct Hget as (_ & first & rest & -> & _). simpl. lia.
Qed.

Lemma syncVendor_Ok vendorApi w report w' :
  syncVendor vendorApi w = (Ok report, w') ->
  exists items t w1 zeroed,
    vendor_feed w (vendorId vendorApi) = Ok items /\
    genericGroups vendorApi (groupItemsByProductAndCondition items)
                  (mkTally [] 0 0) w = (Ok t, w1) /\
    report =
      mkGenericReport (vendorId vendorApi) (length items)
        (length (groupItemsByProductAndCondition items))
        (newVendorProducts t) (updatedVendorProducts t) (length zeroed)
        (length (bulkOps t ++ zeroed)%list).
Proof.
  unfold syncVendor. intros H.
  apply bind_Ok in H. destruct H as ([ops report0] & wa & Hops & H).
  apply bind_Ok in H. destruct H as (u & wb & _ & H).
  injection H as Hr Hw. subst report0.
  unfold syncVendorOps in Hops.
  apply bind_Ok in Hops. destruct Hops as (items & wc & Hfetch & Hops).
  unfold fetchItems in Hfetch. injection Hfetch as Hfeed Hwc. subst wc.
  apply bind_Ok in Hops. destruct Hops as (t & w1 & Hloop & Hops).
  apply bind_Ok in Hops. destruct Hops as (existing & wd & _ & Hops).
  apply bind_Ok in Hops. destruct Hops as (current & we & _ & Hops).
  injection Hops as Hops Hrep Hwe.
  exists items, t, w1, (markOutOfStock current existing). rewrite <- Hrep. auto.
Qed.

Lemma length_filter_both {A} (p : A -> bool) (l : list A) :
  (length (filter p l) + length (filter (fun a => negb (p a)) l) = length l)%nat.
Proof.
  induction l as [|a l IH]; simpl; auto.
  destruct (p a); simpl; lia.
Qed.

Lemma existsb_filter_length {A} (p : A -> bool) (l : list A) :
  existsb p l = true -> (1 <= length (filter p l))%nat.
Proof.
  induction l as [|a l IH]; simpl; [discriminate|].
  destruct (p a); simpl; [lia|auto].
Qed.

(** The items the valid groups hold. *)
Lemma wholecellGroups_stock vendorApi validGroups :
  forall t w t' w',
    wholecellGroups vendorApi validGroups t w = (Ok t', w') ->
    (Z.of_nat (length (w_bulkOps t')) - Z.of_nat (length (w_bulkOps t)) <=
     w_totalStockProcessed t' - w_totalStockProcessed t <=
     Z.of_nat (length (flat_map (fun kv => g_items (fst (snd kv))) validGroups)))%Z.
Proof.
  induction validGroups as [|[k [g p]] rest IH]; intros t w t' w' H.
  - simpl in H. inv H. simpl. lia.
  - simpl wholecellGroups in H. unfold bind at 1 in H.
    pose proof (wholecellTry_step vendorApi k g p t w) as Hstep.
    destruct (tryCatch _ _ w) as [[t1|e] w1]; simpl in Hstep; inv Hstep.
    apply IH in H. cbn [flat_map snd fst]. rewrite length_app, Nat2Z.inj_add.
    destruct (pushes w vendorApi (g, p)) eqn:Hp; [|lia].
    unfold pushes in Hp. rewrite !andb_true_iff in Hp.
    destruct Hp as [[_ Hav] _]. simpl in Hav.
    apply existsb_filter_length in Hav.
    pose proof (filter_length_le available (g_items g)) as Hle.
    cbv zeta in H. unfold tallyPush in H. simpl in H.
    rewrite aggregateWholecell_total, length_app in H. simpl in H. lia.
Qed.

Lemma length_matched_items w groups :
  (length (flat_map (fun kv => g_items (fst (snd kv))) (matchedGroups w groups)) <=
   length (flat_map g_items (values groups)))%nat.
Proof.
  induction groups as [|[k g] rest IH]; [simpl; lia|].
  change (values ((k, g) :: rest)) with (g :: values rest).
  cbn [matchedGroups flat_map snd fst].
  fold (matchedGroups w rest).
  destruct (resolution w g) as [[p|]|e]; simpl; rewrite ?length_app; lia.
Qed.

Lemma syncWholecellVendor_report vendorApi w report w' :
  syncWholecellVendor vendorApi w = (Ok report, w') ->
  exists items t w1,
    vendor_feed w (vendorId vendorApi) = Ok items /\
    let groups := groupItemsByProductAndCondition items in
    (length (matchedGroups w groups) + length (filter (unmatched w) groups)
     = length groups)%nat /\
    wholecellGroups vendorApi (matchedGroups w groups) (mkWTally [] 0 0 0) w
      = (Ok t, w1) /\
    report =
      mkWholecellReport (vendorId vendorApi) (length items)
        (length (matchedGroups w groups))
        (length (filter (unmatched w) groups))
        (w_newVendorProducts t) (w_updatedVendorProducts t)
        (w_totalStockProcessed t) (length (w_bulkOps t)).
Proof.
  unfold syncWholecellVendor. intros H.
  apply bind_Ok in H. destruct H as ([ops report0] & wa & Hops & H).
  apply bind_Ok in H. destruct H as (u & wb & _ & H).
  injection H as Hr Hw. subst report0.
  unfold syncWholecellVendorOps in Hops.
  apply bind_Ok in Hops. destruct Hops as (items & wc & Hfetch & Hops).
  unfold fetchItems in Hfetch. injection Hfetch as Hfeed Hwc. subst wc.
  apply bind_Ok in Hops. destruct Hops as ([valid skipped] & wd & Hvalid & Hops).
  rewrite filterValid_pure in Hvalid. injection Hvalid as Hvalid Hwd. subst wd.
  pose proof (validOf_Ok_inv _ _ _ _ Hvalid) as Hres.
  rewrite (@validOf_Ok w _ Hres) in Hvalid by apply groupItems_NoDup.
  simpl in Hvalid. injection Hvalid as Hv Hs. subst valid skipped.
  apply bind_Ok in Hops. destruct Hops as (t & w1 & Hloop & Hops).
  injection Hops as Hops Hrep Hw1.
  exists items, t, w1. rewrite <- Hrep. cbv zeta.
  split; [assumption|]. split; [now apply length_matchedGroups|]. auto.
Qed.

(** X11.  The counts of a report add up.  In a report of the generic
    adapter the operations are the inserts, the updates and the zero-outs
    together; there are no more groups than items fetched and no more
    inserts and updates than groups.  In a report of the restricted adapter
    the operations are the inserts and the updates together, at most one for
    each valid group; the valid and the skipped groups together are no more
    than the items fetched; and the stock processed is at least the number
    of operations and at most the number of items fetched. *)
Theorem reports_add_up :
  (forall vendorApi w report w',
      syncVendor vendorApi w = (Ok report, w') ->
      gr_vendorId report = vendorId vendorApi /\
      (gr_groupsProcessed report <= gr_totalFetched report)%nat /\
      (gr_newVendorProducts report + gr_updatedVendorProducts report
       <= gr_groupsProcessed report)%nat /\
      gr_totalOperations report =
        (gr_newVendorProducts report + gr_updatedVendorProducts report +
         gr_markedAsOutOfStock report)%nat) /\
  (forall vendorApi w report w',
      syncWholecellVendor vendorApi w = (Ok report, w') ->
      wr_vendorId report = vendorId vendorApi /\
      (wr_validProducts report + wr_skippedProducts report
       <= wr_totalFetched report)%nat /\
      wr_totalOperations report =
        (wr_newVendorProducts report + wr_updatedVendorProducts report)%nat /\
      (wr_totalOperations report <= wr_validProducts report)%nat /\
      (Z.of_nat (wr_totalOperations report) <= wr_totalStockProcessed report
       <= Z.of_nat (wr_totalFetched report))%Z).
Proof.
  split.
  - intros vendorApi w report w' H. apply syncVendor_Ok in H.
    destruct H as (items & t & w1 & zeroed & _ & Hloop & ->). simpl.
    apply genericGroups_counts in Hloop; [|reflexivity].
    destruct Hloop as [Hlen Hle]. simpl in Hle.
    rewrite length_app, Hlen.
    repeat split; auto. apply length_groups_le.
  - intros vendorApi w report w' H. apply syncWholecellVendor_report in H.
    destruct H as (items & t & w1 & _ & Hsum & Hloop & ->). cbv zeta in *. simpl.
    set (groups := groupItemsByProductAndCondition items) in *.
    pose proof (length_groups_le items) as Hgroups. fold groups in Hgroups.
    pose proof (wholecellGroups_stock _ _ _ _ Hloop) as Hstock.
    simpl in Hstock.
    pose proof (length_matched_items w groups) as Hitems.
    destruct (grouped_so_far_all items) as (_ & _ & Htot). fold groups in Htot.
    rewrite <- length_flat_map_total in Htot. apply Nat2Z.inj in Htot.
    destruct (wholecellGroups_spec vendorApi (matchedGroups w groups)
                (mkWTally [] 0 0 0) w) as (t2 & ops & Hrun & Hops & Hall & Hn & Hu).
    rewrite Hloop in Hrun. simpl in Hrun. inv Hrun. simpl in Hops, Hn, Hu.
    apply Forall2_length in Hall.
    pose proof (filter_length_le (fun kv => pushes w vendorApi (snd kv))
                  (matchedGroups w groups)) as Hfl.
    pose proof (length_filter_both isInsert ops) as Hboth.
    rewrite Hops, Hn, Hu in *.
    repeat split; lia.
Qed.

(** ** What the lookups answer *)

Lemma prefix_refl s : String.prefix s s = true.
Proof.
  induction s as [|c s IH]; simpl; auto.
  destruct (ascii_dec c c); congruence.
Qed.

Lemma includes_refl s : Js.includes s s = true.
Proof.
  destruct s as [|c s]; [reflexivity|].
  change (Js.includes (String c s) (String c s))
    with (String.prefix (String c s) (String c s) || Js.includes (String c s) s).
  now rewrite prefix_refl.
Qed.

Lemma ieq_icontains a b : ieq a b = true -> icontains a b = true.
Proof.
  unfold ieq, icontains. intros H. apply String.eqb_eq in H. rewrite H.
  apply includes_refl.
Qed.

Lemma findExistingProduct_found productData w p :
  fst (findExistingProduct productData w) = Ok (Some p) ->
  In p (tep_admin_products w) /\
  (ieq (candidateName productData) (name p) = true \/
   ((3 < String.length (candidateName productData))%nat /\
    icontains (candidateName productData) (name p) = true)).
Proof.
  unfold findExistingProduct, productsFindOne, bind, call, ret. simpl.
  destruct (rejects w (ProductsFindOne (ExactI _))); simpl; [discriminate|].
  destruct (find (fun a => ieq (candidateName productData) (name a))
                 (tep_admin_products w)) as [a|] eqn:E; simpl.
  - intros [= ->]. apply find_some in E. tauto.
  - destruct (3 <? String.length (candidateName productData))%nat eqn:El;
      simpl; [|discriminate].
    destruct (rejects w (ProductsFindOne (ContainsI _))); simpl; [discriminate|].
    intros [= H]. apply find_some in H. apply Nat.ltb_lt in El. tauto.
Qed.

(** X12.  What [findExistingProduct] answers is an entry of the catalog
    whose name holds the candidate name, letter case apart; for a candidate
    name of three characters or fewer, the empty one included, the two names
    are the same, letter case apart. *)
Theorem existing_product_bears_the_name productData w p :
  fst (findExistingProduct productData w) = Ok (Some p) ->
  In p (tep_admin_products w) /\
  icontains (candidateName productData) (name p) = true /\
  ((String.length (candidateName productData) <= 3)%nat ->
   ieq (candidateName productData) (name p) = true).
Proof.
  intros H. apply findExistingProduct_found in H.
  destruct H as (Hin & [He|[Hl Hc]]).
  - split; auto. split; auto. now apply ieq_icontains.
  - split; auto. split; auto. lia.
Qed.

(** [findOrCreateProduct], call by call. *)
Lemma findOrCreateProduct_run productData w :
  findOrCreateProduct productData w =
  let n := candidateName productData in
  if rejects w (ProductsFindOne (RegexI n)) then (Throw "store call failed", w)
  else
    match find (fun a => regex_i w n (name a)) (tep_admin_products w) with
    | Some a => (Ok a, w)
    | None =>
        if rejects w (ProductsInsertOne n) then (Throw "store call failed", w)
        else
          let p :=
            mkAdminProduct (next_oid w) n (manufacturer productData ||| "Unknown")
              (model productData ||| "") (manufacturer productData ||| "Unknown")
              [] "" in
          (Ok p,
           setProducts (tep_admin_products w ++ [p])%list
                       (setNextOid (N.succ (next_oid w)) w))
    end.
Proof.
  unfold findOrCreateProduct, productsFindOne, productsInsertOne, newObjectId,
    bind, call, ret. cbv zeta.
  destruct (rejects w (ProductsFindOne (RegexI _))); [reflexivity|].
  cbv beta iota.
  destruct (find _ (tep_admin_products w)); [reflexivity|].
  destruct (rejects w (ProductsInsertOne _)); reflexivity.
Qed.


(** ** What the restricted adapter writes *)

Lemma merged_keys existing new k :
  In k (map keyOf (mergeSelectedOptions existing new)) <->
  In k (map keyOf existing) \/ In k (map keyOf new).
Proof.
  unfold mergeSelectedOptions. rewrite (keyed_keys (merged_keyed existing new)).
  rewrite keys_fold_mergeStep, keys_fold_set. simpl. tauto.
Qed.

Lemma aggregateWholecell_options items adminProducts next :
  Forall (fun o => (1 <= stock o)%Z /\ discount o = price o)
         (fst (aggregateWholecell items adminProducts next)).
Proof.
  apply Forall_forall. intros o Hin.
  rewrite aggregateWholecell_fold in Hin. simpl fst in Hin.
  pose proof (wholecell_filed items (adminProductMapOf adminProducts) next) as H.
  pose proof (@filed_so_far_option _ _ _ _ _ _ _ _ o H Hin) as Hget.
  destruct H as (_ & Hall & _). specialize (Hall (keyOf o)).
  rewrite Hget in Hall.
  destruct Hall as (_ & Hs & first & rest & Hf & _ & _ & Hp & Hd).
  rewrite Hs, Hf. simpl length. split; [lia|congruence].
Qed.

Lemma noStock_nonempty opts : noStock opts = false -> opts <> [].
Proof. intros H E. subst opts. discriminate. Qed.

(** X14.  Every operation the restricted adapter plans writes a whole
    document, whether it inserts or updates: the document is the vendor's,
    for a product that is an entry of the catalog, under the fixed condition
    and the database "wholecell", with at least one option and no two
    options of one key; an update finds its record by the same triple.  The
    options of an inserted document have each a stock of at least 1 and
    their price as their discount. *)
Theorem wholecell_documents_are_well_formed vendorApi w ops report w' :
  syncWholecellVendorOps vendorApi w = (Ok (ops, report), w') ->
  forall op,
    In op ops ->
    exists d p,
      documentOf op = Some d /\
      In p (tep_admin_products w) /\
      d_vendorId d = vendorId vendorApi /\
      d_product d = ap_id p /\
      d_condition d = fixedConditionId /\
      d_database d = "wholecell" /\
      d_selectedOptions d <> [] /\
      NoDup (map keyOf (d_selectedOptions d)) /\
      (forall f u,
          op = updateOne f u ->
          f = ByTriple (vendorId vendorApi) (ap_id p) fixedConditionId) /\
      (isInsert op = true ->
       Forall (fun o => (1 <= stock o)%Z /\ discount o = price o)
              (d_selectedOptions d)).
Proof.
  intros H op Hop. apply syncWholecellVendorOps_Ok in H.
  destruct H as (items & _ & _ & Hall & _).
  destruct (@Forall2_in_r _ _ _ _ _ Hall _ Hop) as ([k [g p]] & Hkv & n & Hpush).
  apply filter_In in Hkv. destruct Hkv as [Hkv Hp]. simpl in Hp, Hpush.
  apply in_matchedGroups in Hkv. destruct Hkv as [_ Hres].
  apply findExistingProduct_found in Hres. destruct Hres as [Hin _].
  unfold pushes in Hp. rewrite !andb_true_iff in Hp.
  destruct Hp as [[_ Hav] _]. simpl in Hav.
  set (opts := fst (aggregateWholecell (g_items g) (fetchedFor w (g_items g)) n))
    in *.
  assert (Hne : opts <> []).
  { apply noStock_nonempty. unfold opts.
    now rewrite noStock_aggregateWholecell, Hav. }
  unfold wholecellPush in Hpush.
  destruct (persistedFor w vendorApi p) as [e|]; subst op; simpl.
  - eexists. exists p. split; [reflexivity|]. simpl.
    do 5 (split; [solve [auto]|]). split; [|split; [|split]].
    + destruct opts as [|o rest] eqn:Eo; [congruence|].
      intros Em.
      assert (Hk : In (keyOf o)
                      (map keyOf (mergeSelectedOptions (selectedOptions e)
                                    (o :: rest))))
        by (apply merged_keys; right; now left).
      rewrite Em in Hk. destruct Hk.
    + apply mergeSelectedOptions_NoDup.
    + intros f u [= <- _]. reflexivity.
    + discriminate.
  - eexists. exists p. split; [reflexivity|]. simpl.
    do 5 (split; [solve [auto]|]). split; [|split; [|split]].
    + exact Hne.
    + apply aggregateWholecell_NoDup.
    + intros f u [=].
    + intros _. apply aggregateWholecell_options.
Qed.

(** ** The catalog under the two adapters *)

Lemma catalog_grown_refl w : catalog_grown w w.
Proof. exists []. split; [now rewrite app_nil_r|constructor]. Qed.

Lemma catalog_grown_trans w1 w2 w3 :
  catalog_grown w1 w2 -> catalog_grown w2 w3 -> catalog_grown w1 w3.
Proof.
  intros (c1 & E1 & F1) (c2 & E2 & F2). exists (c1 ++ c2)%list. split.
  - now rewrite E2, E1, app_assoc.
  - apply Forall_app. auto.
Qed.

Lemma stores_kept_grown w w' : stores_kept w w' -> catalog_grown w w'.
Proof.
  intros (E & _). exists []. split; [now rewrite app_nil_r|constructor].
Qed.

Lemma catalog_kept_grown w w' : catalog_kept w w' -> catalog_grown w w'.
Proof.
  intros (E & _). exists []. split; [now rewrite app_nil_r|constructor].
Qed.

Lemma grows_stores {A} (m : M A) : keeps stores_kept m -> keeps catalog_grown m.
Proof. apply keeps_weaken. exact stores_kept_grown. Qed.

Lemma grows_findOrCreateProduct productData :
  keeps catalog_grown (findOrCreateProduct productData).
Proof.
  intros w. rewrite findOrCreateProduct_run. cbv zeta.
  destruct (rejects w (ProductsFindOne _)); [apply catalog_grown_refl|].
  destruct (find _ _); [apply catalog_grown_refl|].
  destruct (rejects w (ProductsInsertOne _)); [apply catalog_grown_refl|].
  eexists. split; [reflexivity|]. repeat constructor.
Qed.

Lemma grows_readCondition : keeps catalog_grown readCondition.
Proof.
  intros w. unfold readCondition.
  destruct (global_condition w); apply catalog_grown_refl.
Qed.

Lemma grows_genericGroup vendorApi groupData t :
  keeps catalog_grown (genericGroup vendorApi groupData t).
Proof.
  unfold genericGroup.
  apply (@keeps_bind _ catalog_grown_trans);
    [apply grows_findOrCreateProduct|intros ?].
  apply (@keeps_bind _ catalog_grown_trans);
    [apply grows_stores, keeps_drawing|intros opts].
  destruct (noStock opts); [apply (@keeps_ret _ catalog_grown_refl)|].
  apply (@keeps_bind _ catalog_grown_trans); [apply grows_readCondition|intros ?].
  apply (@keeps_bind _ catalog_grown_trans);
    [apply grows_stores, keeps_vendorProductsFindOne|intros [e|]];
    apply (@keeps_ret _ catalog_grown_refl).
Qed.

Lemma grows_genericGroups vendorApi groups :
  forall t, keeps catalog_grown (genericGroups vendorApi groups t).
Proof.
  induction groups as [|[k g] rest IH]; intros t; simpl.
  - apply (@keeps_ret _ catalog_grown_refl).
  - apply (@keeps_bind _ catalog_grown_trans); [|intros ?; apply IH].
    apply (@keeps_tryCatch _ catalog_grown_trans); [apply grows_genericGroup|].
    intros _. apply (@keeps_bind _ catalog_grown_trans);
      [apply grows_stores, keeps_log
      |intros _; apply (@keeps_ret _ catalog_grown_refl)].
Qed.

Lemma grows_currentCombinationsOf groups :
  forall current, keeps catalog_grown (currentCombinationsOf groups current).
Proof.
  induction groups as [|[k g] rest IH]; intros current; simpl.
  - apply (@keeps_ret _ catalog_grown_refl).
  - apply (@keeps_bind _ catalog_grown_trans);
      [apply grows_findOrCreateProduct|intros ?].
    apply (@keeps_bind _ catalog_grown_trans); [apply grows_readCondition|intros ?].
    apply IH.
Qed.

Lemma grows_syncVendor vendorApi : keeps catalog_grown (syncVendor vendorApi).
Proof.
  unfold syncVendor, syncVendorOps.
  apply (@keeps_bind _ catalog_grown_trans).
  - apply (@keeps_bind _ catalog_grown_trans);
      [apply grows_stores, keeps_fetchItems|intros ?].
    apply (@keeps_bind _ catalog_grown_trans); [apply grows_genericGroups|intros ?].
    apply (@keeps_bind _ catalog_grown_trans);
      [apply grows_stores, keeps_vendorProductsFind|intros ?].
    apply (@keeps_bind _ catalog_grown_trans);
      [apply grows_currentCombinationsOf|intros ?].
    apply (@keeps_ret _ catalog_grown_refl).
  - intros [ops report]. apply (@keeps_bind _ catalog_grown_trans).
    + destruct (length ops =? 0)%nat; [apply (@keeps_ret _ catalog_grown_refl)|].
      apply (@keeps_weaken _ catalog_kept catalog_grown _ catalog_kept_grown),
        keeps_bulkWrite.
    + intros _. apply (@keeps_ret _ catalog_grown_refl).
Qed.

Section KeepsAll.
Variable R : World -> World -> Prop.
Hypothesis R_refl : forall w, R w w.
Hypothesis R_trans : forall w1 w2 w3, R w1 w2 -> R w2 w3 -> R w1 w3.

Lemma keeps_settle {A} (turns : list (nat * M A)) :
  (forall j q, In (j, q) turns -> keeps R q) ->
  forall w, R w (snd (settle turns w)).
Proof.
  induction turns as [|[i p] rest IH]; intros Hps w; simpl.
  - apply R_refl.
  - pose proof (Hps i p (or_introl eq_refl) w) as H1.
    destruct (p w) as [r w1]. simpl in H1.
    assert (H2 : R w1 (snd (settle rest w1)))
      by (apply IH; intros j q Hq; apply (Hps j); now right).
    destruct (settle rest w1) as [outs w2]. simpl in *.
    now apply (R_trans H1).
Qed.

Lemma keeps_allSettled {A} (ps : list (M A)) :
  (forall p, In p ps -> keeps R p) -> keeps R (allSettled ps).
Proof.
  intros Hps w. unfold allSettled.
  pose proof (@keeps_settle _ (takenOrder (runs_first w) ps)) as H.
  destruct (settle (takenOrder (runs_first w) ps) w) as [outs w'] eqn:E.
  simpl. change w' with (snd (outs, w')). rewrite <- E. apply H.
  intros j q Hq. apply Hps.
  apply (Permutation_in _ (takenOrder_places (runs_first w) ps)) in Hq.
  now apply in_combine_r in Hq.
Qed.

Lemma keeps_all {A} (ps : list (M A)) :
  (forall p, In p ps -> keeps R p) -> keeps R (all ps).
Proof.
  induction ps as [|p ps IH]; intros Hps w; simpl.
  - apply R_refl.
  - pose proof (Hps p (or_introl eq_refl) w) as H1.
    destruct (p w) as [r w1]. simpl in H1.
    assert (H2 : R w1 (snd (all ps w1)))
      by (apply IH; intros q Hq; apply Hps; now right).
    destruct (all ps w1) as [rs w2]. simpl in *.
    now apply (R_trans H1).
Qed.

Lemma keeps_map {A B} (f : B -> M A) (l : list B) :
  (forall b, keeps R (f b)) -> forall p, In p (map f l) -> keeps R p.
Proof.
  intros Hf p Hp. apply in_map_iff in Hp. destruct Hp as (b & <- & _). apply Hf.
Qed.

End KeepsAll.

Lemma catalog_same_refl w : catalog_same w w.
Proof. reflexivity. Qed.

Lemma catalog_same_trans w1 w2 w3 :
  catalog_same w1 w2 -> catalog_same w2 w3 -> catalog_same w1 w3.
Proof. unfold catalog_same. congruence. Qed.

Lemma same_catalog_wholesaleApisFind : keeps catalog_same wholesaleApisFind.
Proof.
  intros w. unfold wholesaleApisFind, bind, call.
  now destruct (rejects w WholesaleApisFind).
Qed.

Lemma same_catalog_syncWholecellVendor vendorApi :
  keeps catalog_same (syncWholecellVendor vendorApi).
Proof. intros w. now destruct (keeps_syncWholecellVendor vendorApi w). Qed.

(** X15.  The generic adapter only ever adds to the catalog: after a run
    of [syncVendor], or of its route, completed or not, the entries the
    catalog had are there, in their places and unchanged, followed by the
    entries the run created, which have no images and no storage
    specification.  The restricted adapter and its two routes leave the
    catalog as it is. *)
Theorem catalog_is_only_appended_to :
  (forall vendorApi w, catalog_grown w (snd (syncVendor vendorApi w))) /\
  (forall w, catalog_grown w (snd (genericRoute w))) /\
  (forall vendorApi w,
      tep_admin_products (snd (syncWholecellVendor vendorApi w)) =
      tep_admin_products w) /\
  (forall w,
      tep_admin_products (snd (wholecellRoute w)) = tep_admin_products w) /\
  (forall w,
      tep_admin_products (snd (wholecellOnlyRoute w)) = tep_admin_products w).
Proof.
  split; [exact grows_syncVendor|]. split; [|split; [|split]].
  - unfold genericRoute.
    apply (@keeps_tryCatch _ catalog_grown_trans);
      [|intros _; apply (@keeps_ret _ catalog_grown_refl)].
    apply (@keeps_bind _ catalog_grown_trans);
      [apply (@keeps_call _ catalog_grown_refl)|intros _].
    apply (@keeps_bind _ catalog_grown_trans).
    + intros w. unfold wholesaleApisFind, bind, call.
      destruct (rejects w WholesaleApisFind); apply catalog_grown_refl.
    + intros apis. apply (@keeps_bind _ catalog_grown_trans);
        [|intros ?; apply (@keeps_ret _ catalog_grown_refl)].
      apply (@keeps_allSettled _ catalog_grown_refl catalog_grown_trans).
      apply keeps_map. exact grows_syncVendor.
  - exact same_catalog_syncWholecellVendor.
  - unfold wholecellRoute.
    apply (@keeps_tryCatch _ catalog_same_trans);
      [|intros _; apply (@keeps_ret _ catalog_same_refl)].
    apply (@keeps_bind _ catalog_same_trans);
      [apply (@keeps_call _ catalog_same_refl)|intros _].
    apply (@keeps_bind _ catalog_same_trans);
      [exact same_catalog_wholesaleApisFind|intros apis].
    apply (@keeps_bind _ catalog_same_trans).
    + apply (@keeps_all _ catalog_same_refl catalog_same_trans).
      apply keeps_map. intros api w. unfold defaultDatabase.
      destruct (Js.truthy (database api)); [reflexivity|].
      unfold bind, call.
      now destruct (rejects w (WholesaleApisUpdateOne (api_id api))).
    + intros apis'. apply (@keeps_bind _ catalog_same_trans);
        [|intros ?; apply (@keeps_ret _ catalog_same_refl)].
      apply (@keeps_allSettled _ catalog_same_refl catalog_same_trans).
      apply keeps_map. intros api. unfold wholecellPipeline.
      destruct (String.eqb (database api) "wholecell");
        [|apply (@keeps_ret _ catalog_same_refl)].
      apply (@keeps_bind _ catalog_same_trans);
        [apply same_catalog_syncWholecellVendor
        |intros ?; apply (@keeps_ret _ catalog_same_refl)].
  - unfold wholecellOnlyRoute.
    apply (@keeps_tryCatch _ catalog_same_trans);
      [|intros _; apply (@keeps_ret _ catalog_same_refl)].
    apply (@keeps_bind _ catalog_same_trans);
      [apply (@keeps_call _ catalog_same_refl)|intros _].
    apply (@keeps_bind _ catalog_same_trans).
    + intros w. unfold wholesaleApisFindWholecell, bind, call.
      now destruct (rejects w WholesaleApisFind).
    + intros apis. destruct (length apis =? 0)%nat;
        [apply (@keeps_ret _ catalog_same_refl)|].
      apply (@keeps_bind _ catalog_same_trans);
        [|intros ?; apply (@keeps_ret _ catalog_same_refl)].
      apply (@keeps_allSettled _ catalog_same_refl catalog_same_trans).
      apply keeps_map. exact same_catalog_syncWholecellVendor.
Qed.

(** ** Escaped names *)

Lemma backslash_special : isSpecial backslash = true.
Proof. reflexivity. Qed.

Lemma not_special_not_backslash c :
  isSpecial c = false -> Ascii.eqb c backslash = false.
Proof.
  intros H. destruct (Ascii.eqb c backslash) eqn:E; auto.
  apply Ascii.eqb_eq in E. subst c. rewrite backslash_special in H. discriminate.
Qed.

Lemma literalOf_escapeRegex s : literalOf (escapeRegex s) = Some s.
Proof.
  induction s as [|c s IH]; [reflexivity|].
  cbn [escapeRegex]. destruct (isSpecial c) eqn:E.
  - cbn [literalOf]. change (Ascii.eqb backslash backslash) with true.
    cbv iota. now rewrite E, IH.
  - cbn [literalOf]. now rewrite (not_special_not_backslash _ E), E, IH.
Qed.

(** X16.  [escapeRegex] turns a name into a pattern that is a literal and
    stands for the name itself: every character of the class is behind a
    backslash and no backslash stands before anything else.  So two names
    with the same escaped form are the same name; a name without characters
    of the class is its own escaped form; and escaping at most doubles the
    length. *)
Theorem escaped_name_is_a_literal :
  (forall s, literalOf (escapeRegex s) = Some s) /\
  (forall s1 s2, escapeRegex s1 = escapeRegex s2 -> s1 = s2) /\
  (forall s,
      forallb (fun c => negb (isSpecial c)) (list_ascii_of_string s) = true ->
      escapeRegex s = s) /\
  (forall s,
      (String.length s <= String.length (escapeRegex s) <= 2 * String.length s)%nat).
Proof.
  split; [exact literalOf_escapeRegex|]. split; [|split].
  - intros s1 s2 H.
    pose proof (literalOf_escapeRegex s1) as H1. rewrite H in H1.
    rewrite literalOf_escapeRegex in H1. congruence.
  - induction s as [|c s IH]; [reflexivity|]. simpl list_ascii_of_string.
    cbn [forallb escapeRegex]. intros H. apply andb_true_iff in H.
    destruct H as [Hc Hs]. apply negb_true_iff in Hc. rewrite Hc.
    now rewrite IH.
  - induction s as [|c s IH]; [simpl; lia|].
    cbn [escapeRegex]. destruct (isSpecial c); cbn [String.length]; lia.
Qed.

(** ** The storage descriptor *)

Lemma prefix_app_l a b s :
  String.prefix (a ++ b) s = true -> String.prefix a s = true.
Proof.
  revert s. induction a as [|c a IH]; intros s; [now destruct s|].
  destruct s as [|d s]; simpl; [discriminate|].
  destruct (ascii_dec c d); [apply IH|discriminate].
Qed.

Lemma includes_app_l a b s :
  Js.includes (a ++ b) s = true -> Js.includes a s = true.
Proof.
  induction s as [|d s IH].
  - change (Js.includes (a ++ b) "") with (String.prefix (a ++ b) "" || false).
    change (Js.includes a "") with (String.prefix a "" || false).
    rewrite !orb_false_r. apply prefix_app_l.
  - change (Js.includes (a ++ b) (String d s))
      with (String.prefix (a ++ b) (String d s) || Js.includes (a ++ b) s).
    change (Js.includes a (String d s))
      with (String.prefix a (String d s) || Js.includes a s).
    rewrite !orb_true_iff. intros [H|H].
    + left. now apply (@prefix_app_l a b).
    + right. now apply IH.
Qed.

(** X17.  The storage descriptor [findMatchingStorageSpec] answers is
    "Unknown" or one of the parts of the storage specification, cut at ", ",
    that holds the capacity.  It is "Unknown" when the specification or the
    capacity is missing and when no part holds the capacity; when some part
    holds the capacity followed by "GB", the answer is the first such
    part. *)
Theorem storage_descriptor_is_a_part_of_the_specification storageSpec cap :
  let parts := Js.split ", " storageSpec in
  let r := findMatchingStorageSpec storageSpec cap in
  (storageSpec = "" \/ cap = "" -> r = "Unknown") /\
  (r = "Unknown" \/ (In r parts /\ Js.includes cap r = true)) /\
  (storageSpec <> "" -> cap <> "" ->
   (forall t, In t parts -> Js.includes cap t = false) -> r = "Unknown") /\
  (storageSpec <> "" -> cap <> "" ->
   forall t, In t parts -> Js.includes (cap ++ "GB") t = true ->
             find (Js.includes (cap ++ "GB")) parts = Some r).
Proof.
  intros parts r. unfold r, findMatchingStorageSpec. fold parts.
  split; [|split; [|split]].
  - intros [-> | ->]; [reflexivity|]. now rewrite orb_true_r.
  - destruct (negb (Js.truthy storageSpec) || negb (Js.truthy cap)); auto.
    destruct (find (Js.includes (cap ++ "GB")) parts) as [t|] eqn:E1.
    + apply find_some in E1. destruct E1 as [Hin Hinc]. right. split; auto.
      now apply (@includes_app_l cap "GB").
    + destruct (find (Js.includes cap) parts) as [t|] eqn:E2; auto.
      apply find_some in E2. auto.
  - intros Hs Hc Hnone.
    destruct (negb (Js.truthy storageSpec) || negb (Js.truthy cap)); auto.
    destruct (find (Js.includes (cap ++ "GB")) parts) as [t|] eqn:E1.
    + apply find_some in E1. destruct E1 as [Hin Hinc].
      apply (@includes_app_l cap "GB") in Hinc. rewrite Hnone in Hinc; auto.
      discriminate.
    + destruct (find (Js.includes cap) parts) as [t|] eqn:E2; auto.
      apply find_some in E2. destruct E2 as [Hin Hinc].
      rewrite Hnone in Hinc; auto. discriminate.
  - intros Hs Hc t Hin Hinc.
    assert (Ht : Js.truthy storageSpec = true /\ Js.truthy cap = true).
    { unfold Js.truthy. split; apply negb_true_iff, String.eqb_neq; auto. }
    destruct Ht as [-> ->]. simpl.
    destruct (find (Js.includes (cap ++ "GB")) parts) as [t'|] eqn:E1; auto.
    exfalso. pose proof (find_none _ _ E1 t Hin) as Hn. congruence.
Qed.

(** ** The routes, when the vendor list cannot be had *)

Lemma all_cons {A} (p : M A) (ps : list (M A)) w :
  all (p :: ps) w =
  (match fst (p w), fst (all ps (snd (p w))) with
   | Ok a, Ok others => Ok (a :: others)
   | Throw e, _ => Throw e
   | Ok _, Throw e => Throw e
   end,
   snd (all ps (snd (p w)))).
Proof.
  cbn [all]. destruct (p w) as [r w1]. simpl.
  now destruct (all ps w1) as [rs w2].
Qed.

Lemma defaultDatabase_run api w :
  defaultDatabase api w =
  if Js.truthy (database api) then (Ok api, w)
  else if rejects w (WholesaleApisUpdateOne (api_id api))
       then (Throw "store call failed", w)
       else (Ok (mkVendorApi (api_id api) (vendorId api) "wholecell"),
             setApis
               (map (fun a =>
                       if (api_id a =? api_id api)%N
                       then mkVendorApi (api_id a) (vendorId a) "wholecell"
                       else a)
                    (tep_admin_wholesale_apis w))
               w).
Proof.
  unfold defaultDatabase. destruct (Js.truthy (database api)); [reflexivity|].
  unfold bind, call.
  now destruct (rejects w (WholesaleApisUpdateOne (api_id api))).
Qed.

(** The defaulting step, vendor by vendor: it fails when the store refuses
    the update of a vendor without a [database], and otherwise answers the
    vendors with their defaults. *)
Lemma all_defaultDatabase_run apis :
  forall w,
    (existsb (defaultingFails w) apis = true ->
     exists e w', all (map defaultDatabase apis) w = (Throw e, w')) /\
    (existsb (defaultingFails w) apis = false ->
     exists w2,
       all (map defaultDatabase apis) w = (Ok (map withDefaultDatabase apis), w2) /\
       environment_kept w w2).
Proof.
  induction apis as [|api apis IH]; intros w.
  - split; [discriminate|]. intros _. exists w. repeat split.
  - cbn [existsb map]. rewrite all_cons, defaultDatabase_run.
    unfold withDefaultDatabase at 1, defaultingFails at 1 3.
    destruct (Js.truthy (database api)) eqn:Et; cbn [negb andb orb].
    + cbn [fst snd]. destruct (IH w) as [IH1 IH2]. split.
      * intros H. destruct (IH1 H) as (e & w' & ->). simpl. eauto.
      * intros H. destruct (IH2 H) as (w2 & -> & Henv). simpl. eauto.
    + destruct (rejects w (WholesaleApisUpdateOne (api_id api))) eqn:Er;
        cbn [orb fst snd].
      * split; [eauto|discriminate].
      * set (w1 := setApis _ w).
        assert (Hd : forall l, existsb (defaultingFails w1) l =
                               existsb (defaultingFails w) l).
        { intros l. reflexivity. }
        destruct (IH w1) as [IH1 IH2]. rewrite Hd in IH1, IH2. split.
        -- intros H. destruct (IH1 H) as (e & w' & ->). simpl. eauto.
        -- intros H. destruct (IH2 H) as (w2 & -> & Henv). exists w2.
           split; [reflexivity|]. destruct Henv as (? & ? & ? & ?).
           repeat split; assumption.
Qed.

(** ** Pipelines started together *)

Lemma settle_app {A} (t1 t2 : list (nat * M A)) w :
  settle (t1 ++ t2) w =
  ((fst (settle t1 w) ++ fst (settle t2 (snd (settle t1 w))))%list,
   snd (settle t2 (snd (settle t1 w)))).
Proof.
  revert w. induction t1 as [|[i p] t1 IH]; intros w; simpl.
  - now destruct (settle t2 w).
  - destruct (p w) as [r w1]. rewrite IH.
    now destruct (settle t1 w1) as [o1 w2].
Qed.

Lemma settle_slots {A} (turns : list (nat * M A)) w :
  map fst (fst (settle turns w)) = map fst turns.
Proof.
  revert w. induction turns as [|[i p] rest IH]; intros w; simpl; auto.
  destruct (p w) as [r w1]. specialize (IH w1).
  destruct (settle rest w1). simpl in *. now rewrite IH.
Qed.

Lemma find_slot_none {B} (l : list (nat * B)) i :
  ~ In i (map fst l) -> find (fun x => (fst x =? i)%nat) l = None.
Proof.
  induction l as [|[j b] l IH]; simpl; auto. intros H.
  destruct (j =? i)%nat eqn:E.
  - apply Nat.eqb_eq in E. tauto.
  - apply IH. tauto.
Qed.

Lemma map_fst_combine {A B} (l1 : list A) (l2 : list B) :
  length l1 = length l2 -> map fst (combine l1 l2) = l1.
Proof.
  revert l2. induction l1 as [|a l1 IH]; intros [|b l2] H; simpl in *;
    try discriminate; auto.
  now rewrite IH by lia.
Qed.

Lemma in_combine_seq {A} (l : list A) :
  forall k i p,
    In (i, p) (combine (seq k (length l)) l) ->
    (k <= i)%nat /\ nth_error l (i - k) = Some p.
Proof.
  induction l as [|a l IH]; intros k i p; simpl; [tauto|].
  intros [E|H].
  - injection E as <- <-. rewrite Nat.sub_diag. split; [lia|reflexivity].
  - apply IH in H. destruct H as [Hle H]. split; [lia|].
    replace (i - k)%nat with (S (i - S k)) by lia. exact H.
Qed.

Lemma nth_in_combine_seq {A} (l : list A) :
  forall k i p,
    nth_error l i = Some p -> In ((k + i)%nat, p) (combine (seq k (length l)) l).
Proof.
  induction l as [|a l IH]; intros k [|i] p; simpl; try discriminate.
  - intros [= ->]. left. f_equal. lia.
  - intros H. right. replace (k + S i)%nat with (S k + i)%nat by lia.
    now apply IH.
Qed.

Lemma nth_error_seq_at n : forall k i, (i < n)%nat -> nth_error (seq k n) i = Some (k + i)%nat.
Proof.
  induction n as [|n IH]; intros k [|i] H; simpl; try lia.
  - f_equal. lia.
  - rewrite IH by lia. f_equal. lia.
Qed.

(** Every pipeline handed to [allSettled] runs, and its slot keeps what it
    made of the world it started in: the one the pipelines that ran before
    it, all of them others, had left. *)
Lemma allSettled_slots {A} (ps : list (M A)) w :
  exists rs,
    fst (allSettled ps w) = Ok rs /\
    length rs = length ps /\
    forall i p,
      nth_error ps i = Some p ->
      exists before,
        (forall j q, In (j, q) before -> j <> i /\ nth_error ps j = Some q) /\
        nth_error rs i = Some (fst (p (snd (settle before w)))).
Proof.
  unfold allSettled.
  pose proof (takenOrder_places (runs_first w) ps) as Hperm.
  set (turns := takenOrder (runs_first w) ps) in *.
  assert (Hnd : NoDup (map fst turns)).
  { apply (Permutation_NoDup (Permutation_map fst (Permutation_sym Hperm))).
    rewrite map_fst_combine by (now rewrite length_seq). apply seq_NoDup. }
  destruct (settle turns w) as [outs w'] eqn:E.
  exists (map (settledAt outs) (seq 0 (length ps))).
  split; [reflexivity|]. split; [now rewrite length_map, length_seq|].
  intros i p Hi.
  assert (Hin : In (i, p) turns).
  { apply (Permutation_in _ (Permutation_sym Hperm)).
    exact (@nth_in_combine_seq _ ps 0 i p Hi). }
  destruct (in_split _ _ Hin) as (before & after & Eturns).
  assert (Hbefore : ~ In i (map fst before)).
  { rewrite Eturns, map_app in Hnd. simpl in Hnd.
    apply NoDup_remove_2 in Hnd. intros H. apply Hnd. apply in_or_app. now left. }
  exists before. split.
  - intros j q Hq. split.
    + intros ->. apply Hbefore. apply in_map_iff. exists (i, q). auto.
    + assert (H : In (j, q) turns) by (rewrite Eturns; apply in_or_app; now left).
      apply (Permutation_in _ Hperm) in H. apply in_combine_seq in H.
      destruct H as [_ H]. now rewrite Nat.sub_0_r in H.
  - assert (Hlt : (i < length ps)%nat) by (apply nth_error_Some; congruence).
    rewrite (map_nth_error _ _ _ (nth_error_seq_at 0 Hlt)). f_equal.
    assert (Eouts : outs = fst (settle turns w)) by now rewrite E.
    rewrite Eouts, Eturns, settle_app. cbn [fst]. unfold settledAt.
    rewrite find_app, find_slot_none by (now rewrite settle_slots).
    simpl settle. destruct (p (snd (settle before w))) as [r w1].
    destruct (settle after w1). simpl. now rewrite Nat.eqb_refl.
Qed.

Lemma allSettled_Ok {A} (ps : list (M A)) w :
  exists rs, fst (allSettled ps w) = Ok rs.
Proof. destruct (allSettled_slots ps w) as (rs & H & _). eauto. Qed.

Lemma genericRoute_run w :
  genericRoute w =
  if rejects w Connect then (Ok (Status500 "Failed to sync vendors"), w)
  else if rejects w WholesaleApisFind
       then (Ok (Status500 "Failed to sync vendors"), w)
       else
         let vendorApis := tep_admin_wholesale_apis w in
         match allSettled (map syncVendor vendorApis) w with
         | (Ok results, w') =>
             (Ok (Json "All vendor sync complete"
                    (map genericSlot (combine results vendorApis))), w')
         | (Throw e, w') => (Ok (Status500 "Failed to sync vendors"), w')
         end.
Proof.
  unfold genericRoute, tryCatch, wholesaleApisFind, bind, call, ret.
  destruct (rejects w Connect); [reflexivity|].
  destruct (rejects w WholesaleApisFind); [reflexivity|]. cbv zeta.
  now destruct (allSettled _ w) as [[rs|e] w'].
Qed.

Lemma wholecellOnlyRoute_run w :
  wholecellOnlyRoute w =
  if rejects w Connect
  then (Ok (Status500 "Failed to sync Wholecell vendors"), w)
  else if rejects w WholesaleApisFind
       then (Ok (Status500 "Failed to sync Wholecell vendors"), w)
       else
         let vendorApis :=
           filter (fun api => String.eqb (database api) "wholecell")
                  (tep_admin_wholesale_apis w) in
         if (length vendorApis =? 0)%nat
         then (Ok (Json "No Wholecell vendors found" []), w)
         else
           match allSettled (map syncWholecellVendor vendorApis) w with
           | (Ok results, w') =>
               (Ok (Json "Wholecell vendor sync complete"
                      (map wholecellOnlySlot (combine results vendorApis))), w')
           | (Throw e, w') =>
               (Ok (Status500 "Failed to sync Wholecell vendors"), w')
           end.
Proof.
  unfold wholecellOnlyRoute, tryCatch, wholesaleApisFindWholecell, bind, call,
    ret.
  destruct (rejects w Connect); [reflexivity|].
  destruct (rejects w WholesaleApisFind); [reflexivity|]. cbv zeta.
  destruct (length _ =? 0)%nat; [reflexivity|].
  now destruct (allSettled _ w) as [[rs|e] w'].
Qed.

Lemma wholecellRoute_run w :
  wholecellRoute w =
  if rejects w Connect then (Ok (Status500 "Failed to sync vendors"), w)
  else if rejects w WholesaleApisFind
       then (Ok (Status500 "Failed to sync vendors"), w)
       else
         match all (map defaultDatabase (tep_admin_wholesale_apis w)) w with
         | (Ok updatedVendorApis, w1) =>
             match allSettled (map wholecellPipeline updatedVendorApis) w1 with
             | (Ok results, w') =>
                 (Ok (Json "Vendor sync complete"
                        (map wholecellSlot (combine results updatedVendorApis))),
                  w')
             | (Throw e, w') => (Ok (Status500 "Failed to sync vendors"), w')
             end
         | (Throw e, w1) => (Ok (Status500 "Failed to sync vendors"), w1)
         end.
Proof.
  unfold wholecellRoute, tryCatch, wholesaleApisFind, bind, call, ret.
  destruct (rejects w Connect); [reflexivity|].
  destruct (rejects w WholesaleApisFind); [reflexivity|].
  destruct (all _ w) as [[apis|e] w1]; [|reflexivity].
  now destruct (allSettled _ w1) as [[rs|e] w'].
Qed.

(** X18.  A route answers 500 for the vendor list alone, never for what a
    vendor's pipeline did: the generic route and the route of the Wholecell
    vendors do so exactly when the connection or the reading of the vendor
    list fails, the restricted route also when the defaulting of a vendor
    without a [database] fails.  No route throws.  When the connection or
    the reading fails, nothing has been written. *)
Theorem routes_answer_500_for_the_vendor_list_alone w :
  (fst (genericRoute w) = Ok (Status500 "Failed to sync vendors") <->
   rejects w Connect = true \/ rejects w WholesaleApisFind = true) /\
  (fst (wholecellOnlyRoute w) = Ok (Status500 "Failed to sync Wholecell vendors") <->
   rejects w Connect = true \/ rejects w WholesaleApisFind = true) /\
  (fst (wholecellRoute w) = Ok (Status500 "Failed to sync vendors") <->
   rejects w Connect = true \/ rejects w WholesaleApisFind = true \/
   existsb (defaultingFails w) (tep_admin_wholesale_apis w) = true) /\
  (exists r1 r2 r3,
      fst (genericRoute w) = Ok r1 /\ fst (wholecellOnlyRoute w) = Ok r2 /\
      fst (wholecellRoute w) = Ok r3) /\
  (rejects w Connect = true \/ rejects w WholesaleApisFind = true ->
   snd (genericRoute w) = w /\ snd (wholecellOnlyRoute w) = w /\
   snd (wholecellRoute w) = w).
Proof.
  rewrite genericRoute_run, wholecellOnlyRoute_run, wholecellRoute_run.
  destruct (rejects w Connect) eqn:Ec.
  { simpl. do 3 (split; [split; auto|]).
    split; [do 3 eexists; repeat split|intros _; repeat split]. }
  destruct (rejects w WholesaleApisFind) eqn:Ef.
  { simpl. do 3 (split; [split; auto|]).
    split; [do 3 eexists; repeat split|intros _; repeat split]. }
  cbv zeta.
  set (apis := tep_admin_wholesale_apis w).
  set (only := filter (fun api => String.eqb (database api) "wholecell") apis).
  destruct (allSettled_Ok (map syncVendor apis) w) as [rs1 H1].
  destruct (allSettled (map syncVendor apis) w) as [[rs1'|e1] w1];
    simpl in H1; [|discriminate].
  assert (H2 : exists summary msg w2,
             (if (length only =? 0)%nat
              then (Ok (Json "No Wholecell vendors found" []), w)
              else
                match allSettled (map syncWholecellVendor only) w with
                | (Ok results, w') =>
                    (Ok (Json "Wholecell vendor sync complete"
                           (map wholecellOnlySlot (combine results only))), w')
                | (Throw e, w') =>
                    (Ok (Status500 "Failed to sync Wholecell vendors"), w')
                end) = (Ok (Json msg summary), w2)).
  { destruct (length only =? 0)%nat; [eauto|].
    destruct (allSettled_Ok (map syncWholecellVendor only) w) as [rs2 H2].
    destruct (allSettled (map syncWholecellVendor only) w) as [[rs2'|e2] w2];
      simpl in H2; [|discriminate].
    eauto. }
  destruct H2 as (summary2 & msg2 & w2 & ->).
  destruct (all_defaultDatabase_run apis w) as [Hfail Hok].
  destruct (existsb (defaultingFails w) apis) eqn:Ed.
  - destruct (Hfail eq_refl) as (e & w' & ->). simpl.
    split; [split; [discriminate|intros [H|H]; discriminate]|].
    split; [split; [discriminate|intros [H|H]; discriminate]|].
    split; [split; auto|].
    split; [do 3 eexists; repeat split|intros [H|H]; discriminate].
  - destruct (Hok eq_refl) as (w3 & -> & _).
    destruct (allSettled_Ok (map wholecellPipeline (map withDefaultDatabase apis)) w3)
      as [rs3 H3].
    destruct (allSettled (map wholecellPipeline (map withDefaultDatabase apis)) w3)
      as [[rs3'|e3] w4]; simpl in H3; [|discriminate].
    simpl.
    split; [split; [discriminate|intros [H|H]; discriminate]|].
    split; [split; [discriminate|intros [H|H]; discriminate]|].
    split; [split; [discriminate|intros [H|[H|H]]; discriminate]|].
    split; [do 3 eexists; repeat split|intros [H|H]; discriminate].
Qed.

(** ** The defaulting of the restricted route *)

Lemma defaulted_nil apis : defaulted [] apis = apis.
Proof. unfold defaulted. simpl. apply map_id. Qed.

Lemma defaulted_step i ids apis :
  map (fun a =>
         if (api_id a =? i)%N
         then mkVendorApi (api_id a) (vendorId a) "wholecell" else a)
      (defaulted ids apis) =
  defaulted (ids ++ [i]) apis.
Proof.
  unfold defaulted. rewrite map_map. apply map_ext. intros a.
  rewrite existsb_app. simpl. rewrite orb_false_r.
  destruct (existsb (N.eqb (api_id a)) ids); simpl.
  - now destruct (api_id a =? i)%N.
  - reflexivity.
Qed.

(** The store after the defaulting step has gone through. *)
Lemma all_defaultDatabase_store apis :
  forall w ids store,
    existsb (defaultingFails w) apis = false ->
    tep_admin_wholesale_apis w = defaulted ids store ->
    tep_admin_wholesale_apis (snd (all (map defaultDatabase apis) w)) =
    defaulted (ids ++ map api_id (lacking apis)) store.
Proof.
  induction apis as [|api apis IH]; intros w ids store Hok Hstore.
  - simpl. now rewrite app_nil_r.
  - cbn [existsb] in Hok. apply orb_false_iff in Hok. destruct Hok as [Hapi Hok].
    cbn [map]. rewrite all_cons, defaultDatabase_run.
    unfold lacking. cbn [filter]. unfold defaultingFails in Hapi.
    destruct (Js.truthy (database api)) eqn:Et; cbn [negb andb] in *.
    + exact (IH w ids store Hok Hstore).
    + rewrite Hapi.
      set (w1 := setApis _ w).
      assert (Hstore1 : tep_admin_wholesale_apis w1 =
                        defaulted (ids ++ [api_id api]) store).
      { unfold w1. cbn [tep_admin_wholesale_apis setApis].
        rewrite Hstore. apply defaulted_step. }
      specialize (IH w1 (ids ++ [api_id api])%list store Hok Hstore1).
      cbn [map]. rewrite <- app_assoc in IH. simpl in IH.
      exact IH.
Qed.

Lemma keeps_wholecellPipeline api : keeps catalog_kept (wholecellPipeline api).
Proof.
  unfold wholecellPipeline.
  destruct (String.eqb (database api) "wholecell");
    [|apply (@keeps_ret _ catalog_kept_refl)].
  apply (@keeps_bind _ catalog_kept_trans);
    [apply keeps_syncWholecellVendor
    |intros ?; apply (@keeps_ret _ catalog_kept_refl)].
Qed.

(** X20.  When the restricted route gets through its defaulting step, the
    defaults are in the store once it has answered: every vendor
    configuration has a [database], none has been added, dropped or
    reordered, and none has changed its identifier or its vendor.  With
    distinct identifiers, each configuration is the one the store had, given
    "wholecell" as its database if it had none. *)
Theorem defaulting_reaches_the_store w :
  rejects w Connect = false ->
  rejects w WholesaleApisFind = false ->
  existsb (defaultingFails w) (tep_admin_wholesale_apis w) = false ->
  let before := tep_admin_wholesale_apis w in
  let after := tep_admin_wholesale_apis (snd (wholecellRoute w)) in
  Forall (fun api => Js.truthy (database api) = true) after /\
  map api_id after = map api_id before /\
  map vendorId after = map vendorId before /\
  (NoDup (map api_id before) -> after = map withDefaultDatabase before).
Proof.
  intros Hc Hf Hd before after.
  assert (Hafter : after = defaulted (map api_id (lacking before)) before).
  { unfold after. rewrite wholecellRoute_run, Hc, Hf. fold before.
    pose proof (@all_defaultDatabase_store before w [] before Hd
                  (eq_sym (defaulted_nil before))) as Hstore.
    destruct (all_defaultDatabase_run before w) as [_ Hok].
    destruct (Hok Hd) as (w2 & Hall & _). rewrite Hall in *. simpl in Hstore.
    pose proof (@keeps_allSettled _ catalog_kept_refl catalog_kept_trans _
                  (map wholecellPipeline (map withDefaultDatabase before))
                  (@keeps_map catalog_kept _ _ wholecellPipeline _
                     keeps_wholecellPipeline) w2) as Hk.
    destruct (allSettled _ w2) as [[rs|e] w3]; destruct Hk as (_ & Ha & _);
      simpl in *; congruence. }
  rewrite Hafter. unfold defaulted. split; [|split; [|split]].
  - apply Forall_forall. intros x Hx. apply in_map_iff in Hx.
    destruct Hx as (a & <- & Ha).
    destruct (existsb (N.eqb (api_id a)) (map api_id (lacking before))) eqn:E;
      [reflexivity|].
    destruct (Js.truthy (database a)) eqn:Et; [reflexivity|].
    assert (Hin : In (api_id a) (map api_id (lacking before))).
    { apply in_map. apply filter_In. split; auto. now rewrite Et. }
    assert (Hex : existsb (N.eqb (api_id a)) (map api_id (lacking before)) = true).
    { apply existsb_exists. exists (api_id a). split; auto. apply N.eqb_refl. }
    congruence.
  - rewrite map_map. apply map_ext. intros a.
    now destruct (existsb (N.eqb (api_id a)) _).
  - rewrite map_map. apply map_ext. intros a.
    now destruct (existsb (N.eqb (api_id a)) _).
  - intros Hnd. apply map_ext_in. intros a Ha. unfold withDefaultDatabase.
    destruct (existsb (N.eqb (api_id a)) (map api_id (lacking before))) eqn:E.
    + apply existsb_exists in E. destruct E as (i & Hi & Ei).
      apply N.eqb_eq in Ei. subst i. apply in_map_iff in Hi.
      destruct Hi as (b & Eb & Hb). apply filter_In in Hb.
      destruct Hb as [Hb Hlack].
      assert (b = a) by (eapply NoDup_map_eq; eauto). subst b.
      apply negb_true_iff in Hlack. now rewrite Hlack.
    + destruct (Js.truthy (database a)) eqn:Et; [reflexivity|].
      assert (Hex : existsb (N.eqb (api_id a)) (map api_id (lacking before)) = true).
      { apply existsb_exists. exists (api_id a). split; [|apply N.eqb_refl].
        apply in_map. apply filter_In. split; auto. now rewrite Et. }
      congruence.
Qed.

(** ** When a run of the restricted adapter throws *)

Lemma validOf_throws w groups :
  forall valid skipped e,
    validOf w groups valid skipped = Throw e ->
    exists k g, In (k, g) groups /\ resolution w g = Throw e.
Proof.
  induction groups as [|[k g] rest IH]; simpl; intros valid skipped e H;
    [discriminate|].
  destruct (resolution w g) as [[p|]|e'] eqn:Er.
  - destruct (IH _ _ _ H) as (k' & g' & Hin & Hr). eauto.
  - destruct (IH _ _ _ H) as (k' & g' & Hin & Hr). eauto.
  - inversion H; subst. exists k, g. auto.
Qed.

Lemma validOf_first_throw w pre k g post e :
  (forall kg, In kg pre -> exists r, resolution w (snd kg) = Ok r) ->
  resolution w g = Throw e ->
  forall valid skipped,
    validOf w (pre ++ (k, g) :: post)%list valid skipped = Throw e.
Proof.
  intros Hpre Hg. induction pre as [|[k' g'] pre IH]; intros valid skipped; simpl.
  - now rewrite Hg.
  - destruct (Hpre (k', g') (or_introl eq_refl)) as [r Hr]. simpl in Hr.
    rewrite Hr.
    destruct r; apply IH; intros kg Hin; apply Hpre; now right.
Qed.

Lemma wholecellGroups_returns vendorApi validGroups t w :
  exists t', fst (wholecellGroups vendorApi validGroups t w) = Ok t'.
Proof.
  destruct (wholecellGroups_spec vendorApi validGroups t w) as (t' & ops & H & _).
  eauto.
Qed.

(** [syncWholecellVendorOps], stage by stage. *)
Lemma syncWholecellVendorOps_run vendorApi w :
  syncWholecellVendorOps vendorApi w =
  match vendor_feed w (vendorId vendorApi) with
  | Throw e => (Throw e, w)
  | Ok vendorItems =>
      let groupedItems := groupItemsByProductAndCondition vendorItems in
      match validOf w groupedItems [] 0 with
      | Throw e => (Throw e, w)
      | Ok (validGroups, skippedProducts) =>
          match wholecellGroups vendorApi validGroups (mkWTally [] 0 0 0) w with
          | (Ok t, w') =>
              (Ok (w_bulkOps t,
                   mkWholecellReport (vendorId vendorApi) (length vendorItems)
                     (length validGroups) skippedProducts
                     (w_newVendorProducts t) (w_updatedVendorProducts t)
                     (w_totalStockProcessed t) (length (w_bulkOps t))), w')
          | (Throw e, w') => (Throw e, w')
          end
      end
  end.
Proof.
  unfold syncWholecellVendorOps, fetchItems. unfold bind at 1.
  destruct (vendor_feed w (vendorId vendorApi)) as [items|e]; [|reflexivity].
  cbv zeta. unfold bind at 1. rewrite filterValid_pure.
  destruct (validOf w _ [] 0) as [[valid skipped]|e]; [|reflexivity].
  unfold bind, ret.
  now destruct (wholecellGroups vendorApi valid _ w) as [[t|e] w'].
Qed.

(** X21.  A run of the restricted adapter throws in three cases and no
    other: the feed cannot be fetched; the catalog refuses the lookup of a
    group in step one, which has no [try]; or the store refuses the batch.
    In the first two cases the run stops where it stands, having read and
    written nothing more.  In the third the batch may have been written in
    part: what the store had applied before it refused stays applied, and
    every operation applied is one of the batch.  In none of the three has
    the catalog or the list of vendors changed.  A feed that cannot be
    fetched stops the generic adapter in the same way. *)
Theorem wholecell_run_throws_in_three_cases vendorApi w :
  (forall e,
      vendor_feed w (vendorId vendorApi) = Throw e ->
      syncWholecellVendor vendorApi w = (Throw e, w) /\
      syncVendor vendorApi w = (Throw e, w)) /\
  (forall items pre k g post e,
      vendor_feed w (vendorId vendorApi) = Ok items ->
      groupItemsByProductAndCondition items = (pre ++ (k, g) :: post)%list ->
      (forall kg, In kg pre -> exists r, resolution w (snd kg) = Ok r) ->
      resolution w g = Throw e ->
      syncWholecellVendor vendorApi w = (Throw e, w)) /\
  (forall ops report w1,
      syncWholecellVendorOps vendorApi w = (Ok (ops, report), w1) ->
      ops <> [] ->
      rejects w VendorProductsBulkWrite = true ->
      fst (syncWholecellVendor vendorApi w) =
        Throw (failure VendorProductsBulkWrite) /\
      (forall op, In op (appliedBy w1 ops) -> In op ops) /\
      tep_vendor_products (snd (syncWholecellVendor vendorApi w)) =
        fst (fold_left applyOp (appliedBy w1 ops)
               (tep_vendor_products w, next_oid w1))) /\
  (forall e,
      fst (syncWholecellVendor vendorApi w) = Throw e ->
      (vendor_feed w (vendorId vendorApi) = Throw e /\
       snd (syncWholecellVendor vendorApi w) = w) \/
      (exists items k g,
          vendor_feed w (vendorId vendorApi) = Ok items /\
          In (k, g) (groupItemsByProductAndCondition items) /\
          resolution w g = Throw e /\
          snd (syncWholecellVendor vendorApi w) = w) \/
      (e = failure VendorProductsBulkWrite /\
       rejects w VendorProductsBulkWrite = true /\
       exists ops report,
         fst (syncWholecellVendorOps vendorApi w) = Ok (ops, report) /\
         ops <> [])) /\
  catalog_kept w (snd (syncWholecellVendor vendorApi w)).
Proof.
  split; [|split; [|split; [|split]]].
  - intros e Hfeed. split.
    + unfold syncWholecellVendor. unfold bind at 1.
      now rewrite syncWholecellVendorOps_run, Hfeed.
    + unfold syncVendor, syncVendorOps, fetchItems, bind. now rewrite Hfeed.
  - intros items pre k g post e Hfeed Hgroups Hpre Hg.
    unfold syncWholecellVendor. unfold bind at 1.
    rewrite syncWholecellVendorOps_run, Hfeed. cbv zeta.
    now rewrite Hgroups, (@validOf_first_throw w pre k g post e Hpre Hg).
  - intros ops report w1 Hops Hne Hrej.
    pose proof (keeps_syncWholecellVendorOps vendorApi w) as Hk.
    rewrite Hops in Hk. destruct Hk as (_ & Hrec & _ & Hr & _).
    simpl in Hrec, Hr.
    unfold syncWholecellVendor. unfold bind at 1 3. rewrite Hops.
    destruct ops as [|op ops]; [congruence|]. cbn [length Nat.eqb].
    unfold bind. rewrite bulkWrite_run, Hr, Hrej.
    cbn [fst snd tep_vendor_products setNextOid setVendorProducts].
    rewrite Hrec. split; [reflexivity|]. split; [apply appliedBy_in|reflexivity].
  - intros e.
    unfold syncWholecellVendor. unfold bind at 1 3 5.
    pose proof (keeps_syncWholecellVendorOps vendorApi w) as Hk.
    pose proof (syncWholecellVendorOps_run vendorApi w) as Hrun.
    destruct (vendor_feed w (vendorId vendorApi)) as [items|e0] eqn:Hfeed.
    + cbv zeta in Hrun.
      destruct (validOf w (groupItemsByProductAndCondition items) [] 0)
        as [[valid skipped]|e1] eqn:Hvalid.
      * destruct (wholecellGroups_returns vendorApi valid (mkWTally [] 0 0 0) w)
          as [t Ht].
        destruct (wholecellGroups vendorApi valid (mkWTally [] 0 0 0) w)
          as [[t'|e2] w1]; simpl in Ht; [|discriminate].
        injection Ht as ->. rewrite Hrun in *. simpl in Hk.
        destruct (length (w_bulkOps t) =? 0)%nat eqn:El; [discriminate|].
        unfold bind. rewrite bulkWrite_run.
        destruct Hk as (_ & _ & _ & Hrej & _). rewrite Hrej.
        destruct (rejects w VendorProductsBulkWrite) eqn:Er; [|discriminate].
        simpl. intros [= <-]. right. right. split; auto. split; auto.
        eexists. eexists. split; [reflexivity|].
        intros E. rewrite E in El. discriminate.
      * rewrite Hrun in *. simpl. intros [= <-]. right. left.
        apply validOf_throws in Hvalid.
        destruct Hvalid as (k & g & Hin & Hr). exists items, k, g. auto.
    + rewrite Hrun in *. simpl. intros [= <-]. auto.
  - apply keeps_syncWholecellVendor.
Qed.

(** ** What step two logs *)

Lemma wholecellTry_log vendorApi k g p t w :
  console_error
    (snd (tryCatch (wholecellGroup vendorApi (g, p) t)
                   (fun _ => console_error_log k ;;; ret t) w)) =
  (console_error w ++ if stepTwoFails w vendorApi (g, p) then [k] else [])%list.
Proof.
  unfold tryCatch, wholecellGroup, createSelectedOptionsForWholecell,
    productsFindIn, stepTwoFails. simpl fst. simpl snd.
  unfold bind at 1. unfold bind at 1. unfold bind at 1. unfold call at 1.
  destruct (rejects w (ProductsFindIn (productNames (g_items g)))) eqn:Er;
    [reflexivity|].
  cbv beta iota. unfold drawing.
  pose proof (noStock_aggregateWholecell (g_items g)
                (filter (fun a => existsb (String.eqb (name a))
                                          (productNames (g_items g)))
                        (tep_admin_products w)) (next_oid w)) as Hn.
  destruct (aggregateWholecell _ _ _) as [opts n]. simpl in Hn.
  cbv beta iota. rewrite Hn.
  destruct (existsb available (g_items g)); simpl negb; cbv iota.
  - unfold vendorProductsFindOne, bind, call. simpl.
    destruct (rejects w (VendorProductsFindOne _ _ _)); simpl.
    + reflexivity.
    + destruct (find _ (tep_vendor_products w)); simpl; now rewrite app_nil_r.
  - simpl. now rewrite app_nil_r.
Qed.

Lemma stepTwoFails_kept w w' vendorApi valid :
  stores_kept w w' -> stepTwoFails w' vendorApi valid = stepTwoFails w vendorApi valid.
Proof.
  intros (_ & _ & _ & Hr & _). unfold stepTwoFails. now rewrite Hr.
Qed.

Lemma wholecellGroups_log vendorApi validGroups :
  forall t w,
    console_error (snd (wholecellGroups vendorApi validGroups t w)) =
    (console_error w ++
     map fst (filter (fun kv => stepTwoFails w vendorApi (snd kv)) validGroups))%list.
Proof.
  induction validGroups as [|[k [g p]] rest IH]; intros t w.
  - simpl. now rewrite app_nil_r.
  - pose proof (wholecellTry_step vendorApi k g p t w) as Hstep.
    pose proof (wholecellTry_log vendorApi k g p t w) as Hlog.
    pose proof (keeps_wholecellTry vendorApi k (g, p) t w) as Hkept.
    simpl wholecellGroups. unfold bind at 1.
    destruct (tryCatch _ _ w) as [[t1|e] w1]; simpl in Hstep, Hlog, Hkept;
      [|discriminate].
    rewrite IH, Hlog.
    rewrite (filter_ext _ (fun kv => stepTwoFails w vendorApi (snd kv)))
      by (intros kv; now apply stepTwoFails_kept).
    cbn [filter snd]. rewrite <- app_assoc.
    now destruct (stepTwoFails w vendorApi (g, p)).
Qed.

Lemma step_two_three_ways w vendorApi (validGroups : JsMap (Group * AdminProduct)) :
  length validGroups =
  (length (filter (fun kv => pushes w vendorApi (snd kv)) validGroups) +
   length (filter (fun kv => stepTwoFails w vendorApi (snd kv)) validGroups) +
   length (filter (fun kv =>
                     negb (rejects w (ProductsFindIn
                                        (productNames (g_items (fst (snd kv)))))) &&
                     negb (existsb available (g_items (fst (snd kv)))))
                  validGroups))%nat.
Proof.
  induction validGroups as [|[k [g p]] rest IH]; [reflexivity|].
  cbn [filter length snd fst]. unfold pushes at 1, stepTwoFails at 1.
  cbn [fst snd].
  destruct (rejects w (ProductsFindIn (productNames (g_items g))));
    destruct (existsb available (g_items g));
    destruct (rejects w (VendorProductsFindOne _ _ _));
    cbn [negb andb orb length]; lia.
Qed.

(** X22.  Step two of the restricted adapter takes every valid group one
    of three ways and never throws: the group adds an operation; or one of
    its lookups is refused, and its key goes to the error log; or none of
    its items is [Available], and nothing is said.  The log gets the keys of
    the groups that failed, in their order, and nothing else; the stores are
    not written; and a pass that comes through its first step has logged
    just these keys for the groups the catalog knows. *)
Theorem step_two_logs_the_groups_that_fail vendorApi w :
  (forall validGroups t,
      let pushed := filter (fun kv => pushes w vendorApi (snd kv)) validGroups in
      let failed :=
        filter (fun kv => stepTwoFails w vendorApi (snd kv)) validGroups in
      let silent :=
        filter (fun kv =>
                  negb (rejects w (ProductsFindIn
                                     (productNames (g_items (fst (snd kv)))))) &&
                  negb (existsb available (g_items (fst (snd kv)))))
               validGroups in
      (exists t',
          fst (wholecellGroups vendorApi validGroups t w) = Ok t' /\
          length (w_bulkOps t') = (length (w_bulkOps t) + length pushed)%nat) /\
      console_error (snd (wholecellGroups vendorApi validGroups t w)) =
        (console_error w ++ map fst failed)%list /\
      length validGroups = (length pushed + length failed + length silent)%nat /\
      stores_kept w (snd (wholecellGroups vendorApi validGroups t w))) /\
  (forall ops report items,
      fst (syncWholecellVendorOps vendorApi w) = Ok (ops, report) ->
      vendor_feed w (vendorId vendorApi) = Ok items ->
      console_error (snd (syncWholecellVendorOps vendorApi w)) =
      (console_error w ++
       map fst (filter (fun kv => stepTwoFails w vendorApi (snd kv))
                       (matchedGroups w (groupItemsByProductAndCondition items))))%list).
Proof.
  split.
  - intros validGroups t. cbv zeta. split; [|split; [|split]].
    + destruct (wholecellGroups_spec vendorApi validGroups t w)
        as (t' & ops & Hrun & Hops & Hall & _).
      exists t'. split; [exact Hrun|].
      apply Forall2_length in Hall. now rewrite Hops, length_app, Hall.
    + apply wholecellGroups_log.
    + apply step_two_three_ways.
    + apply keeps_wholecellGroups.
  - intros ops report items Hrun Hfeed.
    rewrite syncWholecellVendorOps_run in *. rewrite Hfeed in *. cbv zeta in *.
    destruct (validOf w (groupItemsByProductAndCondition items) [] 0)
      as [[valid skipped]|e] eqn:Hvalid; [|discriminate].
    pose proof (validOf_Ok_inv _ _ _ _ Hvalid) as Hres.
    rewrite (@validOf_Ok w _ Hres) in Hvalid by apply groupItems_NoDup.
    simpl in Hvalid. injection Hvalid as <- <-.
    pose proof (wholecellGroups_log vendorApi
                  (matchedGroups w (groupItemsByProductAndCondition items))
                  (mkWTally [] 0 0 0) w) as Hlog.
    destruct (wholecellGroups vendorApi _ _ w) as [[t|e] w1]; exact Hlog.
Qed.

(** ** What the generic adapter writes, were [condition] bound *)

Lemma findOrCreateProduct_in productData w p w1 :
  findOrCreateProduct productData w = (Ok p, w1) -> In p (tep_admin_products w1).
Proof.
  rewrite findOrCreateProduct_run. cbv zeta.
  destruct (rejects w (ProductsFindOne _)); [discriminate|].
  destruct (find _ (tep_admin_products w)) as [a|] eqn:E.
  - intros [= -> ->]. now apply find_some in E.
  - destruct (rejects w (ProductsInsertOne _)); [discriminate|].
    intros [= <- <-]. simpl. apply in_or_app. right. now left.
Qed.

Lemma genericDocument_grown w w' vendorApi c op :
  catalog_grown w w' ->
  genericDocument w vendorApi c op -> genericDocument w' vendorApi c op.
Proof.
  intros (created & E & _) (d & p & Hd & Hin & Hrest).
  exists d, p. split; auto. split; auto. rewrite E. apply in_or_app. now left.
Qed.

Lemma createSelectedOptions_NoDup items next :
  NoDup (map keyOf (fst (createSelectedOptions items next))).
Proof.
  rewrite createSelectedOptions_fold. simpl fst.
  pose proof (generic_filed items next) as H.
  rewrite (keyed_keys (filed_so_far_keyed H)). now destruct H.
Qed.

Lemma genericGroups_documents vendorApi c groups :
  forall t w t' w',
    genericGroups vendorApi groups t w = (Ok t', w') ->
    global_condition w = Some c ->
    Forall (genericDocument w vendorApi c) (bulkOps t) ->
    Forall (genericDocument w' vendorApi c) (bulkOps t').
Proof.
  induction groups as [|[k g] rest IH]; simpl; intros t w t' w' H Hc Ht.
  - now inv H.
  - apply bind_Ok in H. destruct H as (t1 & w1 & Htry & H).
    pose proof (keeps_genericGroup vendorApi g t w) as Hk.
    pose proof (grows_genericGroup vendorApi g t w) as Hg.
    unfold tryCatch in Htry.
    destruct (genericGroup vendorApi g t w) as [[t2|e] w2] eqn:Eg;
      simpl in Hk, Hg.
    + inv Htry. destruct Hk as (_ & _ & _ & _ & _ & Hc1).
      apply (IH _ _ _ _ H); [congruence|].
      apply genericGroup_Ok in Eg.
      destruct Eg as (product & w3 & opts & Hfind & Hopts & Hw1 &
                      [[_ ->]|(Hstock & c' & Hc' & Hb)]).
      * eapply Forall_impl; [|exact Ht].
        intros op. now apply genericDocument_grown.
      * rewrite Hb. apply Forall_app. split.
        { eapply Forall_impl; [|exact Ht].
          intros op. now apply genericDocument_grown. }
        constructor; [|constructor].
        pose proof (keeps_findOrCreateProduct (g_product g) w) as Hk3.
        rewrite Hfind in Hk3. destruct Hk3 as (_ & _ & _ & _ & _ & Hc3).
        simpl in Hc3. assert (c' = c) by congruence. subst c'.
        apply findOrCreateProduct_in in Hfind.
        assert (Hin : In product (tep_admin_products w1))
          by (rewrite Hw1; exact Hfind).
        assert (Hnd : NoDup (map keyOf opts))
          by (rewrite Hopts; apply createSelectedOptions_NoDup).
        destruct (find _ (tep_vendor_products w3)); eexists; exists product;
          (split; [reflexivity|]); simpl; repeat (split; [solve [auto]|]).
        -- intros f u [= <- _]. reflexivity.
        -- intros f u [=].
    + unfold bind, console_error_log, ret in Htry. inv Htry.
      destruct Hk as (_ & _ & _ & _ & _ & Hc2).
      apply (IH _ _ _ _ H); [simpl; congruence|].
      eapply Forall_impl; [|exact Ht].
      intros op Hd. apply (@genericDocument_grown w2); [|].
      * exists []. split; [simpl; now rewrite app_nil_r|constructor].
      * now apply (@genericDocument_grown w).
Qed.

(** X23.  Were [condition] bound, to an object with the identifier [c],
    the batch of a pass of the generic adapter would hold two kinds of
    operation and no other.  A zero-out finds a persisted record of the
    vendor by its identifier and sets its options alone.  Every other
    operation writes a whole document: the vendor's, for a product that is an
    entry of the catalog by then, under [c] (the grade of the group, which
    split the feed, is not written), without a database, with at least one
    unit in stock and no two options of one key; an update finds its record
    by the same triple. *)
Theorem generic_documents_are_well_formed vendorApi w ops report w' c :
  syncVendorOps vendorApi w = (Ok (ops, report), w') ->
  global_condition w = Some c ->
  forall op,
    In op ops ->
    (exists e,
        In e (tep_vendor_products w) /\ vp_vendorId e = vendorId vendorApi /\
        op = zeroOutOp e) \/
    genericDocument w' vendorApi c op.
Proof.
  intros H Hc op Hop.
  pose proof (grows_currentCombinationsOf) as Hgrow.
  apply syncVendorOps_Ok in H.
  destruct H as (items & t & w1 & current & _ & Hloop & _ & Hcur & Hops & _).
  rewrite Hops in Hop. apply in_app_iff in Hop. destruct Hop as [Hop|Hop].
  - right.
    pose proof (@genericGroups_documents vendorApi c _ _ _ _ _ Hloop Hc
                  (Forall_nil _)) as Hall.
    rewrite Forall_forall in Hall.
    apply (@genericDocument_grown w1 w'); [|now apply Hall].
    specialize (Hgrow (groupItemsByProductAndCondition items) [] w1).
    now rewrite Hcur in Hgrow.
  - left. destruct op as [d|f u].
    + exfalso. clear -Hop.
      induction (filter (fun r => (vp_vendorId r =? vendorId vendorApi)%N)
                        (tep_vendor_products w)) as [|x l IH]; simpl in Hop; auto.
      destruct (inCombinations current (vp_product x) (vp_condition x));
        [auto|]. destruct Hop as [Hop|Hop]; [discriminate|auto].
    + apply markOutOfStock_inv in Hop.
      destruct Hop as (x & Hx & -> & -> & _). apply filter_In in Hx.
      destruct Hx as [Hx Hv]. apply N.eqb_eq in Hv. exists x. auto.
Qed.

(** ** Which records the generic adapter zeroes *)







(** ** Two runs over one feed, record by record *)

















(** ** Vendors side by side *)


















(** *** The generic adapter as the module stands *)















(** ** The further properties at sample data *)

Lemma generic_option_holds_the_units_of_its_key_witness :
  uniqueNumbers Cases.genericOption =
    map unitIdentifier
        (filedUnder (fun item => negb (isSold item)) genericKeyOf
                    (keyOf Cases.genericOption) Sample.twoUnits) /\
  stock Cases.genericOption = 2%Z.
Proof.
  destruct (proj2 (proj2 (generic_option_holds_the_units_of_its_key
                            Sample.twoUnits 100)) Cases.genericOption)
    as (Hu & Hs & _).
  - simpl. now left.
  - split; [exact Hu|]. rewrite Hs. reflexivity.
Defined.

Lemma wholecell_option_holds_the_units_of_its_key_witness :
  uniqueNumbers Cases.wholecellOption =
    map unitIdentifier
        (filedUnder available (wholecellKeyOf (adminProductMapOf []))
                    (keyOf Cases.wholecellOption) Sample.twoUnits) /\
  stock Cases.wholecellOption = 2%Z.
Proof.
  destruct (proj2 (proj2 (wholecell_option_holds_the_units_of_its_key
                            Sample.twoUnits [] 100)) Cases.wholecellOption)
    as (Hu & Hs & _).
  - simpl. now left.
  - split; [exact Hu|]. rewrite Hs. reflexivity.
Defined.

Lemma sold_out_group_pushes_nothing_witness :
  fst (genericGroup Sample.vendor Cases.soldOut (mkTally [] 0 0)
         (Sample.world [Sample.acmeX1 ""] [] [] None))
  = Ok (mkTally [] 0 0).
Proof.
  apply (proj2 sold_out_group_pushes_nothing Sample.vendor Cases.soldOut
           (mkTally [] 0 0) (Sample.world [Sample.acmeX1 ""] [] [] None)
           (Sample.acmeX1 "") (Sample.world [Sample.acmeX1 ""] [] [] None)).
  - reflexivity.
  - reflexivity.
Defined.

Lemma merge_adds_up_witness :
  totalStock (mergeSelectedOptions [Stocked.persisted] [Stocked.aggregated]) = 5%Z.
Proof.
  destruct (@merge_adds_up [Stocked.persisted] [Stocked.aggregated]) as (Hs & _).
  - repeat constructor. simpl. tauto.
  - rewrite Hs. reflexivity.
Defined.

Lemma merge_keeps_what_it_does_not_meet_witness :
  mergeSelectedOptions [Stocked.persisted] [] = [Stocked.persisted].
Proof.
  apply (proj1 (proj2 merge_keeps_what_it_does_not_meet)).
  repeat constructor. simpl. tauto.
Defined.

Lemma other_vendors_records_untouched_witness :
  In Cases.neighbour
     (tep_vendor_products
        (snd (syncWholecellVendor Sample.vendor
                (Sample.world [Sample.acmeX1 ""] [Cases.neighbour]
                   Sample.twoUnits None)))).
Proof.
  apply (proj1 other_vendors_records_untouched).
  - simpl. now left.
  - simpl. discriminate.
Defined.

Lemma unbound_condition_stops_every_pass_witness :
  exists e,
    fst (syncVendor Sample.vendor
           (Sample.world [Sample.acmeX1 ""] [] Sample.twoUnits None)) = Throw e.
Proof.
  destruct (@unbound_condition_stops_every_pass Sample.vendor
              (Sample.world [Sample.acmeX1 ""] [] Sample.twoUnits None)
              (Sample.unit "128" "" "A" "Available" "esn-1")
              [Sample.unit "128" "" "A" "Available" "esn-2"])
    as (e & He & _).
  - reflexivity.
  - reflexivity.
  - exists e. exact He.
Defined.

Lemma reports_add_up_witness :
  wr_totalOperations (mkWholecellReport 7 3 2 0 2 0 3 2) = 2%nat.
Proof.
  destruct (proj2 reports_add_up Sample.vendor TwoRuns.start
              (mkWholecellReport 7 3 2 0 2 0 3 2) TwoRuns.afterFirst)
    as (_ & _ & Hops & _).
  - reflexivity.
  - rewrite Hops. reflexivity.
Defined.

Lemma existing_product_bears_the_name_witness :
  In (Sample.acmeX1 "") [Sample.acmeX1 ""] /\
  icontains "Acme X1" "Acme X1" = true.
Proof.
  destruct (@existing_product_bears_the_name (mkProduct "Acme" "X1" "" "" "")
              (Sample.world [Sample.acmeX1 ""] [] [] None) (Sample.acmeX1 ""))
    as (Hin & Hc & _).
  - reflexivity.
  - split; [exact Hin|exact Hc].
Defined.


Lemma wholecell_documents_are_well_formed_witness :
  exists d p,
    documentOf
      (insertOne (mkData 7 1 fixedConditionId [Cases.wholecellOption] "wholecell"))
      = Some d /\
    In p Tombstone.catalog /\ d_product d = ap_id p.
Proof.
  destruct (@wholecell_documents_are_well_formed Sample.vendor Tombstone.before
              [insertOne (mkData 7 1 fixedConditionId [Cases.wholecellOption]
                            "wholecell")]
              (mkWholecellReport 7 2 1 0 1 0 2 1)
              (snd (syncWholecellVendorOps Sample.vendor Tombstone.before))
              eq_refl
              (insertOne (mkData 7 1 fixedConditionId [Cases.wholecellOption]
                            "wholecell")))
    as (d & p & Hd & Hp & _ & Hprod & _).
  - now left.
  - exists d, p. auto.
Defined.

Lemma escaped_name_is_a_literal_witness : escapeRegex "Acme X1" = "Acme X1".
Proof.
  apply (proj1 (proj2 (proj2 escaped_name_is_a_literal))). reflexivity.
Defined.

Lemma storage_descriptor_is_a_part_of_the_specification_witness :
  find (Js.includes ("128" ++ "GB")) (Js.split ", " "64GB 4GB RAM, 128GB 6GB RAM")
  = Some (findMatchingStorageSpec "64GB 4GB RAM, 128GB 6GB RAM" "128").
Proof.
  apply (proj2 (proj2 (proj2
           (storage_descriptor_is_a_part_of_the_specification
              "64GB 4GB RAM, 128GB 6GB RAM" "128")))) with (t := "128GB 6GB RAM").
  - discriminate.
  - discriminate.
  - simpl. tauto.
  - reflexivity.
Defined.

Lemma defaulting_reaches_the_store_witness :
  Forall (fun api => Js.truthy (database api) = true)
         (tep_admin_wholesale_apis (snd (wholecellRoute Cases.noDatabase))).
Proof.
  apply (@defaulting_reaches_the_store Cases.noDatabase eq_refl eq_refl eq_refl).
Defined.

Lemma wholecell_run_throws_in_three_cases_witness :
  syncWholecellVendor Sample.vendor Cases.noFeed = (Throw "timeout", Cases.noFeed) /\
  fst (syncWholecellVendor Sample.vendor Cases.halfWritten) =
    Throw "bulk write failed" /\
  map identityOf
      (tep_vendor_products (snd (syncWholecellVendor Sample.vendor Cases.halfWritten)))
    = [(101%N, 7%N, 1%N, fixedConditionId)].
Proof.
  split.
  - apply (proj1 (@wholecell_run_throws_in_three_cases Sample.vendor Cases.noFeed)).
    reflexivity.
  - destruct (proj1 (proj2 (proj2 (@wholecell_run_throws_in_three_cases
                                     Sample.vendor Cases.halfWritten)))
                [insertOne (mkData 7 1 fixedConditionId [Cases.wholecellOption]
                              "wholecell")]
                (mkWholecellReport 7 2 1 0 1 0 2 1)
                (snd (syncWholecellVendorOps Sample.vendor Cases.halfWritten))
                eq_refl)
      as (Hthrow & _ & Hrec).
    + discriminate.
    + reflexivity.
    + split; [exact Hthrow|]. rewrite Hrec. reflexivity.
Defined.

Lemma step_two_logs_the_groups_that_fail_witness :
  console_error
    (snd (syncWholecellVendorOps Sample.vendor
            (Sample.failing
               (fun c => match c with ProductsFindIn _ => true | _ => false end)
               (Sample.world [Sample.acmeX1 ""] [] Sample.twoUnits None))))
  = ["Acme_X1_A"].
Proof.
  rewrite (proj2 (@step_two_logs_the_groups_that_fail Sample.vendor
                    (Sample.failing
                       (fun c => match c with
                                 | ProductsFindIn _ => true
                                 | _ => false
                                 end)
                       (Sample.world [Sample.acmeX1 ""] [] Sample.twoUnits None)))
             [] (mkWholecellReport 7 2 1 0 0 0 0 0) Sample.twoUnits
             eq_refl eq_refl).
  reflexivity.
Defined.

Lemma generic_documents_are_well_formed_witness :
  genericDocument
    (snd (syncVendorOps Sample.vendor
            (Sample.world [Sample.acmeX1 ""] [] Sample.twoUnits (Some 5%N))))
    Sample.vendor 5
    (insertOne (mkData 7 1 5 [Cases.genericOption] "")).
Proof.
  destruct (@generic_documents_are_well_formed Sample.vendor
              (Sample.world [Sample.acmeX1 ""] [] Sample.twoUnits (Some 5%N))
              [insertOne (mkData 7 1 5 [Cases.genericOption] "")]
              (mkGenericReport 7 2 1 1 0 0 1)
              (snd (syncVendorOps Sample.vendor
                      (Sample.world [Sample.acmeX1 ""] [] Sample.twoUnits
                         (Some 5%N))))
              5%N eq_refl eq_refl
              (insertOne (mkData 7 1 5 [Cases.genericOption] "")))
    as [(e & Hin & _)|Hdoc].
  - now left.
  - destruct Hin.
  - exact Hdoc.
Defined.
